(** * Antiaereo: the concurrent engine of [main.cpp] as a transition system

    The program of [src/main.cpp] is a set of POSIX threads (spawner, one
    thread per enemy, one per rocket, reloader, player controller and the
    main loop) that share the global vectors [enemies], [rockets] and
    [launchers], three atomic counters and two atomic flags.

    The embedding keeps the globals in one record, gives every thread its
    private copy and a program counter, and makes one transition of every
    maximal block that runs under one mutex (or is a single atomic access
    followed by thread-private computation).  A mutex that is held from
    one transition to the next is part of the state: [batteryMutex] in
    the [for] loop of the reloader, and the two list mutexes in the joins
    of [waitForAllThreadsAndCleanup]; a transition that takes such a mutex
    is disabled while it is held.  A schedule is a list of actions;
    [step] is a function of the action, so schedules can be run. *)

From Stdlib Require Import ZArith Lia Bool List.
From stdpp Require Import base tactics list.

Local Open Scope Z_scope.

(** ** Machine integers *)

(** [int] is 32 bits.  [++] on the atomic counters wraps; [+=] and [+] on
    plain [int]s, undefined in the source out of range, are written with
    the same wrap. *)
Definition wrap32 (z : Z) : Z := (z + 2 ^ 31) mod 2 ^ 32 - 2 ^ 31.

Definition INT_MAX : Z := 2 ^ 31 - 1.

(** ** Config / Tipos *)

Inductive Aim : Type := AIM_UP | AIM_UPLEFT | AIM_UPRIGHT | AIM_LEFT | AIM_RIGHT.

(** [pthread_t] handles are the index of the thread in the list of the
    threads of its kind; a handle not yet stored is [None]. *)
Record Enemy : Type := MkEnemy {
  e_id : Z;
  e_x : Z;
  e_y : Z;
  e_alive : bool;
  e_tid : option nat
}.

Record Rocket : Type := MkRocket {
  r_id : Z;
  r_x : Z;
  r_y : Z;
  r_aim : Aim;
  r_tid : option nat;
  r_active : bool
}.

Record DifficultySettings : Type := MkSettings {
  k_launchers : Z;
  m_enemies : Z;
  enemy_step_ms : Z;
  reload_time_ms : Z;
  spawn_interval_ms : Z
}.

Definition EASY : DifficultySettings := MkSettings 3 12 700 1200 900.
Definition MEDIUM : DifficultySettings := MkSettings 5 18 450 800 600.
Definition HARD : DifficultySettings := MkSettings 8 25 250 350 300.

(** What [main] fixes before it starts the threads: the preset and the
    screen size. *)
Record Config : Type := MkConfig {
  settings : DifficultySettings;
  SCREEN_H : Z;
  SCREEN_W : Z
}.

(** [main], lines 458-487: the size reported by the terminal is clamped
    from below and the menu choice selects the preset. *)
Definition chooseSettings (choice : Z) : DifficultySettings :=
  if choice =? 1 then EASY else if choice =? 2 then MEDIUM else HARD.

Definition configure (choice maxy maxx : Z) : Config :=
  {| settings := chooseSettings choice;
     SCREEN_H := if maxy <? 20 then 20 else maxy;
     SCREEN_W := if maxx <? 60 then 60 else maxx |}.

Definition settings_eqb (a b : DifficultySettings) : bool :=
  (k_launchers a =? k_launchers b) && (m_enemies a =? m_enemies b)
  && (enemy_step_ms a =? enemy_step_ms b) && (reload_time_ms a =? reload_time_ms b)
  && (spawn_interval_ms a =? spawn_interval_ms b).

(** The configurations [main] can produce, with the screen size an [int]. *)
Definition valid_cfg (cfg : Config) : bool :=
  (settings_eqb (settings cfg) EASY || settings_eqb (settings cfg) MEDIUM
   || settings_eqb (settings cfg) HARD)
  && (20 <=? SCREEN_H cfg) && (SCREEN_H cfg <=? INT_MAX)
  && (60 <=? SCREEN_W cfg) && (SCREEN_W cfg <=? INT_MAX).

(** [k_launchers_global], line 489, as a list length. *)
Definition k_launchers_global (cfg : Config) : nat := Z.to_nat (k_launchers (settings cfg)).

(** ** Record updates *)

Definition e_set_y (y : Z) (e : Enemy) : Enemy :=
  {| e_id := e_id e; e_x := e_x e; e_y := y; e_alive := e_alive e; e_tid := e_tid e |}.

Definition e_set_alive (b : bool) (e : Enemy) : Enemy :=
  {| e_id := e_id e; e_x := e_x e; e_y := e_y e; e_alive := b; e_tid := e_tid e |}.

Definition e_set_tid (t : option nat) (e : Enemy) : Enemy :=
  {| e_id := e_id e; e_x := e_x e; e_y := e_y e; e_alive := e_alive e; e_tid := t |}.

Definition r_set_pos (x y : Z) (r : Rocket) : Rocket :=
  {| r_id := r_id r; r_x := x; r_y := y; r_aim := r_aim r; r_tid := r_tid r;
     r_active := r_active r |}.

Definition r_set_active (b : bool) (r : Rocket) : Rocket :=
  {| r_id := r_id r; r_x := r_x r; r_y := r_y r; r_aim := r_aim r; r_tid := r_tid r;
     r_active := b |}.

Definition r_set_tid (t : option nat) (r : Rocket) : Rocket :=
  {| r_id := r_id r; r_x := r_x r; r_y := r_y r; r_aim := r_aim r; r_tid := t;
     r_active := r_active r |}.

(** ** Loops over the shared vectors *)

(** [for (auto &x : v) if (p x) { x = f x; break; }]: the first element that
    satisfies [p] is updated; the flag tells whether there was one. *)
Fixpoint updFirst {A : Type} (p : A -> bool) (f : A -> A) (l : list A) : bool * list A :=
  match l with
  | [] => (false, [])
  | x :: t =>
      if p x then (true, f x :: t)
      else let '(found, t') := updFirst p f t in (found, x :: t')
  end.

(** [for (auto &x : v) if (p x) x = f x;] without [break]. *)
Definition updAll {A : Type} (p : A -> bool) (f : A -> A) (l : list A) : list A :=
  map (fun x => if p x then f x else x) l.

(** ** Helper functions of the source *)

(** [aimToStep]: the step [(dx, dy)] of a rocket per tick. *)
Definition aimToStep (a : Aim) : Z * Z :=
  match a with
  | AIM_UP => (0, -1)
  | AIM_UPLEFT => (-1, -1)
  | AIM_UPRIGHT => (1, -1)
  | AIM_LEFT => (-1, 0)
  | AIM_RIGHT => (1, 0)
  end.

(** [removeRocketById]: erase every rocket with the given id.  No thread
    function calls it. *)
Definition removeRocketById (id : Z) (rs : list Rocket) : list Rocket :=
  List.filter (fun r => negb (r_id r =? id)) rs.

(** [rocketThreadFn], lines 194-204, under [enemyListMutex]: the first
    enemy that is alive and on the rocket's cell is cleared. *)
Definition onCell (x y : Z) (e : Enemy) : bool :=
  e_alive e && (e_x e =? x) && (e_y e =? y).

Definition collisionCheck (x y : Z) (es : list Enemy) : bool * list Enemy :=
  updFirst (onCell x y) (e_set_alive false) es.

(** [enemyThreadFn], lines 256-264, under [enemyListMutex]: the first
    record with the thread's id that is alive is cleared. *)
Definition ownAlive (id : Z) (e : Enemy) : bool := (e_id e =? id) && e_alive e.

Definition groundCheck (id : Z) (es : list Enemy) : bool * list Enemy :=
  updFirst (ownAlive id) (e_set_alive false) es.

(** [rocketThreadFn], line 212. *)
Definition offscreen (cfg : Config) (x y : Z) : bool :=
  (x <? 1) || (SCREEN_W cfg - 1 <=? x) || (y <? 1) || (SCREEN_H cfg - 2 <=? y).

(** [playerControllerFn], lines 376-379: the first launcher that holds a
    rocket, scanning [i = from, from+1, ...] for [n] iterations.  A slot
    outside the vector counts as not loaded. *)
Fixpoint firstLoaded (ls : list bool) (from n : nat) : option nat :=
  match n with
  | O => None
  | S n' =>
      match ls !! from with
      | Some true => Some from
      | _ => firstLoaded ls (S from) n'
      end
  end.

(** Lines 376-383: the chosen slot, if any, is emptied. *)
Definition tryFire (k : nat) (ls : list bool) : option nat * list bool :=
  match firstLoaded ls 0 k with
  | Some chosen => (Some chosen, <[chosen := false]> ls)
  | None => (None, ls)
  end.

(** [reloadThreadFn], lines 312-313. *)
Definition allFull (ls : list bool) : bool := forallb (fun b => b) ls.

(** [main], lines 511-527 and 536-546: the tests on the values read at the
    top of the tick.  [/] on [int] truncates; [m] is a preset value, so
    [m + 1] is exact. *)
Inductive Outcome : Type := Win | Lose.

Definition winThreshold (m : Z) : Z := Z.quot (m + 1) 2.
Definition loseThreshold (m : Z) : Z := Z.quot m 2.

Definition thresholdCheck (m destroyed ground : Z) : option Outcome :=
  if winThreshold m <=? destroyed then Some Win
  else if loseThreshold m <? ground then Some Lose
  else None.

Definition finalCheck (m destroyed : Z) : Outcome :=
  if winThreshold m <=? destroyed then Win else Lose.

(** [main], line 532. *)
Definition anyAlive (es : list Enemy) : bool := existsb e_alive es.

(** ** Threads *)

Inductive EnemyPc : Type :=
| EnTest      (* line 239, the loop condition *)
| EnMove      (* lines 240-252 *)
| EnGround    (* lines 255-266 *)
| EnDone.

Record EnemyThread : Type := MkEnemyThread { et_e : Enemy; et_pc : EnemyPc }.

Inductive RocketPc : Type :=
| RkTest      (* line 178 *)
| RkMove      (* lines 180-191 *)
| RkCollide   (* lines 194-216 *)
| RkFinish    (* lines 220-230 *)
| RkDone.

Record RocketThread : Type := MkRocketThread {
  rt_r : Rocket;
  rt_dx : Z;
  rt_dy : Z;
  rt_pc : RocketPc
}.

Inductive SpawnerPc : Type :=
| SpLoop (i : Z)                (* lines 277-286 *)
| SpPushed (i : Z) (e : Enemy)  (* lines 289-297 *)
| SpStarted (i : Z)             (* lines 299-300 *)
| SpDone.

(** [RlLock] is past the loop condition and about to take [batteryMutex];
    [RlFor i] holds it; [RlSleep i ms] has released it and sleeps [ms]
    milliseconds before it looks at slot [i] again. *)
Inductive ReloadPc : Type :=
| RlHead                        (* line 309, the loop condition *)
| RlLock                        (* lines 310-319 *)
| RlWait                        (* line 316, blocked on batteryNotFull *)
| RlFor (i : nat)               (* lines 321-325 *)
| RlSleep (i : nat) (ms : Z)    (* lines 326-331 *)
| RlDone.

Inductive PlayerPc : Type :=
| PlLoop                        (* lines 346-386 *)
| PlFired                       (* lines 390-402 *)
| PlPushed (rr : Rocket)        (* lines 404-412 *)
| PlDone.

Inductive MainPc : Type :=
| MnTest                        (* line 503 *)
| MnLoadDestroyed               (* line 508 *)
| MnLoadGround (destroyed : Z)  (* lines 509-527 *)
| MnSpawnDone (destroyed ground : Z)   (* line 529 *)
| MnScan (destroyed ground : Z)        (* lines 530-549 *)
| MnStop                        (* lines 517-518, 525-526, 547-548 *)
| MnExit                        (* lines 556-557 *)
| MnJoinSpawner                 (* line 560 *)
| MnJoinReloader                (* line 561 *)
| MnJoinPlayer                  (* line 562 *)
| MnJoinEnemies (j : nat)       (* lines 432-436, holding enemyListMutex *)
| MnRockets                     (* line 439, enemyListMutex released *)
| MnJoinRockets (j : nat)       (* lines 439-443, holding rocketListMutex *)
| MnDone.                       (* lines 566-579 *)

(** ** The global state *)

(** The globals of the source, what the game window shows as the result
    ([announced]), the threads, and three history variables that no
    transition reads: [firedCount] counts the fire attempts that consumed
    a launcher (line 382), [launchedCount] the rockets put in the rocket
    vector (line 401), [quitSeen] records that the player pressed Q. *)
Record State : Type := MkState {
  enemies : list Enemy;
  rockets : list Rocket;
  launchers : list bool;
  destroyedEnemies : Z;
  groundHits : Z;
  spawnedEnemies : Z;
  gameRunning : bool;
  spawnDone : bool;
  currentAim : Aim;
  nextEnemyId : Z;
  nextRocketId : Z;
  announced : list Outcome;
  enemyThreads : list EnemyThread;
  rocketThreads : list RocketThread;
  spawner : SpawnerPc;
  reloader : ReloadPc;
  player : PlayerPc;
  controller : MainPc;
  firedCount : nat;
  launchedCount : nat;
  quitSeen : bool
}.

Definition set_enemies (v : list Enemy) (s : State) : State :=
  {| enemies := v; rockets := rockets s; launchers := launchers s; destroyedEnemies :=
     destroyedEnemies s; groundHits := groundHits s; spawnedEnemies := spawnedEnemies s;
     gameRunning := gameRunning s; spawnDone := spawnDone s; currentAim := currentAim s;
     nextEnemyId := nextEnemyId s; nextRocketId := nextRocketId s; announced := announced s;
     enemyThreads := enemyThreads s; rocketThreads := rocketThreads s; spawner := spawner s;
     reloader := reloader s; player := player s; controller := controller s; firedCount :=
     firedCount s; launchedCount := launchedCount s; quitSeen := quitSeen s |}.
Definition set_rockets (v : list Rocket) (s : State) : State :=
  {| enemies := enemies s; rockets := v; launchers := launchers s; destroyedEnemies :=
     destroyedEnemies s; groundHits := groundHits s; spawnedEnemies := spawnedEnemies s;
     gameRunning := gameRunning s; spawnDone := spawnDone s; currentAim := currentAim s;
     nextEnemyId := nextEnemyId s; nextRocketId := nextRocketId s; announced := announced s;
     enemyThreads := enemyThreads s; rocketThreads := rocketThreads s; spawner := spawner s;
     reloader := reloader s; player := player s; controller := controller s; firedCount :=
     firedCount s; launchedCount := launchedCount s; quitSeen := quitSeen s |}.
Definition set_launchers (v : list bool) (s : State) : State :=
  {| enemies := enemies s; rockets := rockets s; launchers := v; destroyedEnemies :=
     destroyedEnemies s; groundHits := groundHits s; spawnedEnemies := spawnedEnemies s;
     gameRunning := gameRunning s; spawnDone := spawnDone s; currentAim := currentAim s;
     nextEnemyId := nextEnemyId s; nextRocketId := nextRocketId s; announced := announced s;
     enemyThreads := enemyThreads s; rocketThreads := rocketThreads s; spawner := spawner s;
     reloader := reloader s; player := player s; controller := controller s; firedCount :=
     firedCount s; launchedCount := launchedCount s; quitSeen := quitSeen s |}.
Definition set_destroyedEnemies (v : Z) (s : State) : State :=
  {| enemies := enemies s; rockets := rockets s; launchers := launchers s; destroyedEnemies :=
     v; groundHits := groundHits s; spawnedEnemies := spawnedEnemies s; gameRunning :=
     gameRunning s; spawnDone := spawnDone s; currentAim := currentAim s; nextEnemyId :=
     nextEnemyId s; nextRocketId := nextRocketId s; announced := announced s; enemyThreads :=
     enemyThreads s; rocketThreads := rocketThreads s; spawner := spawner s; reloader :=
     reloader s; player := player s; controller := controller s; firedCount := firedCount s;
     launchedCount := launchedCount s; quitSeen := quitSeen s |}.
Definition set_groundHits (v : Z) (s : State) : State :=
  {| enemies := enemies s; rockets := rockets s; launchers := launchers s; destroyedEnemies :=
     destroyedEnemies s; groundHits := v; spawnedEnemies := spawnedEnemies s; gameRunning :=
     gameRunning s; spawnDone := spawnDone s; currentAim := currentAim s; nextEnemyId :=
     nextEnemyId s; nextRocketId := nextRocketId s; announced := announced s; enemyThreads :=
     enemyThreads s; rocketThreads := rocketThreads s; spawner := spawner s; reloader :=
     reloader s; player := player s; controller := controller s; firedCount := firedCount s;
     launchedCount := launchedCount s; quitSeen := quitSeen s |}.
Definition set_spawnedEnemies (v : Z) (s : State) : State :=
  {| enemies := enemies s; rockets := rockets s; launchers := launchers s; destroyedEnemies :=
     destroyedEnemies s; groundHits := groundHits s; spawnedEnemies := v; gameRunning :=
     gameRunning s; spawnDone := spawnDone s; currentAim := currentAim s; nextEnemyId :=
     nextEnemyId s; nextRocketId := nextRocketId s; announced := announced s; enemyThreads :=
     enemyThreads s; rocketThreads := rocketThreads s; spawner := spawner s; reloader :=
     reloader s; player := player s; controller := controller s; firedCount := firedCount s;
     launchedCount := launchedCount s; quitSeen := quitSeen s |}.
Definition set_gameRunning (v : bool) (s : State) : State :=
  {| enemies := enemies s; rockets := rockets s; launchers := launchers s; destroyedEnemies :=
     destroyedEnemies s; groundHits := groundHits s; spawnedEnemies := spawnedEnemies s;
     gameRunning := v; spawnDone := spawnDone s; currentAim := currentAim s; nextEnemyId :=
     nextEnemyId s; nextRocketId := nextRocketId s; announced := announced s; enemyThreads :=
     enemyThreads s; rocketThreads := rocketThreads s; spawner := spawner s; reloader :=
     reloader s; player := player s; controller := controller s; firedCount := firedCount s;
     launchedCount := launchedCount s; quitSeen := quitSeen s |}.
Definition set_spawnDone (v : bool) (s : State) : State :=
  {| enemies := enemies s; rockets := rockets s; launchers := launchers s; destroyedEnemies :=
     destroyedEnemies s; groundHits := groundHits s; spawnedEnemies := spawnedEnemies s;
     gameRunning := gameRunning s; spawnDone := v; currentAim := currentAim s; nextEnemyId :=
     nextEnemyId s; nextRocketId := nextRocketId s; announced := announced s; enemyThreads :=
     enemyThreads s; rocketThreads := rocketThreads s; spawner := spawner s; reloader :=
     reloader s; player := player s; controller := controller s; firedCount := firedCount s;
     launchedCount := launchedCount s; quitSeen := quitSeen s |}.
Definition set_currentAim (v : Aim) (s : State) : State :=
  {| enemies := enemies s; rockets := rockets s; launchers := launchers s; destroyedEnemies :=
     destroyedEnemies s; groundHits := groundHits s; spawnedEnemies := spawnedEnemies s;
     gameRunning := gameRunning s; spawnDone := spawnDone s; currentAim := v; nextEnemyId :=
     nextEnemyId s; nextRocketId := nextRocketId s; announced := announced s; enemyThreads :=
     enemyThreads s; rocketThreads := rocketThreads s; spawner := spawner s; reloader :=
     reloader s; player := player s; controller := controller s; firedCount := firedCount s;
     launchedCount := launchedCount s; quitSeen := quitSeen s |}.
Definition set_nextEnemyId (v : Z) (s : State) : State :=
  {| enemies := enemies s; rockets := rockets s; launchers := launchers s; destroyedEnemies :=
     destroyedEnemies s; groundHits := groundHits s; spawnedEnemies := spawnedEnemies s;
     gameRunning := gameRunning s; spawnDone := spawnDone s; currentAim := currentAim s;
     nextEnemyId := v; nextRocketId := nextRocketId s; announced := announced s; enemyThreads :=
     enemyThreads s; rocketThreads := rocketThreads s; spawner := spawner s; reloader :=
     reloader s; player := player s; controller := controller s; firedCount := firedCount s;
     launchedCount := launchedCount s; quitSeen := quitSeen s |}.
Definition set_nextRocketId (v : Z) (s : State) : State :=
  {| enemies := enemies s; rockets := rockets s; launchers := launchers s; destroyedEnemies :=
     destroyedEnemies s; groundHits := groundHits s; spawnedEnemies := spawnedEnemies s;
     gameRunning := gameRunning s; spawnDone := spawnDone s; currentAim := currentAim s;
     nextEnemyId := nextEnemyId s; nextRocketId := v; announced := announced s; enemyThreads :=
     enemyThreads s; rocketThreads := rocketThreads s; spawner := spawner s; reloader :=
     reloader s; player := player s; controller := controller s; firedCount := firedCount s;
     launchedCount := launchedCount s; quitSeen := quitSeen s |}.
Definition set_announced (v : list Outcome) (s : State) : State :=
  {| enemies := enemies s; rockets := rockets s; launchers := launchers s; destroyedEnemies :=
     destroyedEnemies s; groundHits := groundHits s; spawnedEnemies := spawnedEnemies s;
     gameRunning := gameRunning s; spawnDone := spawnDone s; currentAim := currentAim s;
     nextEnemyId := nextEnemyId s; nextRocketId := nextRocketId s; announced := v; enemyThreads
     := enemyThreads s; rocketThreads := rocketThreads s; spawner := spawner s; reloader :=
     reloader s; player := player s; controller := controller s; firedCount := firedCount s;
     launchedCount := launchedCount s; quitSeen := quitSeen s |}.
Definition set_enemyThreads (v : list EnemyThread) (s : State) : State :=
  {| enemies := enemies s; rockets := rockets s; launchers := launchers s; destroyedEnemies :=
     destroyedEnemies s; groundHits := groundHits s; spawnedEnemies := spawnedEnemies s;
     gameRunning := gameRunning s; spawnDone := spawnDone s; currentAim := currentAim s;
     nextEnemyId := nextEnemyId s; nextRocketId := nextRocketId s; announced := announced s;
     enemyThreads := v; rocketThreads := rocketThreads s; spawner := spawner s; reloader :=
     reloader s; player := player s; controller := controller s; firedCount := firedCount s;
     launchedCount := launchedCount s; quitSeen := quitSeen s |}.
Definition set_rocketThreads (v : list RocketThread) (s : State) : State :=
  {| enemies := enemies s; rockets := rockets s; launchers := launchers s; destroyedEnemies :=
     destroyedEnemies s; groundHits := groundHits s; spawnedEnemies := spawnedEnemies s;
     gameRunning := gameRunning s; spawnDone := spawnDone s; currentAim := currentAim s;
     nextEnemyId := nextEnemyId s; nextRocketId := nextRocketId s; announced := announced s;
     enemyThreads := enemyThreads s; rocketThreads := v; spawner := spawner s; reloader :=
     reloader s; player := player s; controller := controller s; firedCount := firedCount s;
     launchedCount := launchedCount s; quitSeen := quitSeen s |}.
Definition set_spawner (v : SpawnerPc) (s : State) : State :=
  {| enemies := enemies s; rockets := rockets s; launchers := launchers s; destroyedEnemies :=
     destroyedEnemies s; groundHits := groundHits s; spawnedEnemies := spawnedEnemies s;
     gameRunning := gameRunning s; spawnDone := spawnDone s; currentAim := currentAim s;
     nextEnemyId := nextEnemyId s; nextRocketId := nextRocketId s; announced := announced s;
     enemyThreads := enemyThreads s; rocketThreads := rocketThreads s; spawner := v; reloader :=
     reloader s; player := player s; controller := controller s; firedCount := firedCount s;
     launchedCount := launchedCount s; quitSeen := quitSeen s |}.
Definition set_reloader (v : ReloadPc) (s : State) : State :=
  {| enemies := enemies s; rockets := rockets s; launchers := launchers s; destroyedEnemies :=
     destroyedEnemies s; groundHits := groundHits s; spawnedEnemies := spawnedEnemies s;
     gameRunning := gameRunning s; spawnDone := spawnDone s; currentAim := currentAim s;
     nextEnemyId := nextEnemyId s; nextRocketId := nextRocketId s; announced := announced s;
     enemyThreads := enemyThreads s; rocketThreads := rocketThreads s; spawner := spawner s;
     reloader := v; player := player s; controller := controller s; firedCount := firedCount s;
     launchedCount := launchedCount s; quitSeen := quitSeen s |}.
Definition set_player (v : PlayerPc) (s : State) : State :=
  {| enemies := enemies s; rockets := rockets s; launchers := launchers s; destroyedEnemies :=
     destroyedEnemies s; groundHits := groundHits s; spawnedEnemies := spawnedEnemies s;
     gameRunning := gameRunning s; spawnDone := spawnDone s; currentAim := currentAim s;
     nextEnemyId := nextEnemyId s; nextRocketId := nextRocketId s; announced := announced s;
     enemyThreads := enemyThreads s; rocketThreads := rocketThreads s; spawner := spawner s;
     reloader := reloader s; player := v; controller := controller s; firedCount := firedCount
     s; launchedCount := launchedCount s; quitSeen := quitSeen s |}.
Definition set_controller (v : MainPc) (s : State) : State :=
  {| enemies := enemies s; rockets := rockets s; launchers := launchers s; destroyedEnemies :=
     destroyedEnemies s; groundHits := groundHits s; spawnedEnemies := spawnedEnemies s;
     gameRunning := gameRunning s; spawnDone := spawnDone s; currentAim := currentAim s;
     nextEnemyId := nextEnemyId s; nextRocketId := nextRocketId s; announced := announced s;
     enemyThreads := enemyThreads s; rocketThreads := rocketThreads s; spawner := spawner s;
     reloader := reloader s; player := player s; controller := v; firedCount := firedCount s;
     launchedCount := launchedCount s; quitSeen := quitSeen s |}.
Definition set_firedCount (v : nat) (s : State) : State :=
  {| enemies := enemies s; rockets := rockets s; launchers := launchers s; destroyedEnemies :=
     destroyedEnemies s; groundHits := groundHits s; spawnedEnemies := spawnedEnemies s;
     gameRunning := gameRunning s; spawnDone := spawnDone s; currentAim := currentAim s;
     nextEnemyId := nextEnemyId s; nextRocketId := nextRocketId s; announced := announced s;
     enemyThreads := enemyThreads s; rocketThreads := rocketThreads s; spawner := spawner s;
     reloader := reloader s; player := player s; controller := controller s; firedCount := v;
     launchedCount := launchedCount s; quitSeen := quitSeen s |}.
Definition set_launchedCount (v : nat) (s : State) : State :=
  {| enemies := enemies s; rockets := rockets s; launchers := launchers s; destroyedEnemies :=
     destroyedEnemies s; groundHits := groundHits s; spawnedEnemies := spawnedEnemies s;
     gameRunning := gameRunning s; spawnDone := spawnDone s; currentAim := currentAim s;
     nextEnemyId := nextEnemyId s; nextRocketId := nextRocketId s; announced := announced s;
     enemyThreads := enemyThreads s; rocketThreads := rocketThreads s; spawner := spawner s;
     reloader := reloader s; player := player s; controller := controller s; firedCount :=
     firedCount s; launchedCount := v; quitSeen := quitSeen s |}.
Definition set_quitSeen (v : bool) (s : State) : State :=
  {| enemies := enemies s; rockets := rockets s; launchers := launchers s; destroyedEnemies :=
     destroyedEnemies s; groundHits := groundHits s; spawnedEnemies := spawnedEnemies s;
     gameRunning := gameRunning s; spawnDone := spawnDone s; currentAim := currentAim s;
     nextEnemyId := nextEnemyId s; nextRocketId := nextRocketId s; announced := announced s;
     enemyThreads := enemyThreads s; rocketThreads := rocketThreads s; spawner := spawner s;
     reloader := reloader s; player := player s; controller := controller s; firedCount :=
     firedCount s; launchedCount := launchedCount s; quitSeen := v |}.

(** ** Signalling and locking *)

(** [batteryMutex] is held across transitions only by the reloader inside
    its [for] loop. *)
Definition batteryLocked (s : State) : bool :=
  match reloader s with RlFor _ => true | _ => false end.

(** [enemyListMutex] and [rocketListMutex] are held across transitions
    only by [main], in [waitForAllThreadsAndCleanup], which keeps each of
    them locked across the [pthread_join] calls of its loop.  By then the
    spawner and the player controller have been joined, so of the threads
    that take these mutexes only enemy and rocket threads can still find
    them locked. *)
Definition enemyListLocked (s : State) : bool :=
  match controller s with MnJoinEnemies _ => true | _ => false end.

Definition rocketListLocked (s : State) : bool :=
  match controller s with MnJoinRockets _ => true | _ => false end.

(** [pthread_cond_signal] and [pthread_cond_broadcast] on [batteryNotFull]:
    the only possible waiter is the reloader, which then unlocks and
    goes back to the head of its loop (lines 316-318). *)
Definition signalBattery (s : State) : State :=
  match reloader s with
  | RlWait => set_reloader RlHead s
  | _ => s
  end.

(** ** Thread functions *)

Definition setEnemyThread (t : nat) (e : Enemy) (pc : EnemyPc) (s : State) : State :=
  set_enemyThreads (<[t := MkEnemyThread e pc]> (enemyThreads s)) s.

(** [enemyThreadFn]: one transition of enemy thread [t].  [e] is the
    thread's private copy of the record.  The two critical sections wait
    for [enemyListMutex]. *)
Definition enemyThreadFn (cfg : Config) (t : nat) (s : State) : option State :=
  match enemyThreads s !! t with
  | None => None
  | Some th =>
      let e := et_e th in
      match et_pc th with
      | EnTest =>
          if gameRunning s && e_alive e then Some (setEnemyThread t e EnMove s)
          else Some (setEnemyThread t e EnDone s)
      | EnMove =>
          if enemyListLocked s then None
          else
            let e' := e_set_y (wrap32 (e_y e + 1)) e in
            let es := (updFirst (fun ge => e_id ge =? e_id e') (e_set_y (e_y e'))
                         (enemies s)).2 in
            Some (setEnemyThread t e' EnGround (set_enemies es s))
      | EnGround =>
          if SCREEN_H cfg - 2 <=? e_y e then
            if enemyListLocked s then None
            else
              let r := groundCheck (e_id e) (enemies s) in
              let s1 := set_enemies r.2 s in
              let s2 := if r.1 then set_groundHits (wrap32 (groundHits s + 1)) s1 else s1 in
              Some (setEnemyThread t e EnDone s2)
          else Some (setEnemyThread t e EnTest s)
      | EnDone => None
      end
  end.

Definition setRocketThread (t : nat) (th : RocketThread) (r : Rocket) (pc : RocketPc)
    (s : State) : State :=
  set_rocketThreads (<[t := MkRocketThread r (rt_dx th) (rt_dy th) pc]> (rocketThreads s)) s.

(** [rocketThreadFn]: one transition of rocket thread [t].  The position
    update and the last section wait for [rocketListMutex], the collision
    check for [enemyListMutex]. *)
Definition rocketThreadFn (cfg : Config) (t : nat) (s : State) : option State :=
  match rocketThreads s !! t with
  | None => None
  | Some th =>
      let r := rt_r th in
      match rt_pc th with
      | RkTest =>
          if gameRunning s && r_active r then Some (setRocketThread t th r RkMove s)
          else Some (setRocketThread t th r RkFinish s)
      | RkMove =>
          if rocketListLocked s then None
          else
            let r' := r_set_pos (wrap32 (r_x r + rt_dx th)) (wrap32 (r_y r + rt_dy th)) r in
            let rs := (updFirst (fun gr => r_id gr =? r_id r') (r_set_pos (r_x r') (r_y r'))
                         (rockets s)).2 in
            Some (setRocketThread t th r' RkCollide (set_rockets rs s))
      | RkCollide =>
          if enemyListLocked s then None
          else
            let c := collisionCheck (r_x r) (r_y r) (enemies s) in
            if c.1 then
              Some (setRocketThread t th r RkFinish
                      (set_destroyedEnemies (wrap32 (destroyedEnemies s + 1))
                         (set_enemies c.2 s)))
            else if offscreen cfg (r_x r) (r_y r) then Some (setRocketThread t th r RkFinish s)
            else Some (setRocketThread t th r RkTest s)
      | RkFinish =>
          if rocketListLocked s then None
          else
            let rs := (updFirst (fun gr => r_id gr =? r_id r) (r_set_active false)
                         (rockets s)).2 in
            Some (signalBattery (setRocketThread t th r RkDone (set_rockets rs s)))
      | RkDone => None
      end
  end.

(** [enemySpawnerFn]: one transition of the spawner.  [x] is the value
    drawn from [distX(rng)], in [2, SCREEN_W - 4]. *)
Definition enemySpawnerFn (cfg : Config) (x : Z) (s : State) : option State :=
  match spawner s with
  | SpLoop i =>
      if (i <? m_enemies (settings cfg)) && gameRunning s then
        if (2 <=? x) && (x <=? SCREEN_W cfg - 4) then
          let e := {| e_id := nextEnemyId s; e_x := x; e_y := 1; e_alive := true;
                      e_tid := None |} in
          Some (set_spawner (SpPushed i e)
                  (set_enemies (enemies s ++ [e])
                     (set_nextEnemyId (wrap32 (nextEnemyId s + 1)) s)))
        else None
      else Some (set_spawner SpDone (set_spawnDone true s))
  | SpPushed i e =>
      let tid := length (enemyThreads s) in
      Some (set_spawner (SpStarted i)
              (set_enemies (updAll (fun ge => e_id ge =? e_id e) (e_set_tid (Some tid))
                              (enemies s))
                 (set_enemyThreads (enemyThreads s ++ [MkEnemyThread e EnTest]) s)))
  | SpStarted i =>
      Some (set_spawner (SpLoop (wrap32 (i + 1)))
              (set_spawnedEnemies (wrap32 (spawnedEnemies s + 1)) s))
  | SpDone => None
  end.

(** [reloadThreadFn]: one transition of the reloader.  The loop condition
    is read before the mutex is taken, so the reloader can start to wait
    after the match was stopped. *)
Definition reloadThreadFn (cfg : Config) (s : State) : option State :=
  match reloader s with
  | RlHead =>
      if gameRunning s then Some (set_reloader RlLock s)
      else Some (set_reloader RlDone s)
  | RlLock =>
      if allFull (launchers s) then Some (set_reloader RlWait s)
      else Some (set_reloader (RlFor 0) s)
  | RlWait => None
  | RlFor i =>
      if (i <? k_launchers_global cfg)%nat && gameRunning s then
        match launchers s !! i with
        | Some false => Some (set_reloader (RlSleep i (reload_time_ms (settings cfg))) s)
        | _ => Some (set_reloader (RlFor (S i)) s)
        end
      else Some (set_reloader RlHead s)
  | RlSleep i _ =>
      match launchers s !! i with
      | Some false => Some (set_reloader (RlFor (S i)) (set_launchers (<[i := true]> (launchers s)) s))
      | _ => Some (set_reloader (RlFor (S i)) s)
      end
  | RlDone => None
  end.

(** A wait on a condition variable may also return without a signal. *)
Definition spuriousWakeup (s : State) : option State :=
  match reloader s with
  | RlWait => Some (set_reloader RlHead s)
  | _ => None
  end.

(** What [wgetch] returns to the player controller. *)
Inductive Input : Type :=
| KeyNone            (* ERR *)
| KeyQuit            (* q Q *)
| KeyAim (a : Aim)   (* arrows, w a d z c *)
| KeyFire            (* space *)
| KeyOther.

(** [playerControllerFn]: one transition of the player controller.  [ev]
    is what [wgetch] returns; it is read at the head of the loop only.
    The redraw at the end of an iteration changes no game state. *)
Definition playerControllerFn (cfg : Config) (ev : Input) (s : State) : option State :=
  match player s with
  | PlLoop =>
      if gameRunning s then
        match ev with
        | KeyNone | KeyOther => Some s
        | KeyQuit =>
            Some (set_player PlDone
                    (signalBattery (set_quitSeen true (set_gameRunning false s))))
        | KeyAim a => if batteryLocked s then None else Some (set_currentAim a s)
        | KeyFire =>
            if batteryLocked s then None
            else
              let f := tryFire (k_launchers_global cfg) (launchers s) in
              match f.1 with
              | Some _ =>
                  Some (set_player PlFired
                          (set_firedCount (S (firedCount s))
                             (signalBattery (set_launchers f.2 s))))
              | None => Some (signalBattery s)
              end
        end
      else Some (set_player PlDone s)
  | PlFired =>
      let rr := {| r_id := nextRocketId s; r_x := Z.quot (SCREEN_W cfg) 2;
                   r_y := SCREEN_H cfg - 3; r_aim := currentAim s; r_tid := None;
                   r_active := true |} in
      Some (set_player (PlPushed rr)
              (set_launchedCount (S (launchedCount s))
                 (set_rockets (rockets s ++ [rr])
                    (set_nextRocketId (wrap32 (nextRocketId s + 1)) s))))
  | PlPushed rr =>
      let tid := length (rocketThreads s) in
      let d := aimToStep (r_aim rr) in
      Some (set_player PlLoop
              (set_rockets (updAll (fun gr => r_id gr =? r_id rr) (r_set_tid (Some tid))
                              (rockets s))
                 (set_rocketThreads (rocketThreads s ++ [MkRocketThread rr d.1 d.2 RkTest])
                    s)))
  | PlDone => None
  end.

Definition enemyDone (th : EnemyThread) : bool :=
  match et_pc th with EnDone => true | _ => false end.

Definition rocketDone (th : RocketThread) : bool :=
  match rt_pc th with RkDone => true | _ => false end.

(** [pthread_join] on the handle stored in an enemy or a rocket record
    returns once that thread has ended. *)
Definition enemyReturned (tid : nat) (s : State) : bool :=
  match enemyThreads s !! tid with
  | Some th => enemyDone th
  | None => false
  end.

Definition rocketReturned (tid : nat) (s : State) : bool :=
  match rocketThreads s !! tid with
  | Some th => rocketDone th
  | None => false
  end.

Definition announce (o : Outcome) (s : State) : State :=
  set_announced (announced s ++ [o]) s.

(** The main loop of [main] and the shutdown after it: the joins of the
    three fixed threads, then [waitForAllThreadsAndCleanup], which goes
    through the enemy records with [enemyListMutex] held and joins every
    stored handle, and then through the rocket records with
    [rocketListMutex] held. *)
Definition mainLoop (cfg : Config) (s : State) : option State :=
  let m := m_enemies (settings cfg) in
  match controller s with
  | MnTest =>
      if gameRunning s then Some (set_controller MnLoadDestroyed s)
      else Some (set_controller MnExit s)
  | MnLoadDestroyed => Some (set_controller (MnLoadGround (destroyedEnemies s)) s)
  | MnLoadGround destroyed =>
      let ground := groundHits s in
      match thresholdCheck m destroyed ground with
      | Some o => Some (set_controller MnStop (announce o s))
      | None => Some (set_controller (MnSpawnDone destroyed ground) s)
      end
  | MnSpawnDone destroyed ground =>
      if spawnDone s then Some (set_controller (MnScan destroyed ground) s)
      else Some (set_controller MnTest s)
  | MnScan destroyed ground =>
      if anyAlive (enemies s) then Some (set_controller MnTest s)
      else Some (set_controller MnStop (announce (finalCheck m destroyed) s))
  | MnStop => Some (set_controller MnExit (set_gameRunning false s))
  | MnExit => Some (set_controller MnJoinSpawner (signalBattery (set_gameRunning false s)))
  | MnJoinSpawner =>
      match spawner s with
      | SpDone => Some (set_controller MnJoinReloader s)
      | _ => None
      end
  | MnJoinReloader =>
      match reloader s with
      | RlDone => Some (set_controller MnJoinPlayer s)
      | _ => None
      end
  | MnJoinPlayer =>
      match player s with
      | PlDone => Some (set_controller (MnJoinEnemies 0) s)
      | _ => None
      end
  | MnJoinEnemies j =>
      match enemies s !! j with
      | Some e =>
          match e_tid e with
          | Some tid =>
              if enemyReturned tid s then Some (set_controller (MnJoinEnemies (S j)) s)
              else None
          | None => Some (set_controller (MnJoinEnemies (S j)) s)
          end
      | None => Some (set_controller MnRockets s)
      end
  | MnRockets => Some (set_controller (MnJoinRockets 0) s)
  | MnJoinRockets j =>
      match rockets s !! j with
      | Some r =>
          match r_tid r with
          | Some tid =>
              if rocketReturned tid s then Some (set_controller (MnJoinRockets (S j)) s)
              else None
          | None => Some (set_controller (MnJoinRockets (S j)) s)
          end
      | None => Some (set_controller MnDone s)
      end
  | MnDone => None
  end.

(** ** Schedules *)

Inductive Action : Type :=
| ASpawner (x : Z)
| AEnemy (t : nat)
| ARocket (t : nat)
| AReload
| ASpurious
| APlayer (ev : Input)
| AMain.

Definition step (cfg : Config) (a : Action) (s : State) : option State :=
  match a with
  | ASpawner x => enemySpawnerFn cfg x s
  | AEnemy t => enemyThreadFn cfg t s
  | ARocket t => rocketThreadFn cfg t s
  | AReload => reloadThreadFn cfg s
  | ASpurious => spuriousWakeup s
  | APlayer ev => playerControllerFn cfg ev s
  | AMain => mainLoop cfg s
  end.

Fixpoint run (cfg : Config) (sched : list Action) (s : State) : option State :=
  match sched with
  | [] => Some s
  | a :: rest =>
      match step cfg a s with
      | Some s' => run cfg rest s'
      | None => None
      end
  end.

(** The state in which [main] has started the three fixed threads
    (lines 489-500). *)
Definition initState (cfg : Config) : State :=
  {| enemies := []; rockets := []; launchers := replicate (k_launchers_global cfg) true;
     destroyedEnemies := 0; groundHits := 0; spawnedEnemies := 0;
     gameRunning := true; spawnDone := false; currentAim := AIM_UP;
     nextEnemyId := 1; nextRocketId := 1; announced := [];
     enemyThreads := []; rocketThreads := [];
     spawner := SpLoop 0; reloader := RlHead; player := PlLoop; controller := MnTest;
     firedCount := 0%nat; launchedCount := 0%nat; quitSeen := false |}.

Inductive reachable (cfg : Config) : State -> Prop :=
| reachable_init : reachable cfg (initState cfg)
| reachable_step a s s' : reachable cfg s -> step cfg a s = Some s' -> reachable cfg s'.

(** ** Observations used in the statements *)

(** The number of enemy records whose [alive] flag is cleared: the
    entities that are destroyed or grounded. *)
Fixpoint countDead (es : list Enemy) : nat :=
  match es with
  | [] => O
  | e :: t => ((if e_alive e then 0 else 1) + countDead t)%nat
  end.

(** The flag of the record at index [i] of the enemy vector; a record that
    does not exist yet is [None]. *)
Definition aliveAt (i : nat) (s : State) : option bool := e_alive <$> enemies s !! i.

(** Record [i] was alive in [s] and is cleared in [s']. *)
Definition clearedAt (i : nat) (s s' : State) : bool :=
  match aliveAt i s, aliveAt i s' with
  | Some true, Some false => true
  | _, _ => false
  end.

(** How often the flag of record [i] goes from set to cleared along [tr]. *)
Fixpoint clearings (i : nat) (tr : list State) : nat :=
  match tr with
  | s :: ((s' :: _) as rest) => ((if clearedAt i s s' then 1 else 0) + clearings i rest)%nat
  | _ => O
  end.

(** The loaded launchers. *)
Definition loadedCount (ls : list bool) : nat := length (List.filter (fun b => b) ls).

(** The player controller has consumed a launcher and not yet pushed the
    rocket (between line 386 and line 401). *)
Definition firePending (s : State) : nat :=
  match player s with PlFired => 1%nat | _ => O end.

(** The main loop is over (line 555 reached). *)
Definition loopLeft (s : State) : bool :=
  match controller s with
  | MnExit | MnJoinSpawner | MnJoinReloader | MnJoinPlayer | MnJoinEnemies _ | MnRockets
  | MnJoinRockets _ | MnDone => true
  | _ => false
  end.

(** The sleeps of the reloader along a run: the slot it waits for and the
    delay, in the order they are started. *)
Fixpoint sleptAt (tr : list State) : list (nat * Z) :=
  match tr with
  | [] => []
  | s :: rest =>
      match reloader s with
      | RlSleep i ms => (i, ms) :: sleptAt rest
      | _ => sleptAt rest
      end
  end.

(** The indices of the empty slots of [ls], whose first slot has index
    [i], in ascending order. *)
Fixpoint emptySlotsFrom (i : nat) (ls : list bool) : list nat :=
  match ls with
  | [] => []
  | true :: t => emptySlotsFrom (S i) t
  | false :: t => i :: emptySlotsFrom (S i) t
  end.

(** The transitions of one pass of the reloader's [for] loop over [ls]:
    one for a loaded slot, two for an empty one, one to leave the loop. *)
Fixpoint passLength (ls : list bool) : nat :=
  match ls with
  | [] => 1
  | true :: t => S (passLength t)
  | false :: t => S (S (passLength t))
  end.

(** ** Invariants *)

(** The spawner's loop index, the length of the enemy vector and
    [spawnedEnemies] move together. *)
Definition spawnInv (cfg : Config) (s : State) : Prop :=
  let m := m_enemies (settings cfg) in
  match spawner s with
  | SpLoop i =>
      0 <= i <= m /\ Z.of_nat (length (enemies s)) = i /\ spawnedEnemies s = i
  | SpPushed i _ | SpStarted i =>
      0 <= i < m /\ Z.of_nat (length (enemies s)) = i + 1 /\ spawnedEnemies s = i
  | SpDone =>
      0 <= spawnedEnemies s <= m /\ Z.of_nat (length (enemies s)) = spawnedEnemies s
  end.

(** The two counters account for the cleared records. *)
Definition countInv (s : State) : Prop :=
  0 <= destroyedEnemies s /\ 0 <= groundHits s
  /\ destroyedEnemies s + groundHits s = Z.of_nat (countDead (enemies s)).

(** The result shown on the screen against the place of the main loop. *)
Definition announceInv (s : State) : Prop :=
  match controller s with
  | MnTest | MnLoadDestroyed | MnLoadGround _ | MnSpawnDone _ _ | MnScan _ _ =>
      announced s = [] /\ (gameRunning s = false -> quitSeen s = true)
  | MnStop => exists o, announced s = [o]
  | MnExit | MnJoinSpawner | MnJoinReloader | MnJoinPlayer | MnJoinEnemies _ | MnRockets
  | MnJoinRockets _ | MnDone =>
      (exists o, announced s = [o]) \/ (announced s = [] /\ quitSeen s = true)
  end.

(** The rocket vector against the launchers consumed so far. *)
Definition fireInv (s : State) : Prop :=
  length (rockets s) = launchedCount s
  /\ (launchedCount s + firePending s)%nat = firedCount s.

(** The battery has [k] slots, and until the first launcher is consumed
    they are all loaded and the reloader is outside its [for] loop. *)
Definition batteryInv (cfg : Config) (s : State) : Prop :=
  length (launchers s) = k_launchers_global cfg
  /\ (firedCount s = O ->
      launchers s = replicate (k_launchers_global cfg) true
      /\ match reloader s with RlFor _ | RlSleep _ _ => False | _ => True end).

(** The private copy of every enemy thread still says [alive], and its
    row is above the ground row at the head of the loop. *)
Definition privateOk (cfg : Config) (th : EnemyThread) : Prop :=
  e_alive (et_e th) = true
  /\ 1 <= e_y (et_e th) <= SCREEN_H cfg - 2
  /\ match et_pc th with
     | EnTest | EnMove => e_y (et_e th) < SCREEN_H cfg - 2
     | EnGround | EnDone => True
     end.

Definition privateInv (cfg : Config) (s : State) : Prop :=
  (forall t th, enemyThreads s !! t = Some th -> privateOk cfg th)
  /\ match spawner s with
     | SpPushed _ e => e_alive e = true /\ e_y e = 1
     | _ => True
     end.

Definition Inv (cfg : Config) (s : State) : Prop :=
  spawnInv cfg s /\ countInv s /\ announceInv s /\ fireInv s /\ batteryInv cfg s
  /\ privateInv cfg s.

(** [main] is in its shutdown only after the match was stopped, and past
    a join only with that thread ended: it takes the two list mutexes of
    the cleanup after the spawner, the reloader and the player controller
    have returned. *)
Definition shutdownInv (s : State) : Prop :=
  match controller s with
  | MnJoinSpawner => gameRunning s = false
  | MnJoinReloader => gameRunning s = false /\ spawner s = SpDone
  | MnJoinPlayer => gameRunning s = false /\ spawner s = SpDone /\ reloader s = RlDone
  | MnJoinEnemies _ | MnRockets | MnJoinRockets _ | MnDone =>
      gameRunning s = false /\ spawner s = SpDone /\ reloader s = RlDone
      /\ player s = PlDone
  | _ => True
  end.

(** The values the main loop holds in [destroyed] and [ground] were read
    from the counters earlier in the tick, and past line 527 neither
    threshold test succeeded on them. *)
Definition controllerInv (cfg : Config) (s : State) : Prop :=
  match controller s with
  | MnLoadGround d => d <= destroyedEnemies s
  | MnSpawnDone d g | MnScan d g =>
      thresholdCheck (m_enemies (settings cfg)) d g = None
      /\ d <= destroyedEnemies s /\ g <= groundHits s
  | _ => True
  end.

(** Ids are given in order: the record at index [j] and the private copy
    of enemy thread [j] both have id [j + 1]. *)
Definition idsInOrder (es : list Enemy) : Prop :=
  forall j e, es !! j = Some e -> e_id e = Z.of_nat j + 1.

Definition idInv (s : State) : Prop :=
  idsInOrder (enemies s)
  /\ idsInOrder (et_e <$> enemyThreads s)
  /\ nextEnemyId s = Z.of_nat (length (enemies s)) + 1
  /\ match spawner s with
     | SpPushed _ e =>
         e_id e = Z.of_nat (length (enemies s))
         /\ S (length (enemyThreads s)) = length (enemies s)
     | _ => length (enemyThreads s) = length (enemies s)
     end.

(** ** The effect of a transition on the flags and the counters *)

(** Every element of [l] is still at its index in [l'], with the same
    value of the field [g]. *)
Definition keeps {A B : Type} (g : A -> B) (l l' : list A) : Prop :=
  forall j, is_Some (l !! j) -> g <$> l' !! j = g <$> l !! j.

(** Every record of [es] keeps its flag in [es']. *)
Definition keepsFlags (es es' : list Enemy) : Prop := keeps e_alive es es'.

(** Either no flag and neither counter changes, or exactly one record that
    was alive is cleared, by a rocket thread that adds one to
    [destroyedEnemies] or by an enemy thread that adds one to [groundHits]. *)
Definition stepEffect (a : Action) (s s' : State) : Prop :=
  (keepsFlags (enemies s) (enemies s')
   /\ destroyedEnemies s' = destroyedEnemies s /\ groundHits s' = groundHits s)
  \/ (exists i e t,
        enemies s !! i = Some e /\ e_alive e = true
        /\ enemies s' = <[i := e_set_alive false e]> (enemies s)
        /\ ((a = ARocket t /\ destroyedEnemies s' = destroyedEnemies s + 1
             /\ groundHits s' = groundHits s)
            \/ (a = AEnemy t /\ groundHits s' = groundHits s + 1
                /\ destroyedEnemies s' = destroyedEnemies s))).


(** ** Runs *)

(** The states a schedule goes through, up to the first action that is
    not enabled. *)
Fixpoint states (cfg : Config) (sched : list Action) (s : State) : list State :=
  s :: match sched with
       | [] => []
       | a :: rest =>
           match step cfg a s with
           | Some s' => states cfg rest s'
           | None => []
           end
       end.

(** The state after a schedule; the start state when the schedule blocks. *)
Definition runOr (cfg : Config) (sched : list Action) (s : State) : State :=
  match run cfg sched s with
  | Some s' => s'
  | None => s
  end.

(** ** Concrete matches *)

(** Easy preset on the smallest screen: 20 rows, 60 columns; the ground
    row is 18 and rockets start at (30, 17). *)
Definition cfgEasy : Config := configure 1 20 60.

(** A battery of two launchers (no preset has one), otherwise as easy. *)
Definition cfgTwo : Config := MkConfig (MkSettings 2 12 700 1200 900) 20 60.

(** One key handled by the player controller that fires: the battery
    section, the push of the rocket, the start of its thread. *)
Definition fireKeys : list Action := [APlayer KeyFire; APlayer KeyNone; APlayer KeyNone].

(** One enemy spawned in column [x]: push, thread start, count. *)
Definition spawnAt (x : Z) : list Action := [ASpawner x; ASpawner x; ASpawner x].

(** [n] full loop iterations of enemy thread [t]. *)
Definition descend (t n : nat) : list Action :=
  concat (replicate n [AEnemy t; AEnemy t; AEnemy t]).

(** Two rockets on the cell of one live enemy: the enemy of column 30
    comes down to row 16, two rockets are fired straight up and both have
    moved to (30, 16) but neither has run its collision check. *)
Definition raceSetup : list Action :=
  spawnAt 30 ++ descend 0 15 ++ fireKeys ++ fireKeys
  ++ [ARocket 0; ARocket 0; ARocket 1; ARocket 1].

Definition raceState : State := runOr cfgEasy raceSetup (initState cfgEasy).

(** Both collision checks, in either order. *)
Definition raceSchedule : list Action := raceSetup ++ [ARocket 0; ARocket 1].
Definition raceSchedule' : list Action := raceSetup ++ [ARocket 1; ARocket 0].

(** An enemy of column 29 comes down to row 17 and is shot by a rocket
    fired to the left from (30, 17); the reloader then refills the
    launcher.  [t] is the index of both the enemy and the rocket thread. *)
Definition destroyOne (t : nat) : list Action :=
  spawnAt 29 ++ descend t 16 ++ [APlayer (KeyAim AIM_LEFT)] ++ fireKeys
  ++ replicate 4 (ARocket t) ++ replicate 7 AReload.

(** An enemy of column 2 comes down to the ground row. *)
Definition groundOne (t : nat) : list Action := spawnAt 2 ++ descend t 17.

(** An enemy of column 2 on the ground row, still alive, its thread about
    to run the ground check. *)
Definition groundSetup : list Action := spawnAt 2 ++ descend 0 16 ++ [AEnemy 0; AEnemy 0].
Definition groundState : State := runOr cfgEasy groundSetup (initState cfgEasy).

(** Six of the twelve enemies of the easy match destroyed, the main loop
    at the head of a tick. *)
Definition sixKills : State :=
  runOr cfgEasy (concat (map destroyOne (seq 0 6))) (initState cfgEasy).

(** A match won at the threshold test: six of twelve enemies destroyed,
    then the main loop announces and stops the threads, which all end
    before [main] joins them: the three fixed threads, the six enemy
    threads with [enemyListMutex] held, the six rocket threads with
    [rocketListMutex] held. *)
Definition winMatch : list Action :=
  concat (map destroyOne (seq 0 6))
  ++ replicate 5 AMain
  ++ [ASpawner 0; AReload; APlayer KeyNone] ++ map AEnemy (seq 0 6)
  ++ replicate 18 AMain.

(** Five enemies destroyed, six grounded, the twelfth one on (29, 17) with
    a rocket about to check that cell; spawning is complete.  The main
    loop reads both counters (5 and 6), the rocket then destroys the last
    enemy, and the main loop goes on to line 529. *)
Definition staleSetup : list Action :=
  concat (map destroyOne (seq 0 5)) ++ concat (map groundOne (seq 5 6))
  ++ spawnAt 29 ++ descend 11 16 ++ [ASpawner 0]
  ++ [APlayer (KeyAim AIM_LEFT)] ++ fireKeys ++ [ARocket 5; ARocket 5]
  ++ [AMain; AMain; AMain]
  ++ [ARocket 5]
  ++ [AMain].

Definition staleState : State := runOr cfgEasy staleSetup (initState cfgEasy).

(** Three fires empty the easy battery; the reloader then enters its
    [for] loop. *)
Definition emptyBattery : list Action :=
  fireKeys ++ fireKeys ++ fireKeys ++ [AReload; AReload].
Definition emptyBatteryState : State := runOr cfgEasy emptyBattery (initState cfgEasy).
(** ** The battery *)

(** What a transition may do to the launchers: nothing, or the fire key
    empties one loaded launcher, or the reloader loads one empty one. *)
Definition launcherEffect (a : Action) (ls ls' : list bool) : Prop :=
  ls' = ls
  \/ (exists i, a = APlayer KeyFire /\ ls !! i = Some true /\ ls' = <[i := false]> ls
                /\ S (loadedCount ls') = loadedCount ls)
  \/ (exists i, a = AReload /\ ls !! i = Some false /\ ls' = <[i := true]> ls
                /\ loadedCount ls' = S (loadedCount ls)).

(** The reloader waits on the condition only with a full battery, and has
    ended only after the match was stopped. *)
Definition reloaderInv (s : State) : Prop :=
  match reloader s with
  | RlWait => allFull (launchers s) = true
  | RlDone => gameRunning s = false
  | _ => True
  end.

(** ** The end of spawning *)

(** [spawnDone] is set exactly when the spawner has ended, and it ends
    with all [m] enemies spawned unless the match was stopped. *)
Definition spawnDoneInv (cfg : Config) (s : State) : Prop :=
  match spawner s with
  | SpDone =>
      spawnDone s = true
      /\ (spawnedEnemies s = m_enemies (settings cfg) \/ gameRunning s = false)
  | _ => spawnDone s = false
  end.

(** All twelve enemies of the easy match destroyed one after the other,
    the spawner ended, the main loop not yet run. *)
Definition allDestroyed : list Action :=
  concat (map destroyOne (seq 0 12)) ++ [ASpawner 0].

(** ** A stopped match *)

(** The player quits before anything else happens; the three fixed
    background threads then see the stop. *)
Definition quitAtOnce : list Action :=
  [APlayer KeyQuit; ASpawner 0; AReload; AMain; AMain; AMain].

(** ** Thread progress *)

(** The transitions of enemy thread [t] in a schedule. *)
Definition isEnemyStep (t : nat) (a : Action) : bool :=
  match a with AEnemy t' => Nat.eqb t' t | _ => false end.

Definition enemySteps (t : nat) (sched : list Action) : nat :=
  length (List.filter (isEnemyStep t) sched).

(** The transitions an enemy thread has left at most: three for every row
    between it and the ground row [SCREEN_H - 2]. *)
Definition enemyFuel (cfg : Config) (th : EnemyThread) : nat :=
  let rows := Z.to_nat (SCREEN_H cfg - 2 - e_y (et_e th)) in
  match et_pc th with
  | EnTest => 3 * rows
  | EnMove => 3 * rows - 1
  | EnGround => 3 * rows + 1
  | EnDone => 0
  end.

(** The transitions of rocket thread [t] in a schedule. *)
Definition isRocketStep (t : nat) (a : Action) : bool :=
  match a with ARocket t' => Nat.eqb t' t | _ => false end.

Definition rocketSteps (t : nat) (sched : list Action) : nat :=
  length (List.filter (isRocketStep t) sched).

(** The moves a rocket can make before it is off the screen, counted
    along the axis on which its heading always advances. *)
Definition cellsAhead (cfg : Config) (r : Rocket) : Z :=
  match r_aim r with
  | AIM_UP | AIM_UPLEFT | AIM_UPRIGHT => r_y r
  | AIM_LEFT => r_x r
  | AIM_RIGHT => SCREEN_W cfg - 1 - r_x r
  end.

(** The transitions a rocket thread has left at most. *)
Definition rocketFuel (cfg : Config) (th : RocketThread) : nat :=
  let cells := Z.to_nat (cellsAhead cfg (rt_r th)) in
  match rt_pc th with
  | RkTest => 3 * cells + 1
  | RkMove => 3 * cells
  | RkCollide => 3 * cells + 2
  | RkFinish => 1
  | RkDone => 0
  end.

(** [main] holds the list mutex that the next transition of the thread
    takes. *)
Definition rocketBlocked (s : State) (th : RocketThread) : bool :=
  match rt_pc th with
  | RkMove | RkFinish => rocketListLocked s
  | RkCollide => enemyListLocked s
  | RkTest | RkDone => false
  end.

Definition enemyBlocked (cfg : Config) (s : State) (th : EnemyThread) : bool :=
  match et_pc th with
  | EnMove => enemyListLocked s
  | EnGround => (SCREEN_H cfg - 2 <=? e_y (et_e th)) && enemyListLocked s
  | EnTest | EnDone => false
  end.

(** The private copy of a rocket thread: its step is the one of its
    heading, and it is on the screen whenever it is about to move. *)
Definition rocketOk (cfg : Config) (th : RocketThread) : Prop :=
  (rt_dx th, rt_dy th) = aimToStep (r_aim (rt_r th))
  /\ match rt_pc th with
     | RkTest | RkMove =>
         1 <= r_x (rt_r th) <= SCREEN_W cfg - 2 /\ 1 <= r_y (rt_r th) <= SCREEN_H cfg - 3
     | RkCollide | RkFinish | RkDone =>
         0 <= r_x (rt_r th) <= SCREEN_W cfg - 1 /\ 0 <= r_y (rt_r th) <= SCREEN_H cfg - 3
     end.

Definition rocketInv (cfg : Config) (s : State) : Prop :=
  (forall t th, rocketThreads s !! t = Some th -> rocketOk cfg th)
  /\ match player s with
     | PlPushed rr => r_x rr = Z.quot (SCREEN_W cfg) 2 /\ r_y rr = SCREEN_H cfg - 3
     | _ => True
     end.

(** ** The enemy vector against the threads *)

(** What the vector and the owning thread must agree on: the cell of the
    record and its thread handle. *)
Definition cellOf (e : Enemy) : Z * Z * option nat := (e_x e, e_y e, e_tid e).

(** Record [j] is the record of enemy thread [j]: it is on the cell of the
    thread's private copy, in a column drawn by the spawner, and holds
    the handle [j].  The one record that can be without a thread is the
    last one, while the spawner is between the push and the start of the
    thread; it is still on row 1 and holds no handle. *)
Definition registryOk (cfg : Config) (es : list Enemy) (ths : list EnemyThread)
    (sp : SpawnerPc) : Prop :=
  (forall j e th,
      es !! j = Some e -> ths !! j = Some th ->
      cellOf e = (e_x (et_e th), e_y (et_e th), Some j)
      /\ 2 <= e_x e <= SCREEN_W cfg - 4)
  /\ match sp with
     | SpPushed _ e0 =>
         forall e, es !! length ths = Some e ->
                   cellOf e = (e_x e0, 1, None) /\ e_y e0 = 1
                   /\ 2 <= e_x e0 <= SCREEN_W cfg - 4
     | _ => True
     end.

Definition registryInv (cfg : Config) (s : State) : Prop :=
  registryOk cfg (enemies s) (enemyThreads s) (spawner s).

(** [waitForAllThreadsAndCleanup], lines 432-436: when the loop is at
    record [j] the threads of the records before it have been joined. *)
Definition joinedInv (s : State) : Prop :=
  match controller s with
  | MnJoinEnemies j =>
      (j <= length (enemyThreads s))%nat
      /\ forall i th, (i < j)%nat -> enemyThreads s !! i = Some th -> et_pc th = EnDone
  | _ => True
  end.

(** An enemy is spawned and its thread leaves the loop condition; the
    player quits, the spawner and the reloader end, and [main] joins the
    three fixed threads and takes [enemyListMutex] for the enemy joins
    while the enemy thread is about to update its row. *)
Definition hungSetup : list Action :=
  spawnAt 2 ++ [AEnemy 0] ++ [APlayer KeyQuit; ASpawner 0; AReload] ++ replicate 5 AMain.
Definition hungState : State := runOr cfgEasy hungSetup (initState cfgEasy).

(** [drawScreen], lines 125 and 135: the cells on which a glyph of the
    field is painted. *)
Definition inWindow (cfg : Config) (x y : Z) : bool :=
  (0 <=? y) && (y <? SCREEN_H cfg - 2) && (0 <=? x) && (x <? SCREEN_W cfg - 1).

(** [drawScreen], lines 122-129: the cells (row, column) on which the
    enemy glyph is painted, in order. *)
Definition drawnEnemies (cfg : Config) (es : list Enemy) : list (Z * Z) :=
  map (fun e => (e_y e, e_x e))
      (List.filter (fun e => e_alive e && inWindow cfg (e_x e) (e_y e)) es).

(** ** Rockets and hits *)

(** A rocket thread past its loop: it has hit or left the screen, or the
    match was stopped. *)
Definition rocketEnded (th : RocketThread) : bool :=
  match rt_pc th with RkFinish | RkDone => true | _ => false end.

Definition endedRockets (ths : list RocketThread) : nat :=
  length (List.filter rocketEnded ths).

(** Every destroyed enemy has taken a rocket out of the air, and every
    rocket thread has its record. *)
Definition hitInv (s : State) : Prop :=
  destroyedEnemies s <= Z.of_nat (endedRockets (rocketThreads s))
  /\ (length (rocketThreads s) + match player s with PlPushed _ => 1 | _ => 0 end)%nat
     = length (rockets s).

(** ** The menu *)

(** [main], lines 472-482: the menu reads keys until one decides.
    [choice] starts at 2, so Enter (10) keeps the medium preset; any other
    key is read past.  [None]: the keys ran out and [wgetch] blocks. *)
Fixpoint menuLoop (keys : list Z) : option Z :=
  match keys with
  | [] => None
  | c :: rest =>
      if c =? 49 then Some 1
      else if c =? 50 then Some 2
      else if c =? 51 then Some 3
      else if c =? 10 then Some 2
      else menuLoop rest
  end.

(** The keys the menu acts on. *)
Definition menuKey (c : Z) : bool := (c =? 49) || (c =? 50) || (c =? 51) || (c =? 10).


(** * Proofs *)

(** ** Machine integers *)

Lemma wrap32_id (z : Z) : - 2 ^ 31 <= z < 2 ^ 31 -> wrap32 z = z.
Proof.
  intros Hz. unfold wrap32.
  rewrite Z.mod_small by lia. lia.
Qed.

Lemma valid_cfg_bounds (cfg : Config) :
  valid_cfg cfg = true ->
  12 <= m_enemies (settings cfg) <= 25 /\ 3 <= k_launchers (settings cfg) <= 8
  /\ 20 <= SCREEN_H cfg <= INT_MAX /\ 60 <= SCREEN_W cfg <= INT_MAX.
Proof.
  unfold valid_cfg, settings_eqb, EASY, MEDIUM, HARD. simpl.
  intros H.
  repeat (apply andb_prop in H; destruct H as [H ?]).
  repeat match goal with
         | H : (_ <=? _) = true |- _ => apply Z.leb_le in H
         end.
  repeat split; try assumption.
  all: repeat (apply orb_prop in H; destruct H as [H | H]).
  all: repeat (apply andb_prop in H; destruct H as [H ?]).
  all: repeat match goal with
              | H : (_ =? _) = true |- _ => apply Z.eqb_eq in H
              end; lia.
Qed.

(** ** Loops over the vectors *)

Section UpdFirst.
Context {A : Type} (p : A -> bool) (f : A -> A).

Lemma updFirst_found (l : list A) : (updFirst p f l).1 = existsb p l.
Proof.
  induction l as [|x t IH]; simpl; [reflexivity|].
  destruct (p x); simpl; [reflexivity|].
  destruct (updFirst p f t) as [b t']. simpl in *. exact IH.
Qed.

Lemma updFirst_length (l : list A) : length (updFirst p f l).2 = length l.
Proof.
  induction l as [|x t IH]; simpl; [reflexivity|].
  destruct (p x); simpl; [reflexivity|].
  destruct (updFirst p f t) as [b t']. simpl in *. congruence.
Qed.

Lemma updFirst_none (l : list A) : (updFirst p f l).1 = false -> (updFirst p f l).2 = l.
Proof.
  induction l as [|x t IH]; simpl; [reflexivity|].
  destruct (p x); simpl; [discriminate|].
  destruct (updFirst p f t) as [b t']. simpl in *. intros ->. f_equal. auto.
Qed.

(** The update is an in-place write at the least index that satisfies [p]. *)
Lemma updFirst_some (l : list A) :
  (updFirst p f l).1 = true ->
  exists i x, l !! i = Some x /\ p x = true
              /\ (forall j y, (j < i)%nat -> l !! j = Some y -> p y = false)
              /\ (updFirst p f l).2 = <[i := f x]> l.
Proof.
  induction l as [|x t IH]; simpl; [discriminate|].
  destruct (p x) eqn:Hp; simpl.
  - intros _. exists O, x. repeat split; auto. intros j y Hj. lia.
  - destruct (updFirst p f t) as [b t']. simpl in *. intros Hb.
    destruct (IH Hb) as (i & y & Hl & Hy & Hmin & Heq).
    exists (S i), y. repeat split; auto.
    + intros [|j] z Hj Hz; simpl in Hz.
      * congruence.
      * apply (Hmin j); [lia | assumption].
    + simpl. congruence.
Qed.
End UpdFirst.

Lemma updAll_length {A : Type} (p : A -> bool) (f : A -> A) (l : list A) :
  length (updAll p f l) = length l.
Proof. unfold updAll. apply length_map. Qed.

(** ** Counting cleared records *)

Lemma countDead_le (es : list Enemy) : (countDead es <= length es)%nat.
Proof. induction es as [|e t IH]; simpl; [lia|]. destruct (e_alive e); lia. Qed.

Lemma countDead_app (es es' : list Enemy) :
  countDead (es ++ es') = (countDead es + countDead es')%nat.
Proof. induction es as [|e t IH]; simpl; [reflexivity|]. rewrite IH. lia. Qed.

Lemma countDead_updAll (p : Enemy -> bool) (f : Enemy -> Enemy) (es : list Enemy) :
  (forall e, e_alive (f e) = e_alive e) -> countDead (updAll p f es) = countDead es.
Proof.
  intros Hf. induction es as [|e t IH]; simpl; [reflexivity|].
  rewrite IH. destruct (p e); [rewrite Hf|]; reflexivity.
Qed.

Lemma countDead_updFirst_same (p : Enemy -> bool) (f : Enemy -> Enemy) (es : list Enemy) :
  (forall e, e_alive (f e) = e_alive e) -> countDead (updFirst p f es).2 = countDead es.
Proof.
  intros Hf. induction es as [|e t IH]; simpl; [reflexivity|].
  destruct (p e); simpl; [rewrite Hf; reflexivity|].
  destruct (updFirst p f t) as [b t']. simpl in *. rewrite IH. reflexivity.
Qed.

(** Clearing the first record that satisfies a test that implies [alive]
    adds one cleared record exactly when the test succeeds. *)
Lemma countDead_clear (p : Enemy -> bool) (es : list Enemy) :
  (forall e, p e = true -> e_alive e = true) ->
  countDead (updFirst p (e_set_alive false) es).2
  = (countDead es + (if (updFirst p (e_set_alive false) es).1 then 1 else 0))%nat.
Proof.
  intros Hp. induction es as [|e t IH]; simpl; [reflexivity|].
  destruct (p e) eqn:He; simpl.
  - rewrite (Hp e He). lia.
  - destruct (updFirst p (e_set_alive false) t) as [b t']. simpl in *. rewrite IH. lia.
Qed.

Lemma onCell_alive (x y : Z) (e : Enemy) : onCell x y e = true -> e_alive e = true.
Proof. unfold onCell. destruct (e_alive e); [reflexivity|discriminate]. Qed.

Lemma ownAlive_alive (id : Z) (e : Enemy) : ownAlive id e = true -> e_alive e = true.
Proof. unfold ownAlive. destruct (e_alive e); [reflexivity|]. rewrite andb_false_r. discriminate. Qed.

(** ** Case analysis of a transition *)

Arguments wrap32 : simpl never.
Arguments updFirst : simpl never.
Arguments updAll : simpl never.
Arguments tryFire : simpl never.
Arguments thresholdCheck : simpl never.
Arguments finalCheck : simpl never.
Arguments allFull : simpl never.
Arguments anyAlive : simpl never.
Arguments offscreen : simpl never.
Arguments enemyListLocked : simpl never.
Arguments rocketListLocked : simpl never.
Arguments enemyReturned : simpl never.
Arguments rocketReturned : simpl never.
Arguments countDead : simpl never.
Arguments replicate : simpl never.
Arguments Z.of_nat : simpl never.

(** Destruct what the transition function of [H] branches on. *)
Ltac destruct_in H :=
  repeat match type of H with
         | context [match ?x with _ => _ end] => destruct x eqn:?
         end.

Ltac step_cases H :=
  unfold step, enemySpawnerFn, enemyThreadFn, rocketThreadFn, reloadThreadFn,
    spuriousWakeup, playerControllerFn, mainLoop, setEnemyThread, setRocketThread,
    announce, signalBattery, groundCheck, collisionCheck in H;
  simpl in H; destruct_in H; simplify_eq.

Lemma step_spawnInv cfg a s s' :
  valid_cfg cfg = true -> spawnInv cfg s -> step cfg a s = Some s' -> spawnInv cfg s'.
Proof.
  intros Hc Hs H. apply valid_cfg_bounds in Hc.
  destruct s; destruct a; step_cases H; unfold spawnInv in *; simpl in *.
  all: rewrite ?updFirst_length, ?updAll_length, ?length_app; simpl; try assumption.
  all: try (rewrite ?wrap32_id by lia; lia).
Qed.

Lemma step_countInv cfg a s s' :
  valid_cfg cfg = true -> spawnInv cfg s -> countInv s -> step cfg a s = Some s' ->
  countInv s'.
Proof.
  intros Hc Hs Hn H. apply valid_cfg_bounds in Hc.
  assert (Hlen : Z.of_nat (length (enemies s)) <= m_enemies (settings cfg)).
  { unfold spawnInv in Hs. destruct (spawner s); lia. }
  pose proof (countDead_le (enemies s)) as Hle.
  clear Hs.
  destruct s; destruct a; step_cases H; unfold countInv in *; simpl in *.
  all: rewrite ?countDead_app, ?countDead_updAll, ?countDead_updFirst_same
         by (intros []; reflexivity); try assumption.
  all: try (rewrite (countDead_clear _ _ (onCell_alive _ _)));
       try (rewrite (countDead_clear _ _ (ownAlive_alive _)));
       try match goal with
           | E : (updFirst ?p ?f ?l).1 = _ |- _ => rewrite E
           end.
  all: change (countDead [?e]) with (if e_alive e then 0 else 1)%nat; simpl.
  all: rewrite ?wrap32_id by lia; lia.
Qed.

Lemma step_announceInv cfg a s s' :
  announceInv s -> step cfg a s = Some s' -> announceInv s'.
Proof.
  intros Hs H.
  destruct s; destruct a; step_cases H; unfold announceInv in *; simpl in *.
  all: try assumption.
  all: try (match goal with |- match ?c with _ => _ end => destruct c end;
            intuition congruence).
  all: try (destruct Hs as [-> Hq]; simpl; eauto).
  all: eauto.
Qed.

Lemma step_fireInv cfg a s s' :
  fireInv s -> step cfg a s = Some s' -> fireInv s'.
Proof.
  intros Hs H.
  destruct s; destruct a; step_cases H; unfold fireInv, firePending in *; simpl in *.
  all: rewrite ?updFirst_length, ?updAll_length, ?length_app; simpl; try assumption.
  all: lia.
Qed.

Lemma allFull_replicate (n : nat) : allFull (replicate n true) = true.
Proof. induction n as [|n IH]; [reflexivity|exact IH]. Qed.

Lemma step_batteryInv cfg a s s' :
  batteryInv cfg s -> step cfg a s = Some s' -> batteryInv cfg s'.
Proof.
  intros Hs H.
  destruct s; destruct a; step_cases H; unfold batteryInv in *; simpl in *.
  all: try assumption.
  all: destruct Hs as [Hlen Hfull]; split;
    [ rewrite ?length_insert; try assumption | intros Hz; try discriminate ].
  all: try (unfold tryFire; destruct (firstLoaded _ _ _); simpl; rewrite ?length_insert;
            assumption).
  all: try (destruct (Hfull Hz) as [Hl Hr]; split; [exact Hl | tauto]).
  all: try (destruct (Hfull Hz) as [Hl Hr]; subst; contradiction).
  all: destruct (Hfull Hz) as [Hl Hr]; subst; rewrite allFull_replicate in *; discriminate.
Qed.

Lemma step_privateInv cfg a s s' :
  valid_cfg cfg = true -> privateInv cfg s -> step cfg a s = Some s' -> privateInv cfg s'.
Proof.
  intros Hc [Ht Hp] H. apply valid_cfg_bounds in Hc.
  destruct s; destruct a; step_cases H; unfold privateInv in *; simpl in *.
  all: split; try exact I; try assumption; try (split; reflexivity).
  all: intros t' th' Hl.
  all: try (destruct (decide (t' = t)) as [->|Hne];
            [ rewrite list_lookup_insert_eq in Hl by (eapply lookup_lt_Some; eassumption);
              simplify_eq;
              match goal with
              | E : _ !! _ = Some ?th |- _ =>
                  specialize (Ht _ _ E); unfold privateOk in *; simpl in *
              end
            | rewrite list_lookup_insert_ne in Hl by congruence; eapply Ht; eassumption ]).
  all: try (apply lookup_app_Some in Hl; destruct Hl as [Hl | [_ Hl]];
            [ eapply Ht; eassumption
            | apply list_lookup_singleton_Some in Hl; destruct Hl as [_ <-];
              unfold privateOk; simpl; intuition lia ]).
  all: try match goal with
         | E : et_pc ?th = _ |- _ => rewrite E in Ht
         end.
  all: unfold INT_MAX in *; destruct Ht as (Ha & Hy & Hpc).
  all: rewrite ?wrap32_id by lia; split_and!; try assumption; try exact I; lia.
Qed.

Lemma Inv_init cfg : valid_cfg cfg = true -> Inv cfg (initState cfg).
Proof.
  intros Hc. apply valid_cfg_bounds in Hc.
  unfold Inv, spawnInv, countInv, announceInv, fireInv, batteryInv, privateInv; simpl.
  rewrite length_replicate.
  repeat split; try lia; try discriminate.
Qed.

Lemma Inv_step cfg a s s' :
  valid_cfg cfg = true -> Inv cfg s -> step cfg a s = Some s' -> Inv cfg s'.
Proof.
  intros Hc (H1 & H2 & H3 & H4 & H5 & H6) H.
  unfold Inv. split_and!.
  - eapply step_spawnInv; eassumption.
  - eapply step_countInv; eassumption.
  - eapply step_announceInv; eassumption.
  - eapply step_fireInv; eassumption.
  - eapply step_batteryInv; eassumption.
  - eapply step_privateInv; eassumption.
Qed.

Lemma reachable_Inv cfg s : valid_cfg cfg = true -> reachable cfg s -> Inv cfg s.
Proof.
  intros Hc Hr. induction Hr as [|a s s' _ IH H].
  - apply Inv_init, Hc.
  - eapply Inv_step; eassumption.
Qed.

(** ** Flags and counters *)

Section Keeps.
Context {A B : Type} (g : A -> B).

Lemma keeps_refl (l : list A) : keeps g l l.
Proof. intros j _. reflexivity. Qed.

Lemma keeps_trans (l1 l2 l3 : list A) : keeps g l1 l2 -> keeps g l2 l3 -> keeps g l1 l3.
Proof.
  intros H12 H23 j Hj. rewrite <- (H12 j Hj). apply H23.
  specialize (H12 j Hj). destruct Hj as [x Hx]. rewrite Hx in H12.
  destruct (l2 !! j); [eauto | discriminate].
Qed.

Lemma keeps_app (l l' : list A) : keeps g l (l ++ l').
Proof. intros j [e He]. rewrite (lookup_app_l_Some _ _ _ _ He), He. reflexivity. Qed.

Lemma keeps_updFirst (p : A -> bool) (f : A -> A) (l : list A) :
  (forall x, g (f x) = g x) -> keeps g l (updFirst p f l).2.
Proof.
  intros Hf j _.
  destruct (updFirst p f l).1 eqn:E.
  - destruct (updFirst_some p f l E) as (i & x & Hi & _ & _ & ->).
    destruct (decide (i = j)) as [->|Hne].
    + rewrite list_lookup_insert_eq by (eapply lookup_lt_Some; eassumption).
      rewrite Hi. simpl. f_equal. apply Hf.
    + rewrite list_lookup_insert_ne by assumption. reflexivity.
  - rewrite (updFirst_none p f l E). reflexivity.
Qed.

Lemma keeps_updAll (p : A -> bool) (f : A -> A) (l : list A) :
  (forall x, g (f x) = g x) -> keeps g l (updAll p f l).
Proof.
  intros Hf j _. unfold updAll. rewrite list_lookup_fmap.
  destruct (l !! j) as [e|]; simpl; [|reflexivity].
  destruct (p e); [rewrite Hf|]; reflexivity.
Qed.

Lemma keeps_length (l l' : list A) : keeps g l l' -> (length l <= length l')%nat.
Proof.
  intros Hk. destruct (decide (length l = O)) as [|Hne]; [lia|].
  assert (Hlt : (length l - 1 < length l)%nat) by lia.
  apply lookup_lt_is_Some in Hlt. specialize (Hk _ Hlt).
  destruct Hlt as [x Hx]. rewrite Hx in Hk.
  destruct (l' !! (length l - 1)%nat) eqn:E; [|discriminate].
  apply lookup_lt_Some in E. lia.
Qed.
End Keeps.

Lemma clear_some (p : Enemy -> bool) es :
  (forall e, p e = true -> e_alive e = true) ->
  (updFirst p (e_set_alive false) es).1 = true ->
  exists i e, es !! i = Some e /\ p e = true /\ e_alive e = true
              /\ (forall j y, (j < i)%nat -> es !! j = Some y -> p y = false)
              /\ (updFirst p (e_set_alive false) es).2 = <[i := e_set_alive false e]> es.
Proof.
  intros Hp E. destruct (updFirst_some p _ es E) as (i & x & Hi & Hx & Hmin & Heq).
  exists i, x. repeat split; auto.
Qed.

Lemma step_effect cfg a s s' :
  valid_cfg cfg = true -> Inv cfg s -> step cfg a s = Some s' -> stepEffect a s s'.
Proof.
  intros Hc (Hs & Hn & _) H. apply valid_cfg_bounds in Hc.
  assert (Hlen : Z.of_nat (length (enemies s)) <= m_enemies (settings cfg)).
  { unfold spawnInv in Hs. destruct (spawner s); lia. }
  pose proof (countDead_le (enemies s)) as Hle.
  destruct Hn as (Hd & Hg & Hsum). clear Hs.
  destruct s; destruct a; step_cases H; unfold stepEffect; simpl in *.
  all: try (left; split_and!; try reflexivity;
            first [ apply keeps_refl | apply keeps_app
                  | apply keeps_updFirst; intros []; reflexivity
                  | apply keeps_updAll; intros []; reflexivity ]).
  all: try match goal with
         | E : (updFirst ?p _ ?l).1 = false |- _ =>
             left; rewrite (updFirst_none _ _ _ E); split_and!; try reflexivity;
             apply keeps_refl
         end.
  all: right.
  all: match goal with
       | E : (updFirst (ownAlive ?id) _ ?l).1 = true |- _ =>
           destruct (clear_some _ _ (ownAlive_alive id) E) as (ci & ce & Hi & _ & Ha & _ & ->)
       | E : (updFirst (onCell ?x ?y) _ ?l).1 = true |- _ =>
           destruct (clear_some _ _ (onCell_alive x y) E) as (ci & ce & Hi & _ & Ha & _ & ->)
       end.
  all: exists ci, ce, t; split_and!; try assumption; try reflexivity.
  all: rewrite wrap32_id by lia; eauto.
Qed.

(** ** The list mutexes are free while the match runs *)

Lemma step_shutdownInv cfg a s s' :
  shutdownInv s -> step cfg a s = Some s' -> shutdownInv s'.
Proof.
  intros Hs H.
  destruct s; destruct a; step_cases H; unfold shutdownInv in *; simpl in *.
  all: try assumption.
  all: try (match goal with |- match ?c with _ => _ end => destruct c end;
            intuition congruence).
  all: intuition congruence.
Qed.

Lemma reachable_shutdownInv cfg s : reachable cfg s -> shutdownInv s.
Proof.
  intros Hr. induction Hr as [|a s s' _ IH H]; [exact I|].
  eapply step_shutdownInv; eassumption.
Qed.

Lemma running_unlocked cfg s :
  reachable cfg s -> gameRunning s = true ->
  enemyListLocked s = false /\ rocketListLocked s = false.
Proof.
  intros Hr Hg. pose proof (reachable_shutdownInv _ _ Hr) as Hs.
  unfold shutdownInv, enemyListLocked, rocketListLocked in *.
  destruct (controller s); split; try reflexivity; intuition congruence.
Qed.

(** ** Runs stay reachable *)

Lemma run_reachable cfg sched s s' :
  reachable cfg s -> run cfg sched s = Some s' -> reachable cfg s'.
Proof.
  revert s. induction sched as [|a rest IH]; simpl; intros s Hr H.
  - congruence.
  - destruct (step cfg a s) as [s1|] eqn:E; [|discriminate].
    apply (IH s1); [|exact H]. eapply reachable_step; eassumption.
Qed.

Lemma runOr_reachable cfg sched s : reachable cfg s -> reachable cfg (runOr cfg sched s).
Proof.
  intros Hr. unfold runOr. destruct (run cfg sched s) as [s'|] eqn:E; [|exact Hr].
  eapply run_reachable; eassumption.
Qed.

(** ** A cleared flag stays cleared *)

Lemma stepEffect_dead a s s' i :
  stepEffect a s s' -> aliveAt i s = Some false -> aliveAt i s' = Some false.
Proof.
  unfold aliveAt. intros [(Hk & _) | (ci & e & t & Hi & Ha & Heq & _)] Hd.
  - rewrite Hk; [exact Hd|].
    destruct (enemies s !! i); [eauto | discriminate].
  - rewrite Heq. destruct (decide (ci = i)) as [->|Hne].
    + rewrite Hi in Hd. simpl in Hd. congruence.
    + rewrite list_lookup_insert_ne by assumption. exact Hd.
Qed.

Lemma clearings_dead cfg sched s i :
  valid_cfg cfg = true -> Inv cfg s -> aliveAt i s = Some false ->
  clearings i (states cfg sched s) = O.
Proof.
  intros Hc. revert s. induction sched as [|a rest IH]; intros s Hinv Hd.
  - reflexivity.
  - simpl. destruct (step cfg a s) as [s1|] eqn:E; [|reflexivity].
    assert (Hd1 : aliveAt i s1 = Some false).
    { eapply stepEffect_dead; [eapply step_effect|]; eassumption. }
    specialize (IH s1 (Inv_step _ _ _ _ Hc Hinv E) Hd1).
    destruct rest as [|b rest']; simpl in *.
    + unfold clearedAt. rewrite Hd. reflexivity.
    + unfold clearedAt at 1. rewrite Hd. simpl. exact IH.
Qed.

Lemma clearings_le_1 cfg sched s i :
  valid_cfg cfg = true -> Inv cfg s -> (clearings i (states cfg sched s) <= 1)%nat.
Proof.
  intros Hc. revert s. induction sched as [|a rest IH]; intros s Hinv.
  - simpl. lia.
  - simpl. destruct (step cfg a s) as [s1|] eqn:E; [|simpl; lia].
    pose proof (Inv_step _ _ _ _ Hc Hinv E) as Hinv1.
    specialize (IH s1 Hinv1).
    assert (Hcase : clearedAt i s s1 = true -> clearings i (states cfg rest s1) = O).
    { intros Hcl. apply clearings_dead; [assumption..|].
      unfold clearedAt in Hcl.
      destruct (aliveAt i s) as [[|]|]; try discriminate.
      destruct (aliveAt i s1) as [[|]|]; try discriminate. reflexivity. }
    destruct rest as [|b rest']; simpl in *.
    + destruct (clearedAt i s s1); lia.
    + destruct (clearedAt i s s1); [rewrite Hcase by reflexivity|]; lia.
Qed.

(** ** The two check-and-clear loops *)

Lemma clear_spec (p : Enemy -> bool) (es : list Enemy) :
  (forall e, p e = true -> e_alive e = true) ->
  let r := updFirst p (e_set_alive false) es in
  (r.1 = true ->
   exists i e, es !! i = Some e /\ p e = true /\ e_alive e = true
               /\ (forall j y, (j < i)%nat -> es !! j = Some y -> p y = false)
               /\ r.2 = <[i := e_set_alive false e]> es)
  /\ (r.1 = false -> r.2 = es /\ forall e, e ∈ es -> p e = false).
Proof.
  intros Hp r. split.
  - apply clear_some, Hp.
  - intros E. split; [apply updFirst_none, E|].
    unfold r in E. rewrite updFirst_found in E.
    intros e He. apply list_elem_of_In in He.
    destruct (p e) eqn:Hpe; [|reflexivity].
    assert (existsb p es = true) by (apply existsb_exists; eauto). congruence.
Qed.

(** The list mutexes are held by [main] only; a transition of another
    thread leaves them as they are. *)
Lemma step_locks cfg a s s' :
  step cfg a s = Some s' -> a <> AMain ->
  enemyListLocked s' = enemyListLocked s /\ rocketListLocked s' = rocketListLocked s.
Proof.
  intros H Ha. unfold enemyListLocked, rocketListLocked.
  destruct s; destruct a; try congruence; step_cases H; simpl; split; reflexivity.
Qed.

(** The collision check of rocket thread [t] is the critical section of
    lines 195-204: it waits for [enemyListMutex], and then the vector is
    the one left by the check-and-clear loop and [destroyedEnemies] goes
    up exactly if the loop cleared a flag. *)
Lemma rocket_path cfg (s : State) (t : nat) (th : RocketThread) :
  valid_cfg cfg = true ->
  reachable cfg s ->
  rocketThreads s !! t = Some th -> rt_pc th = RkCollide ->
  let c := collisionCheck (r_x (rt_r th)) (r_y (rt_r th)) (enemies s) in
  (enemyListLocked s = true -> step cfg (ARocket t) s = None)
  /\ (enemyListLocked s = false ->
      exists s1, step cfg (ARocket t) s = Some s1
                 /\ enemies s1 = c.2
                 /\ destroyedEnemies s1 = destroyedEnemies s + (if c.1 then 1 else 0)
                 /\ groundHits s1 = groundHits s
                 /\ rt_pc <$> rocketThreads s1 !! t
                    = Some (if c.1 then RkFinish
                            else if offscreen cfg (r_x (rt_r th)) (r_y (rt_r th))
                                 then RkFinish else RkTest)).
Proof.
  intros Hc Hr Hth Hpc c.
  pose proof (reachable_Inv _ _ Hc Hr) as (Hs & (Hd & Hg & Hsum) & _).
  apply valid_cfg_bounds in Hc.
  assert (Hlen : Z.of_nat (length (enemies s)) <= m_enemies (settings cfg)).
  { unfold spawnInv in Hs. destruct (spawner s); lia. }
  pose proof (countDead_le (enemies s)) as Hle.
  pose proof (lookup_lt_Some _ _ _ Hth) as Hlt.
  unfold step, rocketThreadFn. rewrite Hth, Hpc. fold c.
  split; intros ->; [reflexivity|].
  destruct c.1 eqn:Ec.
  - eexists. split; [reflexivity|]. unfold setRocketThread. simpl.
    rewrite list_lookup_insert_eq by assumption.
    rewrite wrap32_id by lia. split_and!; reflexivity.
  - rewrite Z.add_0_r.
    assert (Hsame : c.2 = enemies s) by (apply updFirst_none, Ec).
    destruct (offscreen cfg _ _); eexists; (split; [reflexivity|]);
      unfold setRocketThread; simpl; rewrite list_lookup_insert_eq by assumption;
      split_and!; try reflexivity; symmetry; exact Hsame.
Qed.

(** The ground check of enemy thread [t] is the critical section of
    lines 256-264: it waits for [enemyListMutex], and then the vector is
    the one left by the check-and-clear loop, [groundHits] goes up
    exactly if the loop cleared a flag, and the thread has ended. *)
Lemma ground_path cfg (s : State) (t : nat) (th : EnemyThread) :
  valid_cfg cfg = true ->
  reachable cfg s ->
  enemyThreads s !! t = Some th -> et_pc th = EnGround ->
  SCREEN_H cfg - 2 <= e_y (et_e th) ->
  let g := groundCheck (e_id (et_e th)) (enemies s) in
  (enemyListLocked s = true -> step cfg (AEnemy t) s = None)
  /\ (enemyListLocked s = false ->
      exists s1, step cfg (AEnemy t) s = Some s1
                 /\ enemies s1 = g.2
                 /\ groundHits s1 = groundHits s + (if g.1 then 1 else 0)
                 /\ destroyedEnemies s1 = destroyedEnemies s
                 /\ et_pc <$> enemyThreads s1 !! t = Some EnDone).
Proof.
  intros Hc Hr Hth Hpc Hy g.
  pose proof (reachable_Inv _ _ Hc Hr) as (Hs & (Hd & Hg & Hsum) & _).
  apply valid_cfg_bounds in Hc.
  assert (Hlen : Z.of_nat (length (enemies s)) <= m_enemies (settings cfg)).
  { unfold spawnInv in Hs. destruct (spawner s); lia. }
  pose proof (countDead_le (enemies s)) as Hle.
  pose proof (lookup_lt_Some _ _ _ Hth) as Hlt.
  apply Z.leb_le in Hy.
  unfold step, enemyThreadFn. rewrite Hth, Hpc, Hy. fold g.
  split; intros ->; [reflexivity|].
  destruct g.1 eqn:Eg; eexists; (split; [reflexivity|]);
    unfold setEnemyThread; simpl; rewrite list_lookup_insert_eq by assumption;
    rewrite ?wrap32_id by lia; split_and!; try reflexivity; lia.
Qed.

(** Two rocket threads about to check the same cell, on which exactly one
    record is alive: the first check clears it and counts, the second
    finds no live record. *)
Lemma race_counts_once cfg (s : State) (t1 t2 : nat) (th1 th2 : RocketThread)
    (i : nat) (e : Enemy) :
  valid_cfg cfg = true ->
  reachable cfg s ->
  enemyListLocked s = false ->
  t1 <> t2 ->
  rocketThreads s !! t1 = Some th1 -> rt_pc th1 = RkCollide ->
  rocketThreads s !! t2 = Some th2 -> rt_pc th2 = RkCollide ->
  r_x (rt_r th2) = r_x (rt_r th1) -> r_y (rt_r th2) = r_y (rt_r th1) ->
  enemies s !! i = Some e ->
  onCell (r_x (rt_r th1)) (r_y (rt_r th1)) e = true ->
  (forall j e', enemies s !! j = Some e' ->
                onCell (r_x (rt_r th1)) (r_y (rt_r th1)) e' = true -> j = i) ->
  exists s2,
    run cfg [ARocket t1; ARocket t2] s = Some s2
    /\ enemies s2 = <[i := e_set_alive false e]> (enemies s)
    /\ destroyedEnemies s2 = destroyedEnemies s + 1
    /\ groundHits s2 = groundHits s
    /\ rt_pc <$> rocketThreads s2 !! t1 = Some RkFinish
    /\ rt_pc <$> rocketThreads s2 !! t2
       = Some (if offscreen cfg (r_x (rt_r th1)) (r_y (rt_r th1)) then RkFinish else RkTest).
Proof.
  intros Hc Hr Hlock Hne Hth1 Hpc1 Hth2 Hpc2 Hx Hy Hi Hon Huniq.
  set (x := r_x (rt_r th1)) in *. set (y := r_y (rt_r th1)) in *.
  (* the first check *)
  assert (Hfound : (collisionCheck x y (enemies s)).1 = true).
  { unfold collisionCheck. rewrite updFirst_found. apply existsb_exists.
    exists e. split; [|exact Hon]. apply list_elem_of_In, list_elem_of_lookup. eauto. }
  destruct (clear_some _ _ (onCell_alive x y) Hfound) as (i' & e' & Hi' & Hon' & _ & _ & Hes1).
  assert (i' = i) as -> by (apply (Huniq i' e'); assumption).
  assert (e' = e) as -> by congruence.
  (* the second check, on the vector left by the first *)
  assert (Hnone : (collisionCheck x y (<[i := e_set_alive false e]> (enemies s))).1 = false).
  { unfold collisionCheck. rewrite updFirst_found.
    destruct (existsb (onCell x y) (<[i := e_set_alive false e]> (enemies s))) eqn:Ex;
      [|reflexivity].
    apply existsb_exists in Ex. destruct Ex as (g & Hg' & Hgon).
    apply list_elem_of_In, list_elem_of_lookup in Hg'. destruct Hg' as [j Hj].
    destruct (decide (i = j)) as [->|Hij].
    - rewrite list_lookup_insert_eq in Hj by (eapply lookup_lt_Some; eassumption).
      injection Hj as <-. unfold onCell in Hgon. simpl in Hgon. discriminate.
    - rewrite list_lookup_insert_ne in Hj by assumption.
      exfalso. apply Hij. symmetry. apply (Huniq j g); assumption. }
  destruct (rocket_path cfg s t1 th1 Hc Hr Hth1 Hpc1) as [_ H1].
  destruct (H1 Hlock) as (s1 & Hstep1 & Hes & Hd1 & Hg1 & Hpc1'). clear H1.
  fold x y in Hes, Hd1, Hpc1'. rewrite Hfound in Hd1, Hpc1'.
  unfold collisionCheck in Hes. rewrite Hes1 in Hes.
  assert (Hr1 : reachable cfg s1) by (eapply reachable_step; eassumption).
  assert (Hlock1 : enemyListLocked s1 = false).
  { rewrite <- Hlock. apply (step_locks _ _ _ _ Hstep1). discriminate. }
  assert (Hth2' : rocketThreads s1 !! t2 = Some th2).
  { unfold step, rocketThreadFn in Hstep1. rewrite Hth1, Hpc1, Hlock in Hstep1.
    destruct_in Hstep1; simplify_eq; unfold setRocketThread; simpl;
      rewrite list_lookup_insert_ne by assumption; exact Hth2. }
  destruct (rocket_path cfg s1 t2 th2 Hc Hr1 Hth2' Hpc2) as [_ H2].
  destruct (H2 Hlock1) as (s2 & Hstep2 & Hes2 & Hd2 & Hg2 & Hpc2'). clear H2.
  rewrite Hx, Hy, Hes in Hes2, Hd2, Hpc2'. rewrite Hnone in Hd2, Hpc2'.
  unfold collisionCheck in Hes2, Hnone. rewrite (updFirst_none _ _ _ Hnone) in Hes2.
  assert (Hpc1'' : rt_pc <$> rocketThreads s2 !! t1 = Some RkFinish).
  { rewrite <- Hpc1'. f_equal.
    unfold step, rocketThreadFn in Hstep2. rewrite Hth2', Hpc2, Hlock1 in Hstep2.
    destruct_in Hstep2; simplify_eq; unfold setRocketThread; simpl;
      rewrite list_lookup_insert_ne by congruence; reflexivity. }
  exists s2. cbn [run]. rewrite Hstep1, Hstep2.
  split_and!; try assumption; try reflexivity; try lia; congruence.
Qed.

(** C1.  The [alive] flag of an enemy record goes from set to cleared at
    most once along any run from a reachable state.  The collision check
    of a rocket thread and the ground check of an enemy thread are
    check-and-clear loops: when they find a record that passes their test
    (which includes [alive]) they clear the flag of the first such record
    and report it, and otherwise they leave the vector as it is.  Both
    paths run their loop under [enemyListMutex]: the transition is blocked
    while the mutex is held, and when it runs the vector is the one left
    by the loop and the counter of the path, [destroyedEnemies] for the
    rocket and [groundHits] for the enemy, goes up by one exactly if the
    loop reported a cleared flag.  No transition clears two flags or
    counts without clearing, and in every reachable state the two
    counters add up to the number of cleared records.  Of two rocket
    threads that are about to check the one cell of a live record, the
    first to run clears it and counts it and the second finds nothing,
    in either order. *)
Theorem C1_alive_cleared_at_most_once (cfg : Config) (s0 s s' : State)
    (sched : list Action) (a : Action) :
  valid_cfg cfg = true ->
  reachable cfg s0 ->
  reachable cfg s ->
  step cfg a s = Some s' ->
  (forall i, (clearings i (states cfg sched s0) <= 1)%nat)
  /\ (forall x y es,
        let r := collisionCheck x y es in
        (r.1 = true ->
         exists i e, es !! i = Some e /\ onCell x y e = true /\ e_alive e = true
                     /\ (forall j y', (j < i)%nat -> es !! j = Some y' -> onCell x y y' = false)
                     /\ r.2 = <[i := e_set_alive false e]> es)
        /\ (r.1 = false -> r.2 = es /\ forall e, e ∈ es -> onCell x y e = false))
  /\ (forall id es,
        let r := groundCheck id es in
        (r.1 = true ->
         exists i e, es !! i = Some e /\ ownAlive id e = true /\ e_alive e = true
                     /\ (forall j y', (j < i)%nat -> es !! j = Some y' -> ownAlive id y' = false)
                     /\ r.2 = <[i := e_set_alive false e]> es)
        /\ (r.1 = false -> r.2 = es /\ forall e, e ∈ es -> ownAlive id e = false))
  /\ (forall t th,
        rocketThreads s !! t = Some th -> rt_pc th = RkCollide ->
        let c := collisionCheck (r_x (rt_r th)) (r_y (rt_r th)) (enemies s) in
        (enemyListLocked s = true -> step cfg (ARocket t) s = None)
        /\ (enemyListLocked s = false ->
            exists s1, step cfg (ARocket t) s = Some s1
                       /\ enemies s1 = c.2
                       /\ destroyedEnemies s1 = destroyedEnemies s + (if c.1 then 1 else 0)
                       /\ groundHits s1 = groundHits s))
  /\ (forall t th,
        enemyThreads s !! t = Some th -> et_pc th = EnGround ->
        SCREEN_H cfg - 2 <= e_y (et_e th) ->
        let g := groundCheck (e_id (et_e th)) (enemies s) in
        (enemyListLocked s = true -> step cfg (AEnemy t) s = None)
        /\ (enemyListLocked s = false ->
            exists s1, step cfg (AEnemy t) s = Some s1
                       /\ enemies s1 = g.2
                       /\ groundHits s1 = groundHits s + (if g.1 then 1 else 0)
                       /\ destroyedEnemies s1 = destroyedEnemies s))
  /\ stepEffect a s s'
  /\ destroyedEnemies s + groundHits s = Z.of_nat (countDead (enemies s))
  /\ (forall t1 t2 th1 th2 i e,
        enemyListLocked s = false ->
        t1 <> t2 ->
        rocketThreads s !! t1 = Some th1 -> rt_pc th1 = RkCollide ->
        rocketThreads s !! t2 = Some th2 -> rt_pc th2 = RkCollide ->
        r_x (rt_r th2) = r_x (rt_r th1) -> r_y (rt_r th2) = r_y (rt_r th1) ->
        enemies s !! i = Some e ->
        onCell (r_x (rt_r th1)) (r_y (rt_r th1)) e = true ->
        (forall j e', enemies s !! j = Some e' ->
                      onCell (r_x (rt_r th1)) (r_y (rt_r th1)) e' = true -> j = i) ->
        exists s2,
          run cfg [ARocket t1; ARocket t2] s = Some s2
          /\ enemies s2 = <[i := e_set_alive false e]> (enemies s)
          /\ destroyedEnemies s2 = destroyedEnemies s + 1
          /\ groundHits s2 = groundHits s
          /\ rt_pc <$> rocketThreads s2 !! t1 = Some RkFinish
          /\ rt_pc <$> rocketThreads s2 !! t2
             = Some (if offscreen cfg (r_x (rt_r th1)) (r_y (rt_r th1))
                     then RkFinish else RkTest)).
Proof.
  intros Hc Hr0 Hr Hstep.
  pose proof (reachable_Inv _ _ Hc Hr0) as Hinv0.
  pose proof (reachable_Inv _ _ Hc Hr) as Hinv.
  split_and!.
  - intros i. apply clearings_le_1; assumption.
  - intros x y es. apply (clear_spec (onCell x y) es), onCell_alive.
  - intros id es. apply (clear_spec (ownAlive id) es), ownAlive_alive.
  - intros t th Hth Hpc c.
    destruct (rocket_path cfg s t th Hc Hr Hth Hpc) as [Hb Hrun].
    split; [exact Hb|]. intros Hl.
    destruct (Hrun Hl) as (s1 & H1 & H2 & H3 & H4 & _). eauto.
  - intros t th Hth Hpc Hy g.
    destruct (ground_path cfg s t th Hc Hr Hth Hpc Hy) as [Hb Hrun].
    split; [exact Hb|]. intros Hl.
    destruct (Hrun Hl) as (s1 & H1 & H2 & H3 & H4 & _). eauto.
  - eapply step_effect; eassumption.
  - destruct Hinv as (_ & (_ & _ & Hsum) & _). exact Hsum.
  - intros t1 t2 th1 th2 i e. apply race_counts_once; assumption.
Qed.

(** Two rockets on the cell of one live enemy: whichever check runs
    first clears the flag and counts, the other finds nothing.  An enemy
    that comes down to the ground row alive is cleared and counted by its
    ground check. *)
Lemma C1_witness :
  (forall i, (clearings i (states cfgEasy raceSchedule (initState cfgEasy)) <= 1)%nat)
  /\ stepEffect (ARocket 0) raceState (runOr cfgEasy [ARocket 0] raceState)
  /\ destroyedEnemies (runOr cfgEasy raceSchedule (initState cfgEasy)) = 1
  /\ destroyedEnemies (runOr cfgEasy raceSchedule' (initState cfgEasy)) = 1
  /\ (exists s1, step cfgEasy (AEnemy 0) groundState = Some s1
                 /\ aliveAt 0 groundState = Some true
                 /\ aliveAt 0 s1 = Some false
                 /\ groundHits s1 = 1).
Proof.
  split_and!.
  - destruct (C1_alive_cleared_at_most_once cfgEasy (initState cfgEasy) raceState
                (runOr cfgEasy [ARocket 0] raceState) raceSchedule (ARocket 0))
      as (H1 & _).
    + reflexivity.
    + apply reachable_init.
    + apply runOr_reachable, reachable_init.
    + vm_compute. reflexivity.
    + exact H1.
  - destruct (C1_alive_cleared_at_most_once cfgEasy (initState cfgEasy) raceState
                (runOr cfgEasy [ARocket 0] raceState) raceSchedule (ARocket 0))
      as (_ & _ & _ & _ & _ & H4 & _).
    + reflexivity.
    + apply reachable_init.
    + apply runOr_reachable, reachable_init.
    + vm_compute. reflexivity.
    + exact H4.
  - vm_compute. reflexivity.
  - vm_compute. reflexivity.
  - destruct (C1_alive_cleared_at_most_once cfgEasy (initState cfgEasy) groundState
                (runOr cfgEasy [AEnemy 0] groundState) [] (AEnemy 0))
      as (_ & _ & _ & _ & Hground & _).
    + reflexivity.
    + apply reachable_init.
    + apply runOr_reachable, reachable_init.
    + vm_compute. reflexivity.
    + destruct (Hground 0%nat (MkEnemyThread (MkEnemy 1 2 18 true None) EnGround))
        as [_ Hrun].
      * vm_compute. reflexivity.
      * reflexivity.
      * vm_compute. discriminate.
      * destruct Hrun as (s1 & Hstep1 & Hes & Hgh & _); [vm_compute; reflexivity|].
        exists s1. unfold aliveAt. rewrite Hes, Hgh.
        split_and!; [exact Hstep1 | vm_compute; reflexivity..].
Defined.

(** ** The values held by the main loop *)

Lemma step_controller_other cfg a s s' :
  step cfg a s = Some s' -> a <> AMain ->
  controller s' = controller s /\ announced s' = announced s.
Proof.
  intros H Ha.
  destruct s; destruct a; try congruence; step_cases H; simpl; split; reflexivity.
Qed.

Lemma stepEffect_mono a s s' :
  stepEffect a s s' ->
  destroyedEnemies s <= destroyedEnemies s' /\ groundHits s <= groundHits s'.
Proof.
  intros [(_ & -> & ->) | (ci & e & t & _ & _ & _ & [(_ & -> & ->) | (_ & -> & ->)])]; lia.
Qed.

Lemma step_controllerInv cfg a s s' :
  valid_cfg cfg = true -> Inv cfg s -> controllerInv cfg s -> step cfg a s = Some s' ->
  controllerInv cfg s'.
Proof.
  intros Hc Hinv Hci H.
  assert (Hother : a <> AMain -> controllerInv cfg s').
  { intros Ha. destruct (step_controller_other _ _ _ _ H Ha) as [Hctl _].
    pose proof (stepEffect_mono _ _ _ (step_effect _ _ _ _ Hc Hinv H)) as [Hd Hg].
    unfold controllerInv in *. rewrite Hctl.
    destruct (controller s); try exact I; intuition lia. }
  destruct a; try (apply Hother; discriminate).
  clear Hinv Hother.
  destruct s; step_cases H; unfold controllerInv in *; simpl in *;
    try exact I; try assumption; try lia.
  all: split_and!; try assumption; try lia; tauto.
Qed.

Lemma reachable_controllerInv cfg s :
  valid_cfg cfg = true -> reachable cfg s -> controllerInv cfg s.
Proof.
  intros Hc Hr. induction Hr as [|a s s' Hr IH H].
  - exact I.
  - eapply step_controllerInv; try eassumption. apply reachable_Inv; assumption.
Qed.

(** Past the threshold tests the second test on [destroyed] cannot
    succeed: the branch after the scan always shows the defeat. *)
Lemma finalCheck_after_thresholds (m d g : Z) :
  thresholdCheck m d g = None -> finalCheck m d = Lose.
Proof.
  unfold thresholdCheck, finalCheck.
  destruct (winThreshold m <=? d); [discriminate | reflexivity].
Qed.

Lemma scan_always_lose cfg s d g s' :
  valid_cfg cfg = true -> reachable cfg s -> controller s = MnScan d g ->
  anyAlive (enemies s) = false -> step cfg AMain s = Some s' ->
  announced s' = [Lose].
Proof.
  intros Hc Hr Hctl Hal H.
  pose proof (reachable_controllerInv _ _ Hc Hr) as Hci.
  pose proof (reachable_Inv _ _ Hc Hr) as (_ & _ & Han & _).
  unfold controllerInv in Hci. unfold announceInv in Han.
  rewrite Hctl in Hci, Han. destruct Hci as (Hth & _). destruct Han as [Han _].
  unfold step, mainLoop in H. rewrite Hctl, Hal in H. simplify_eq.
  unfold announce. simpl. rewrite Han, (finalCheck_after_thresholds _ _ _ Hth). reflexivity.
Qed.

(** ** Thresholds *)

Lemma thresholds_of (m : Z) :
  0 <= m ->
  2 * winThreshold m - 1 <= m <= 2 * winThreshold m
  /\ 2 * loseThreshold m <= m <= 2 * loseThreshold m + 1.
Proof.
  intros Hm. unfold winThreshold, loseThreshold.
  rewrite !Z.quot_div_nonneg by lia.
  pose proof (Z.div_mod (m + 1) 2 ltac:(lia)).
  pose proof (Z.mod_pos_bound (m + 1) 2 ltac:(lia)).
  pose proof (Z.div_mod m 2 ltac:(lia)).
  pose proof (Z.mod_pos_bound m 2 ltac:(lia)).
  lia.
Qed.

(** Both thresholds cannot be met together: the values the main loop
    tests are at most the counters, and the counters add up to at most
    [m]. *)
Lemma thresholds_exclusive cfg s d g :
  valid_cfg cfg = true -> reachable cfg s ->
  d <= destroyedEnemies s -> g <= groundHits s ->
  let m := m_enemies (settings cfg) in
  ~ (winThreshold m <= d /\ loseThreshold m < g).
Proof.
  intros Hc Hr Hd Hg m [Hw Hl].
  pose proof (reachable_Inv _ _ Hc Hr) as (Hs & (_ & _ & Hsum) & _).
  pose proof (valid_cfg_bounds _ Hc) as (Hm & _). fold m in Hm.
  assert (Hlen : Z.of_nat (length (enemies s)) <= m).
  { unfold spawnInv in Hs. fold m in Hs. destruct (spawner s); lia. }
  pose proof (countDead_le (enemies s)) as Hle.
  pose proof (thresholds_of m). lia.
Qed.

(** C2.  A tick of the main loop reads [destroyedEnemies], then
    [groundHits], and tests [destroyed >= (m+1)/2] first on the values it
    read: when that holds the result is the victory whatever [ground] is,
    the defeat is shown only when it fails and [ground > m/2], and
    [(m+1)/2] and [m/2] are the ceiling and the floor of [m/2].  A tick
    that no other thread interrupts decides on the counters as they are
    at its start.  In a reachable state the two thresholds are never met
    together, on the counters or on the values read.  A transition of
    the main loop shows at most one result and then leaves the loop; no
    other thread shows one.  So at most one result is ever shown, never
    both, and a match whose main loop is over without the player having
    quit has shown exactly one. *)
Theorem C2_win_checked_before_lose (cfg : Config) (s : State) :
  valid_cfg cfg = true ->
  reachable cfg s ->
  let m := m_enemies (settings cfg) in
  (forall d g, winThreshold m <= d -> thresholdCheck m d g = Some Win)
  /\ (forall d g, d < winThreshold m -> loseThreshold m < g ->
                  thresholdCheck m d g = Some Lose)
  /\ (forall d g, d < winThreshold m -> g <= loseThreshold m ->
                  thresholdCheck m d g = None)
  /\ (2 * winThreshold m - 1 <= m <= 2 * winThreshold m
      /\ 2 * loseThreshold m <= m <= 2 * loseThreshold m + 1)
  /\ (forall s', step cfg AMain s = Some s' ->
        match controller s with
        | MnTest =>
            announced s' = announced s
            /\ controller s' = (if gameRunning s then MnLoadDestroyed else MnExit)
        | MnLoadDestroyed =>
            announced s' = announced s
            /\ controller s' = MnLoadGround (destroyedEnemies s)
        | MnLoadGround d =>
            match thresholdCheck m d (groundHits s) with
            | Some o => announced s' = announced s ++ [o] /\ controller s' = MnStop
            | None =>
                announced s' = announced s
                /\ controller s' = MnSpawnDone d (groundHits s)
            end
        | MnScan d g =>
            if anyAlive (enemies s) then announced s' = announced s
            else announced s' = announced s ++ [finalCheck m d] /\ controller s' = MnStop
        | _ => announced s' = announced s
        end)
  /\ (controller s = MnTest -> gameRunning s = true ->
      exists s3,
        run cfg [AMain; AMain; AMain] s = Some s3
        /\ match thresholdCheck m (destroyedEnemies s) (groundHits s) with
           | Some o => announced s3 = [o] /\ controller s3 = MnStop
           | None =>
               announced s3 = []
               /\ controller s3 = MnSpawnDone (destroyedEnemies s) (groundHits s)
           end)
  /\ ~ (winThreshold m <= destroyedEnemies s /\ loseThreshold m < groundHits s)
  /\ (forall d, controller s = MnLoadGround d ->
                d <= destroyedEnemies s
                /\ ~ (winThreshold m <= d /\ loseThreshold m < groundHits s))
  /\ (forall a s', step cfg a s = Some s' -> a <> AMain -> announced s' = announced s)
  /\ (length (announced s) <= 1)%nat
  /\ ~ (In Win (announced s) /\ In Lose (announced s))
  /\ (loopLeft s = true -> quitSeen s = false -> exists o, announced s = [o]).
Proof.
  intros Hc Hr m.
  pose proof (valid_cfg_bounds _ Hc) as (Hm & _).
  pose proof (reachable_Inv _ _ Hc Hr) as (_ & _ & Han & _).
  split_and!.
  - intros d g Hd. unfold thresholdCheck.
    destruct (Z.leb_spec (winThreshold m) d); [reflexivity | lia].
  - intros d g Hd Hg. unfold thresholdCheck.
    destruct (Z.leb_spec (winThreshold m) d); [lia|].
    destruct (Z.ltb_spec (loseThreshold m) g); [reflexivity | lia].
  - intros d g Hd Hg. unfold thresholdCheck.
    destruct (Z.leb_spec (winThreshold m) d); [lia|].
    destruct (Z.ltb_spec (loseThreshold m) g); [lia | reflexivity].
  - pose proof (thresholds_of m). fold m in Hm. lia.
  - pose proof (thresholds_of m). fold m in Hm. lia.
  - pose proof (thresholds_of m). fold m in Hm. lia.
  - pose proof (thresholds_of m). fold m in Hm. lia.
  - intros s' H. unfold step, mainLoop in H. fold m in H.
    destruct (controller s); destruct_in H; simplify_eq; simpl; auto.
    unfold signalBattery. simpl. destruct (reloader s); reflexivity.
  - intros Hctl Hg. unfold announceInv in Han. rewrite Hctl in Han.
    destruct Han as [Han _].
    cbn [run]. unfold step at 1. unfold mainLoop at 1. rewrite Hctl, Hg.
    unfold step at 1. unfold mainLoop at 1. simpl controller. cbv iota.
    unfold step at 1. unfold mainLoop at 1. simpl controller. cbv iota.
    simpl destroyedEnemies. simpl groundHits. fold m.
    destruct (thresholdCheck m (destroyedEnemies s) (groundHits s)) as [o|];
      eexists; (split; [reflexivity|]); unfold announce; simpl; rewrite ?Han;
      split; reflexivity.
  - apply (thresholds_exclusive cfg s); try assumption; lia.
  - intros d Hctl.
    pose proof (reachable_controllerInv _ _ Hc Hr) as Hci.
    unfold controllerInv in Hci. rewrite Hctl in Hci.
    split; [exact Hci|]. apply (thresholds_exclusive cfg s); try assumption; lia.
  - intros a s' H Ha. apply (step_controller_other _ _ _ _ H Ha).
  - unfold announceInv in Han.
    destruct (controller s);
      repeat match type of Han with
             | _ \/ _ => destruct Han as [Han | Han]
             | _ /\ _ => destruct Han as [Han _]
             | exists _, _ => destruct Han as [? Han]
             end; rewrite Han; simpl; lia.
  - unfold announceInv in Han. intros [Hw Hl].
    destruct (controller s);
      repeat match type of Han with
             | _ \/ _ => destruct Han as [Han | Han]
             | _ /\ _ => destruct Han as [Han _]
             | exists _, _ => destruct Han as [? Han]
             end; rewrite Han in Hw, Hl; simpl in Hw, Hl; intuition congruence.
  - intros Hl Hq. unfold announceInv in Han. unfold loopLeft in Hl.
    destruct (controller s); try discriminate; destruct Han as [Han | [_ Han]];
      try assumption; congruence.
Qed.

(** The match with six kills out of twelve: the next tick of the main
    loop reads 6 and 0 and shows the victory; run to the last join, one
    result was shown. *)
Lemma C2_witness :
  (exists s3, run cfgEasy [AMain; AMain; AMain] sixKills = Some s3
              /\ announced s3 = [Win] /\ controller s3 = MnStop)
  /\ exists o, announced (runOr cfgEasy winMatch (initState cfgEasy)) = [o].
Proof.
  split.
  - destruct (C2_win_checked_before_lose cfgEasy sixKills)
      as (_ & _ & _ & _ & _ & Htick & _).
    + reflexivity.
    + apply runOr_reachable, reachable_init.
    + destruct Htick as (s3 & Hrun & Hres); [vm_compute; reflexivity..|].
      assert (Hth : thresholdCheck (m_enemies (settings cfgEasy))
                      (destroyedEnemies sixKills) (groundHits sixKills) = Some Win)
        by (vm_compute; reflexivity).
      rewrite Hth in Hres. exists s3. split; [exact Hrun | exact Hres].
  - destruct (C2_win_checked_before_lose cfgEasy
                (runOr cfgEasy winMatch (initState cfgEasy)))
      as (_ & _ & _ & _ & _ & _ & _ & _ & _ & _ & _ & H12).
    + reflexivity.
    + apply runOr_reachable, reachable_init.
    + apply H12; vm_compute; reflexivity.
Defined.

(** C3, on the code.  Easy preset, twelve enemies: five destroyed and six
    grounded when the main loop reads the counters, the last enemy
    destroyed before the main loop scans the vector.  At the scan
    spawning is complete, no enemy is alive and [destroyedEnemies] is 6,
    which is [(12+1)/2]; the main loop tests the 5 it read and shows the
    defeat. *)
Lemma C3_stale_count_declares_lose :
  run cfgEasy staleSetup (initState cfgEasy) = Some staleState
  /\ controller staleState = MnScan 5 6
  /\ spawnDone staleState = true
  /\ anyAlive (enemies staleState) = false
  /\ destroyedEnemies staleState = 6
  /\ groundHits staleState = 6
  /\ winThreshold (m_enemies (settings cfgEasy)) = 6
  /\ exists s', step cfgEasy AMain staleState = Some s'
                /\ announced s' = [Lose] /\ controller s' = MnStop
                /\ destroyedEnemies s' = 6.
Proof.
  split_and!; try (vm_compute; reflexivity).
  exists (runOr cfgEasy [AMain] staleState). split_and!; vm_compute; reflexivity.
Qed.

(** ** Firing *)

Lemma firstLoaded_some (ls : list bool) (from n i : nat) :
  firstLoaded ls from n = Some i ->
  (from <= i < from + n)%nat /\ ls !! i = Some true
  /\ forall j, (from <= j < i)%nat -> ls !! j <> Some true.
Proof.
  revert from. induction n as [|n IH]; simpl; intros from H; [discriminate|].
  destruct (ls !! from) as [[|]|] eqn:E.
  - simplify_eq. split_and!; [lia | lia | assumption | intros j Hj; lia].
  - destruct (IH _ H) as (Hr & Hi & Hmin). split_and!; [lia | lia | assumption |].
    intros j Hj. destruct (decide (j = from)) as [->|]; [congruence | apply Hmin; lia].
  - destruct (IH _ H) as (Hr & Hi & Hmin). split_and!; [lia | lia | assumption |].
    intros j Hj. destruct (decide (j = from)) as [->|]; [congruence | apply Hmin; lia].
Qed.

Lemma firstLoaded_none (ls : list bool) (from n : nat) :
  firstLoaded ls from n = None ->
  forall j, (from <= j < from + n)%nat -> ls !! j <> Some true.
Proof.
  revert from. induction n as [|n IH]; simpl; intros from H j Hj; [lia|].
  destruct (ls !! from) as [[|]|] eqn:E; try discriminate.
  - destruct (decide (j = from)) as [->|]; [congruence | apply (IH _ H); lia].
  - destruct (decide (j = from)) as [->|]; [congruence | apply (IH _ H); lia].
Qed.

(** The scan returns the least loaded index below [k]. *)
Lemma firstLoaded_least (ls : list bool) (k i : nat) :
  (i < k)%nat -> ls !! i = Some true -> (forall j, (j < i)%nat -> ls !! j <> Some true) ->
  firstLoaded ls 0 k = Some i.
Proof.
  intros Hi Hl Hmin. destruct (firstLoaded ls 0 k) as [i'|] eqn:E.
  - destruct (firstLoaded_some _ _ _ _ E) as (Hr & Hl' & Hmin').
    f_equal. destruct (Nat.lt_trichotomy i' i) as [Hlt | [-> | Hgt]]; [|reflexivity|].
    + exfalso. apply (Hmin i'); assumption.
    + exfalso. apply (Hmin' i); [lia | assumption].
  - exfalso. apply (firstLoaded_none _ _ _ E i); [lia | assumption].
Qed.

Lemma firstLoaded_empty (ls : list bool) (k : nat) :
  (forall j, (j < k)%nat -> ls !! j <> Some true) -> firstLoaded ls 0 k = None.
Proof.
  intros Hno. destruct (firstLoaded ls 0 k) as [i|] eqn:E; [|reflexivity].
  destruct (firstLoaded_some _ _ _ _ E) as (Hr & Hl & _).
  exfalso. apply (Hno i); [lia | assumption].
Qed.

(** C4.  A fire key handled by the player controller, with the match
    running and the battery mutex free.  If [i] is the least index of a
    loaded launcher, the three transitions of the handler empty exactly
    launcher [i] and add exactly one rocket record and one rocket thread.
    If no launcher is loaded the handler is one enabled transition that
    changes neither the launchers nor the rockets and is back at the head
    of the loop.  With two launchers, both loaded: two fires empty both,
    and the third finds none, as a scan of the vector and as a run of the
    match with a two-launcher battery. *)
Theorem C4_fire_takes_lowest_loaded (cfg : Config) (s : State) :
  player s = PlLoop ->
  gameRunning s = true ->
  batteryLocked s = false ->
  (forall i, (i < k_launchers_global cfg)%nat -> launchers s !! i = Some true ->
             (forall j, (j < i)%nat -> launchers s !! j <> Some true) ->
     exists s', run cfg fireKeys s = Some s'
                /\ launchers s' = <[i := false]> (launchers s)
                /\ length (rockets s') = S (length (rockets s))
                /\ length (rocketThreads s') = S (length (rocketThreads s))
                /\ firedCount s' = S (firedCount s)
                /\ player s' = PlLoop)
  /\ ((forall j, (j < k_launchers_global cfg)%nat -> launchers s !! j <> Some true) ->
      exists s', step cfg (APlayer KeyFire) s = Some s'
                 /\ launchers s' = launchers s
                 /\ rockets s' = rockets s
                 /\ rocketThreads s' = rocketThreads s
                 /\ firedCount s' = firedCount s
                 /\ player s' = PlLoop)
  /\ (tryFire 2 [true; true] = (Some 0%nat, [false; true])
      /\ tryFire 2 [false; true] = (Some 1%nat, [false; false])
      /\ loadedCount [false; false] = 0%nat
      /\ tryFire 2 [false; false] = (None, [false; false]))
  /\ (exists s2 s3,
        run cfgTwo (fireKeys ++ fireKeys) (initState cfgTwo) = Some s2
        /\ loadedCount (launchers s2) = 0%nat
        /\ length (rockets s2) = 2%nat
        /\ step cfgTwo (APlayer KeyFire) s2 = Some s3
        /\ launchers s3 = launchers s2
        /\ rockets s3 = rockets s2
        /\ player s3 = PlLoop).
Proof.
  intros Hp Hg Hl. split_and!; try reflexivity;
    [| | exists (runOr cfgTwo (fireKeys ++ fireKeys) (initState cfgTwo)),
                (runOr cfgTwo (fireKeys ++ fireKeys ++ [APlayer KeyFire]) (initState cfgTwo));
         split_and!; vm_compute; reflexivity].
  - intros i Hi Hload Hmin.
    pose proof (firstLoaded_least _ _ _ Hi Hload Hmin) as Hf.
    unfold fireKeys, run, step, playerControllerFn.
    rewrite Hp, Hg, Hl. unfold tryFire. rewrite Hf. simpl.
    unfold batteryLocked in Hl. unfold signalBattery. simpl.
    eexists. split; [reflexivity|].
    destruct (reloader s); try discriminate; simpl;
      rewrite updAll_length, !length_app; simpl; split_and!; try reflexivity; lia.
  - intros Hno. pose proof (firstLoaded_empty _ _ Hno) as Hf.
    unfold step, playerControllerFn. rewrite Hp, Hg, Hl. unfold tryFire. rewrite Hf. simpl.
    eexists. split; [reflexivity|].
    unfold signalBattery. destruct (reloader s); simpl; rewrite ?Hp; split_and!; reflexivity.
Qed.

(** The first two fires of the easy match: launcher 0, then launcher 1. *)
Lemma C4_witness :
  (exists s', run cfgEasy fireKeys (initState cfgEasy) = Some s'
              /\ launchers s' = [false; true; true]
              /\ length (rockets s') = 1%nat)
  /\ (exists s', run cfgEasy fireKeys (runOr cfgEasy fireKeys (initState cfgEasy)) = Some s'
                 /\ launchers s' = [false; false; true]
                 /\ length (rockets s') = 2%nat).
Proof.
  split.
  - destruct (C4_fire_takes_lowest_loaded cfgEasy (initState cfgEasy)) as [H _];
      [reflexivity..|].
    destruct (H 0%nat) as (s' & Hrun & Hls & Hrs & _).
    + vm_compute. lia.
    + reflexivity.
    + intros j Hj. lia.
    + exists s'. split_and!; [exact Hrun | exact Hls | exact Hrs].
  - destruct (C4_fire_takes_lowest_loaded cfgEasy
                (runOr cfgEasy fireKeys (initState cfgEasy))) as [H _];
      [reflexivity..|].
    destruct (H 1%nat) as (s' & Hrun & Hls & Hrs & _).
    + vm_compute. lia.
    + reflexivity.
    + intros j Hj. assert (j = 0%nat) as -> by lia. discriminate.
    + exists s'. split_and!; [exact Hrun | exact Hls | exact Hrs].
Defined.

(** ** The collision check of a rocket *)

(** C5, as stated, fails: in the race of two rockets on one cell, once
    rocket 0 has cleared the enemy, the record is still on the cell of
    rocket 1, and the collision check of rocket 1 does not end its
    flight: the thread goes back to the head of its loop. *)
Lemma C5_counterexample :
  ~ (forall s t th s',
       reachable cfgEasy s ->
       rocketThreads s !! t = Some th ->
       rt_pc th = RkCollide ->
       (exists e, e ∈ enemies s /\ e_x e = r_x (rt_r th) /\ e_y e = r_y (rt_r th)) ->
       step cfgEasy (ARocket t) s = Some s' ->
       exists th', rocketThreads s' !! t = Some th' /\ rt_pc th' = RkFinish).
Proof.
  intros H.
  pose (s := runOr cfgEasy [ARocket 0] raceState).
  pose (th := {| rt_r := MkRocket 2 30 16 AIM_UP None true; rt_dx := 0; rt_dy := -1;
                 rt_pc := RkCollide |}).
  destruct (H s 1%nat th (runOr cfgEasy [ARocket 1] s)) as (th' & Hth' & Hpc).
  - apply runOr_reachable, runOr_reachable, reachable_init.
  - vm_compute. reflexivity.
  - reflexivity.
  - exists (MkEnemy 1 30 16 false (Some 0%nat)). split_and!; [|reflexivity..].
    vm_compute. apply list_elem_of_here.
  - vm_compute. reflexivity.
  - vm_compute in Hth'. injection Hth' as <-. discriminate Hpc.
Qed.

Lemma onCell_spec (x y : Z) (e : Enemy) :
  onCell x y e = true <-> e_alive e = true /\ e_x e = x /\ e_y e = y.
Proof.
  unfold onCell. split.
  - intros Hon. apply andb_prop in Hon as [Hon Hy]. apply andb_prop in Hon as [Ha Hx].
    apply Z.eqb_eq in Hx, Hy. auto.
  - intros (-> & -> & ->). rewrite !Z.eqb_refl. reflexivity.
Qed.

(** C5, amended.  The collision check of a rocket, once it has
    [enemyListMutex] (which only the joins of the shutdown keep from it),
    is an enabled transition that leaves the rocket where it is.  It ends
    the flight as a hit exactly when a record that is alive is on the
    rocket's cell, and then the flag of the first such record of the
    vector is cleared, no other record changes, and [destroyedEnemies]
    goes up by one: the kill never fails.  When no live record is on the
    cell (a cleared record there does not count) nothing changes, and the
    rocket ends its flight only if it is off the screen; otherwise it
    flies on. *)
Theorem C5_hit_needs_live_enemy (cfg : Config) (s : State) (t : nat) (th : RocketThread) :
  valid_cfg cfg = true ->
  reachable cfg s ->
  rocketThreads s !! t = Some th ->
  rt_pc th = RkCollide ->
  enemyListLocked s = false ->
  let x := r_x (rt_r th) in
  let y := r_y (rt_r th) in
  exists s' th',
    step cfg (ARocket t) s = Some s'
    /\ rocketThreads s' !! t = Some th'
    /\ rt_r th' = rt_r th
    /\ ((exists e, e ∈ enemies s /\ e_alive e = true /\ e_x e = x /\ e_y e = y) ->
        rt_pc th' = RkFinish
        /\ destroyedEnemies s' = destroyedEnemies s + 1
        /\ exists i e,
             enemies s !! i = Some e
             /\ e_alive e = true /\ e_x e = x /\ e_y e = y
             /\ (forall j e', (j < i)%nat -> enemies s !! j = Some e' ->
                              ~ (e_alive e' = true /\ e_x e' = x /\ e_y e' = y))
             /\ enemies s' = <[i := e_set_alive false e]> (enemies s))
    /\ ((forall e, e ∈ enemies s -> e_alive e = true -> ~ (e_x e = x /\ e_y e = y)) ->
        enemies s' = enemies s
        /\ destroyedEnemies s' = destroyedEnemies s
        /\ rt_pc th' = if offscreen cfg x y then RkFinish else RkTest).
Proof.
  intros Hc Hr Hth Hpc Hlock x y.
  pose proof (reachable_Inv _ _ Hc Hr) as (Hs & (Hd & Hg & Hsum) & _).
  apply valid_cfg_bounds in Hc.
  assert (Hlen : Z.of_nat (length (enemies s)) <= m_enemies (settings cfg)).
  { unfold spawnInv in Hs. destruct (spawner s); lia. }
  pose proof (countDead_le (enemies s)) as Hle.
  pose proof (lookup_lt_Some _ _ _ Hth) as Hlt.
  assert (Hex : existsb (onCell x y) (enemies s) = true <->
                exists e, e ∈ enemies s /\ e_alive e = true /\ e_x e = x /\ e_y e = y).
  { rewrite existsb_exists. split; intros (e & He & Hon); exists e.
    - apply list_elem_of_In in He. apply onCell_spec in Hon. auto.
    - split; [apply list_elem_of_In, He | apply onCell_spec, Hon]. }
  unfold step, rocketThreadFn. rewrite Hth, Hpc, Hlock. fold x y.
  unfold collisionCheck. rewrite updFirst_found.
  destruct (existsb (onCell x y) (enemies s)) eqn:E.
  - eexists. eexists. split; [reflexivity|].
    unfold setRocketThread. simpl. rewrite list_lookup_insert_eq by assumption.
    split_and!; try reflexivity.
    + intros _. simpl. split_and!; [reflexivity | rewrite wrap32_id by lia; reflexivity |].
      assert (Hfound : (updFirst (onCell x y) (e_set_alive false) (enemies s)).1 = true)
        by (rewrite updFirst_found; exact E).
      destruct (clear_some _ _ (onCell_alive x y) Hfound)
        as (ci & ce & Hi & Hon & _ & Hmin & Heq).
      apply onCell_spec in Hon. destruct Hon as (Ha & Hx & Hy).
      exists ci, ce. split_and!; try assumption.
      intros j e' Hj He' Hcell. apply onCell_spec in Hcell.
      rewrite (Hmin j e' Hj He') in Hcell. discriminate.
    + intros Hno. exfalso. destruct (proj1 Hex eq_refl) as (e & He & Ha & Hxy).
      apply (Hno e He Ha Hxy).
  - assert (Hnone : (updFirst (onCell x y) (e_set_alive false) (enemies s)).2 = enemies s).
    { apply updFirst_none. rewrite updFirst_found. exact E. }
    destruct (offscreen cfg x y) eqn:Hoff.
    + eexists. eexists. split; [reflexivity|].
      unfold setRocketThread. simpl. rewrite list_lookup_insert_eq by assumption.
      split_and!; try reflexivity.
      * intros Hsome. apply Hex in Hsome. discriminate.
      * intros _. simpl. split_and!; reflexivity.
    + eexists. eexists. split; [reflexivity|].
      unfold setRocketThread. simpl. rewrite list_lookup_insert_eq by assumption.
      split_and!; try reflexivity.
      * intros Hsome. apply Hex in Hsome. discriminate.
      * intros _. simpl. split_and!; reflexivity.
Qed.

(** Rocket 1 of the race, on (30, 16) with the cleared record: it flies
    on; rocket 0, with the live one: a hit that clears record 0. *)
Lemma C5_witness :
  (exists s' th',
     step cfgEasy (ARocket 1) (runOr cfgEasy [ARocket 0] raceState) = Some s'
     /\ rocketThreads s' !! 1%nat = Some th' /\ rt_pc th' = RkTest
     /\ destroyedEnemies s' = 1)
  /\ (exists s' th',
        step cfgEasy (ARocket 0) raceState = Some s'
        /\ rocketThreads s' !! 0%nat = Some th' /\ rt_pc th' = RkFinish
        /\ destroyedEnemies s' = 1
        /\ aliveAt 0 raceState = Some true /\ aliveAt 0 s' = Some false).
Proof.
  split.
  - destruct (C5_hit_needs_live_enemy cfgEasy (runOr cfgEasy [ARocket 0] raceState) 1%nat
                {| rt_r := MkRocket 2 30 16 AIM_UP None true; rt_dx := 0; rt_dy := -1;
                   rt_pc := RkCollide |})
      as (s' & th' & Hstep & Hth' & _ & _ & Hmiss).
    + reflexivity.
    + apply runOr_reachable, runOr_reachable, reachable_init.
    + vm_compute. reflexivity.
    + reflexivity.
    + reflexivity.
    + exists s', th'. destruct Hmiss as (_ & Hd & Hpc).
      * intros e He Ha. vm_compute in He.
        apply list_elem_of_singleton in He. subst e. discriminate.
      * split_and!; [exact Hstep | exact Hth' | exact Hpc | rewrite Hd; vm_compute; reflexivity].
  - destruct (C5_hit_needs_live_enemy cfgEasy raceState 0%nat
                {| rt_r := MkRocket 1 30 16 AIM_UP None true; rt_dx := 0; rt_dy := -1;
                   rt_pc := RkCollide |})
      as (s' & th' & Hstep & Hth' & _ & Hhit & _).
    + reflexivity.
    + apply runOr_reachable, reachable_init.
    + vm_compute. reflexivity.
    + reflexivity.
    + reflexivity.
    + exists s', th'. destruct Hhit as (Hpc & Hd & Hrec).
      * exists (MkEnemy 1 30 16 true (Some 0%nat)). split_and!; [|reflexivity..].
        vm_compute. apply list_elem_of_here.
      * destruct Hrec as (i & e & Hi & _ & _ & _ & _ & Hes).
        assert (Hen : enemies raceState = [MkEnemy 1 30 16 true (Some 0%nat)])
          by (vm_compute; reflexivity).
        rewrite Hen in Hi, Hes.
        destruct i as [|i]; [|destruct i; discriminate Hi].
        injection Hi as <-.
        split_and!; [exact Hstep | exact Hth' | exact Hpc | rewrite Hd; vm_compute; reflexivity
                    | vm_compute; reflexivity | unfold aliveAt; rewrite Hes; reflexivity].
Defined.

(** ** Counters never go down *)

Lemma step_spawned_mono cfg a s s' :
  valid_cfg cfg = true -> Inv cfg s -> step cfg a s = Some s' ->
  spawnedEnemies s <= spawnedEnemies s'.
Proof.
  intros Hc (Hs & _) H. apply valid_cfg_bounds in Hc.
  destruct s; destruct a; step_cases H; unfold spawnInv in *; simpl in *; try lia.
  rewrite wrap32_id by lia. lia.
Qed.

Lemma run_counters_mono cfg sched s s' :
  valid_cfg cfg = true -> Inv cfg s -> run cfg sched s = Some s' ->
  destroyedEnemies s <= destroyedEnemies s' /\ groundHits s <= groundHits s'
  /\ spawnedEnemies s <= spawnedEnemies s'.
Proof.
  intros Hc. revert s. induction sched as [|a rest IH]; simpl; intros s Hinv H.
  - simplify_eq. lia.
  - destruct (step cfg a s) as [s1|] eqn:E; [|discriminate].
    pose proof (stepEffect_mono _ _ _ (step_effect _ _ _ _ Hc Hinv E)) as [Hd Hg].
    pose proof (step_spawned_mono _ _ _ _ Hc Hinv E) as Hsp.
    specialize (IH s1 (Inv_step _ _ _ _ Hc Hinv E) H). lia.
Qed.

(** C6.  In every reachable state [destroyedEnemies + groundHits] is at
    most [m] and is the number of enemy records whose flag is cleared
    (the entities destroyed or grounded), [spawnedEnemies] is between 0
    and [m], and along any run from there none of the three counters
    goes down. *)
Theorem C6_counters_bounded_monotone (cfg : Config) (s s' : State) (sched : list Action) :
  valid_cfg cfg = true ->
  reachable cfg s ->
  run cfg sched s = Some s' ->
  let m := m_enemies (settings cfg) in
  destroyedEnemies s + groundHits s <= m
  /\ destroyedEnemies s + groundHits s = Z.of_nat (countDead (enemies s))
  /\ 0 <= spawnedEnemies s <= m
  /\ destroyedEnemies s <= destroyedEnemies s'
  /\ groundHits s <= groundHits s'
  /\ spawnedEnemies s <= spawnedEnemies s'.
Proof.
  intros Hc Hr Hrun m.
  pose proof (reachable_Inv _ _ Hc Hr) as Hinv.
  pose proof (run_counters_mono _ _ _ _ Hc Hinv Hrun) as (Hd & Hg & Hsp).
  destruct Hinv as (Hs & (_ & _ & Hsum) & _).
  pose proof (countDead_le (enemies s)) as Hle.
  unfold spawnInv in Hs. fold m in Hs.
  destruct (spawner s); lia.
Qed.

(** The match of the stale read, cut after the fifth kill and run on to
    its end. *)
Lemma C6_witness :
  let s := runOr cfgEasy (concat (map destroyOne (seq 0 5))) (initState cfgEasy) in
  destroyedEnemies s + groundHits s <= 12
  /\ destroyedEnemies s + groundHits s = Z.of_nat (countDead (enemies s))
  /\ 0 <= spawnedEnemies s <= 12
  /\ destroyedEnemies s <= destroyedEnemies staleState
  /\ groundHits s <= groundHits staleState
  /\ spawnedEnemies s <= spawnedEnemies staleState.
Proof.
  intros s.
  apply (C6_counters_bounded_monotone cfgEasy s staleState
           (skipn (length (concat (map destroyOne (seq 0 5)))) staleSetup)).
  - reflexivity.
  - apply runOr_reachable, reachable_init.
  - vm_compute. reflexivity.
Defined.

(** ** The reloader *)

Lemma states_cons cfg a rest s s1 :
  step cfg a s = Some s1 -> states cfg (a :: rest) s = s :: states cfg rest s1.
Proof. intros H. simpl. rewrite H. reflexivity. Qed.

Lemma run_cons cfg a rest s s1 :
  step cfg a s = Some s1 -> run cfg (a :: rest) s = run cfg rest s1.
Proof. intros H. simpl. rewrite H. reflexivity. Qed.

(** One pass of the [for] loop from slot [i], nobody else running: the
    slots before [i] are [pre], the others [suf]. *)
Lemma replicate_S_cons {A : Type} (n : nat) (x : A) :
  replicate (S n) x = x :: replicate n x.
Proof. reflexivity. Qed.

Lemma reload_pass cfg (suf : list bool) :
  forall (pre : list bool) (s : State),
    reloader s = RlFor (length pre) ->
    gameRunning s = true ->
    launchers s = pre ++ suf ->
    length (pre ++ suf) = k_launchers_global cfg ->
    exists s',
      run cfg (replicate (passLength suf) AReload) s = Some s'
      /\ launchers s' = pre ++ replicate (length suf) true
      /\ reloader s' = RlHead
      /\ sleptAt (states cfg (replicate (passLength suf) AReload) s)
         = map (fun i => (i, reload_time_ms (settings cfg)))
               (emptySlotsFrom (length pre) suf).
Proof.
  induction suf as [|b suf IH]; intros pre s Hpc Hg Hls Hk.
  - rewrite app_nil_r in Hk, Hls.
    assert (Hstep : step cfg AReload s = Some (set_reloader RlHead s)).
    { unfold step, reloadThreadFn. rewrite Hpc.
      replace (length pre <? k_launchers_global cfg)%nat with false
        by (symmetry; apply Nat.ltb_ge; lia).
      reflexivity. }
    exists (set_reloader RlHead s). unfold passLength. rewrite !replicate_S_cons.
    rewrite (run_cons _ _ _ _ _ Hstep), (states_cons _ _ _ _ _ Hstep). simpl.
    rewrite Hpc, Hls, app_nil_r. split_and!; reflexivity.
  - assert (Hi : launchers s !! length pre = Some b).
    { rewrite Hls. apply list_lookup_middle. reflexivity. }
    assert (Hlt : (length pre <? k_launchers_global cfg)%nat = true).
    { apply Nat.ltb_lt. rewrite length_app in Hk. simpl in Hk. lia. }
    assert (Hk' : length ((pre ++ [true]) ++ suf) = k_launchers_global cfg).
    { rewrite <- Hk, !length_app. simpl. lia. }
    assert (Hpre : S (length pre) = length (pre ++ [true])).
    { rewrite length_app. simpl. lia. }
    destruct b.
    + (* a loaded slot is passed over *)
      assert (Hstep : step cfg AReload s = Some (set_reloader (RlFor (S (length pre))) s)).
      { unfold step, reloadThreadFn. rewrite Hpc, Hlt, Hg, Hi. reflexivity. }
      destruct (IH (pre ++ [true]) (set_reloader (RlFor (S (length pre))) s))
        as (s' & Hrun & Hls' & Hpc' & Hsl); try assumption.
      * simpl. rewrite Hpre. reflexivity.
      * simpl. rewrite Hls, <- app_assoc. reflexivity.
      * exists s'. unfold passLength; fold passLength.
        rewrite !replicate_S_cons.
        rewrite (run_cons _ _ _ _ _ Hstep), (states_cons _ _ _ _ _ Hstep).
        simpl sleptAt. rewrite Hpc. simpl emptySlotsFrom. rewrite <- Hpre in Hsl.
        split_and!; try assumption.
        rewrite Hls', <- app_assoc. reflexivity.
    + (* an empty slot: sleep with the mutex released, then fill it *)
      set (ms := reload_time_ms (settings cfg)).
      set (s1 := set_reloader (RlSleep (length pre) ms) s).
      set (s2 := set_reloader (RlFor (S (length pre)))
                   (set_launchers (<[length pre := true]> (launchers s1)) s1)).
      assert (Hstep1 : step cfg AReload s = Some s1).
      { unfold step, reloadThreadFn. rewrite Hpc, Hlt, Hg, Hi. reflexivity. }
      assert (Hstep2 : step cfg AReload s1 = Some s2).
      { unfold step, reloadThreadFn. simpl. rewrite Hi. reflexivity. }
      assert (Hls2 : launchers s2 = (pre ++ [true]) ++ suf).
      { simpl. rewrite Hls.
        replace (length pre) with (length pre + 0)%nat by lia.
        rewrite insert_app_r. simpl. rewrite <- app_assoc. reflexivity. }
      destruct (IH (pre ++ [true]) s2) as (s' & Hrun & Hls' & Hpc' & Hsl);
        try assumption.
      * simpl. rewrite Hpre. reflexivity.
      * exists s'. unfold passLength; fold passLength.
        rewrite !replicate_S_cons.
        rewrite (run_cons _ _ _ _ _ Hstep1), (run_cons _ _ _ _ _ Hstep2).
        rewrite (states_cons _ _ _ _ _ Hstep1), (states_cons _ _ _ _ _ Hstep2).
        simpl sleptAt. rewrite Hpc. simpl emptySlotsFrom. rewrite <- Hpre in Hsl.
        split_and!; try assumption.
        -- rewrite Hls', <- app_assoc. reflexivity.
        -- simpl. f_equal. exact Hsl.
Qed.

(** C7.  In the [for] loop of the reloader, with the match running: at
    an empty slot [i] the reloader releases the battery mutex and sleeps
    [reload_time_ms]; after the sleep it takes the mutex again and loads
    slot [i] only if that slot is still empty, leaving the vector as it
    is otherwise, and in both cases goes on with slot [i + 1]; a loaded
    slot is passed over without a sleep.  A whole pass from slot 0 with
    no other thread running sleeps once per empty slot, in ascending
    order of the slots, and ends with every slot loaded. *)
Theorem C7_reload_one_slot_at_a_time (cfg : Config) (s : State) :
  reloader s = RlFor 0 ->
  gameRunning s = true ->
  length (launchers s) = k_launchers_global cfg ->
  (forall s1 i,
      reloader s1 = RlFor i -> gameRunning s1 = true -> (i < k_launchers_global cfg)%nat ->
      batteryLocked s1 = true
      /\ (launchers s1 !! i = Some false ->
          exists s2, step cfg AReload s1 = Some s2
                     /\ reloader s2 = RlSleep i (reload_time_ms (settings cfg))
                     /\ batteryLocked s2 = false
                     /\ launchers s2 = launchers s1)
      /\ (launchers s1 !! i = Some true ->
          exists s2, step cfg AReload s1 = Some s2
                     /\ reloader s2 = RlFor (S i)
                     /\ launchers s2 = launchers s1))
  /\ (forall s1 i ms,
        reloader s1 = RlSleep i ms ->
        exists s2, step cfg AReload s1 = Some s2
                   /\ reloader s2 = RlFor (S i)
                   /\ launchers s2 = match launchers s1 !! i with
                                     | Some false => <[i := true]> (launchers s1)
                                     | _ => launchers s1
                                     end)
  /\ (exists s',
        run cfg (replicate (passLength (launchers s)) AReload) s = Some s'
        /\ launchers s' = replicate (k_launchers_global cfg) true
        /\ reloader s' = RlHead
        /\ sleptAt (states cfg (replicate (passLength (launchers s)) AReload) s)
           = map (fun i => (i, reload_time_ms (settings cfg)))
                 (emptySlotsFrom 0 (launchers s))).
Proof.
  intros Hpc Hg Hk. split_and!.
  - intros s1 i Hpc1 Hg1 Hi. apply Nat.ltb_lt in Hi.
    unfold batteryLocked, step, reloadThreadFn. rewrite Hpc1, Hi, Hg1. simpl.
    split_and!; [reflexivity | |]; intros ->; eexists; (split; [reflexivity|]);
      simpl; split_and!; reflexivity.
  - intros s1 i ms Hpc1. unfold step, reloadThreadFn. rewrite Hpc1.
    destruct (launchers s1 !! i) as [[|]|]; eexists; (split; [reflexivity|]);
      simpl; split_and!; reflexivity.
  - destruct (reload_pass cfg (launchers s) [] s) as (s' & Hrun & Hls & Hpc' & Hsl);
      try assumption; try reflexivity.
    exists s'. simpl in Hls, Hsl. rewrite Hk in Hls. split_and!; assumption.
Qed.

(** The easy battery after three fires: the pass sleeps at slots 0, 1
    and 2, 1200 ms each, and leaves the three launchers loaded. *)
Lemma C7_witness :
  exists s',
    run cfgEasy (replicate 7 AReload) emptyBatteryState = Some s'
    /\ launchers s' = [true; true; true]
    /\ sleptAt (states cfgEasy (replicate 7 AReload) emptyBatteryState)
       = [(0%nat, 1200); (1%nat, 1200); (2%nat, 1200)].
Proof.
  destruct (C7_reload_one_slot_at_a_time cfgEasy emptyBatteryState)
    as (_ & _ & s' & Hrun & Hls & _ & Hsl); [reflexivity..|].
  exists s'. split_and!; [exact Hrun | exact Hls | exact Hsl].
Defined.

(** ** The battery at the start of a match *)

Lemma firstLoaded_replicate (k : nat) :
  (0 < k)%nat -> firstLoaded (replicate k true) 0 k = Some 0%nat.
Proof. destruct k as [|k]; [lia|]. reflexivity. Qed.

(** C8.  [main] fills the vector with [k] loaded launchers, and [k] is at
    least 1.  As long as no fire has consumed a launcher every slot
    below [k] is still loaded and the battery mutex is free, so a fire
    key handled then, with the match running, is an enabled transition
    that chooses launcher 0 and empties it. *)
Theorem C8_first_fire_takes_launcher_0 (cfg : Config) (s : State) :
  valid_cfg cfg = true ->
  reachable cfg s ->
  firedCount s = 0%nat ->
  launchers (initState cfg) = replicate (k_launchers_global cfg) true
  /\ (1 <= k_launchers_global cfg)%nat
  /\ (forall i, (i < k_launchers_global cfg)%nat -> launchers (initState cfg) !! i = Some true)
  /\ (forall i, (i < k_launchers_global cfg)%nat -> launchers s !! i = Some true)
  /\ (player s = PlLoop -> gameRunning s = true ->
      exists s', step cfg (APlayer KeyFire) s = Some s'
                 /\ (tryFire (k_launchers_global cfg) (launchers s)).1 = Some 0%nat
                 /\ launchers s' = <[0%nat := false]> (launchers s)
                 /\ firedCount s' = 1%nat
                 /\ player s' = PlFired).
Proof.
  intros Hc Hr Hz.
  pose proof (reachable_Inv _ _ Hc Hr) as (_ & _ & _ & _ & (Hlen & Hfull) & _).
  destruct (Hfull Hz) as [Hls Hrl].
  apply valid_cfg_bounds in Hc. destruct Hc as (_ & Hk & _).
  assert (Hk1 : (1 <= k_launchers_global cfg)%nat) by (unfold k_launchers_global; lia).
  split_and!; [reflexivity | exact Hk1 | | |].
  - intros i Hi. simpl. apply lookup_replicate_2. exact Hi.
  - intros i Hi. rewrite Hls. apply lookup_replicate_2. exact Hi.
  - intros Hp Hg.
    assert (Hlock : batteryLocked s = false).
    { unfold batteryLocked. destruct (reloader s); try reflexivity; contradiction. }
    unfold step, playerControllerFn. rewrite Hp, Hg, Hlock. unfold tryFire.
    rewrite Hls, (firstLoaded_replicate _ Hk1). simpl.
    eexists. split; [reflexivity|].
    unfold signalBattery. simpl. rewrite Hz.
    destruct (reloader s); simpl; split_and!; reflexivity.
Qed.

(** The first fire of the easy match. *)
Lemma C8_witness :
  launchers (initState cfgEasy) = [true; true; true]
  /\ exists s', step cfgEasy (APlayer KeyFire) (initState cfgEasy) = Some s'
                /\ launchers s' = [false; true; true].
Proof.
  destruct (C8_first_fire_takes_launcher_0 cfgEasy (initState cfgEasy))
    as (Hinit & _ & _ & _ & Hfire).
  - reflexivity.
  - apply reachable_init.
  - reflexivity.
  - split; [exact Hinit|].
    destruct Hfire as (s' & Hstep & _ & Hls & _); [reflexivity..|].
    exists s'. split; [exact Hstep | exact Hls].
Defined.

(** ** Ids are given in order *)

Lemma fmap_lookup_updFirst {A B : Type} (g : A -> B) (p : A -> bool) (f : A -> A)
    (l : list A) (j : nat) :
  (forall x, g (f x) = g x) -> g <$> (updFirst p f l).2 !! j = g <$> l !! j.
Proof.
  intros Hf. destruct (l !! j) as [x|] eqn:E.
  - rewrite <- E. apply keeps_updFirst; [exact Hf | eauto].
  - apply lookup_ge_None in E. rewrite <- (updFirst_length p f) in E.
    apply lookup_ge_None in E. rewrite E. reflexivity.
Qed.

Lemma fmap_lookup_updAll {A B : Type} (g : A -> B) (p : A -> bool) (f : A -> A)
    (l : list A) (j : nat) :
  (forall x, g (f x) = g x) -> g <$> updAll p f l !! j = g <$> l !! j.
Proof.
  intros Hf. unfold updAll. rewrite list_lookup_fmap.
  destruct (l !! j) as [e|]; simpl; [|reflexivity].
  destruct (p e); [rewrite Hf|]; reflexivity.
Qed.

Lemma idsInOrder_same (l l' : list Enemy) :
  (forall j, e_id <$> l' !! j = e_id <$> l !! j) -> idsInOrder l -> idsInOrder l'.
Proof.
  intros Hsame Hl j e' Hj. specialize (Hsame j). rewrite Hj in Hsame. simpl in Hsame.
  destruct (l !! j) as [e|] eqn:E; [|discriminate].
  simpl in Hsame. injection Hsame as ->. apply (Hl j e E).
Qed.

Lemma idsInOrder_snoc (l : list Enemy) (e : Enemy) :
  idsInOrder l -> e_id e = Z.of_nat (length l) + 1 -> idsInOrder (l ++ [e]).
Proof.
  intros Hl He j e' Hj. apply lookup_app_Some in Hj.
  destruct Hj as [Hj | [Hge Hj]]; [apply (Hl j e' Hj)|].
  apply list_lookup_singleton_Some in Hj. destruct Hj as [Hz <-].
  rewrite He. f_equal. lia.
Qed.

Lemma idsInOrder_insert (l : list EnemyThread) (t : nat) (th : EnemyThread) (e : Enemy)
    (pc : EnemyPc) :
  l !! t = Some th -> e_id e = e_id (et_e th) ->
  idsInOrder (et_e <$> l) -> idsInOrder (et_e <$> <[t := MkEnemyThread e pc]> l).
Proof.
  intros Hth He Hl j e' Hj. rewrite list_lookup_fmap in Hj.
  destruct (decide (t = j)) as [->|Hne].
  - rewrite list_lookup_insert_eq in Hj by (eapply lookup_lt_Some; eassumption).
    simpl in Hj. injection Hj as <-. rewrite He. apply (Hl j).
    rewrite list_lookup_fmap, Hth. reflexivity.
  - rewrite list_lookup_insert_ne in Hj by assumption.
    apply (Hl j). rewrite list_lookup_fmap. exact Hj.
Qed.

Lemma step_idInv cfg a s s' :
  valid_cfg cfg = true -> spawnInv cfg s -> idInv s -> step cfg a s = Some s' -> idInv s'.
Proof.
  intros Hc Hs (He & Ht & Hn & Hp) H. apply valid_cfg_bounds in Hc.
  assert (Hlen : Z.of_nat (length (enemies s)) <= m_enemies (settings cfg)).
  { unfold spawnInv in Hs. destruct (spawner s); lia. }
  clear Hs.
  destruct s; destruct a; step_cases H; unfold idInv in *; simpl in *.
  all: rewrite ?updFirst_length, ?updAll_length, ?length_insert, ?length_app; simpl.
  all: split_and!; try assumption.
  all: try match goal with
           | He : idsInOrder ?l |- idsInOrder (updFirst _ _ ?l).2 =>
               apply (idsInOrder_same l);
               [ intros j; apply fmap_lookup_updFirst; intros []; reflexivity | exact He ]
           | He : idsInOrder ?l |- idsInOrder (updAll _ _ ?l) =>
               apply (idsInOrder_same l);
               [ intros j; apply fmap_lookup_updAll; intros []; reflexivity | exact He ]
           end.
  all: try (eapply idsInOrder_insert; [eassumption | reflexivity | assumption]).
  all: try (apply idsInOrder_snoc; [assumption | simpl; lia]).
  all: try (rewrite fmap_app; apply idsInOrder_snoc;
            [assumption | rewrite length_fmap; simpl; lia]).
  all: try (rewrite ?wrap32_id by lia; lia).
Qed.

Lemma idInv_init cfg : idInv (initState cfg).
Proof.
  unfold idInv, idsInOrder. simpl. split_and!; try reflexivity; intros j e Hj; discriminate.
Qed.

Lemma reachable_idInv cfg s : valid_cfg cfg = true -> reachable cfg s -> idInv s.
Proof.
  intros Hc Hr. induction Hr as [|a s s' Hr IH H].
  - apply idInv_init.
  - eapply step_idInv; try eassumption. apply (reachable_Inv _ _ Hc Hr).
Qed.

(** With ids in order, the records that carry the id of thread [t] are
    the record at index [t]. *)
Lemma cleared_record cfg s t th :
  valid_cfg cfg = true -> reachable cfg s ->
  enemyThreads s !! t = Some th -> aliveAt t s = Some false ->
  forall ge, ge ∈ enemies s -> ownAlive (e_id (et_e th)) ge = false.
Proof.
  intros Hc Hr Hth Hdead ge Hge.
  destruct (reachable_idInv _ _ Hc Hr) as (He & Ht & _).
  assert (Hid : e_id (et_e th) = Z.of_nat t + 1).
  { apply (Ht t). rewrite list_lookup_fmap, Hth. reflexivity. }
  apply list_elem_of_lookup in Hge. destruct Hge as [j Hj].
  unfold ownAlive. destruct (Z.eqb_spec (e_id ge) (e_id (et_e th))) as [Heq|]; [|reflexivity].
  rewrite (He j ge Hj), Hid in Heq. assert (j = t) as -> by lia.
  unfold aliveAt in Hdead. rewrite Hj in Hdead. simpl in Hdead.
  injection Hdead as ->. reflexivity.
Qed.

(** ** An enemy thread whose record is cleared *)

Lemma run_app cfg (sched1 sched2 : list Action) (s : State) :
  run cfg (sched1 ++ sched2) s
  = match run cfg sched1 s with
    | Some s1 => run cfg sched2 s1
    | None => None
    end.
Proof.
  revert s. induction sched1 as [|a rest IH]; simpl; intros s; [reflexivity|].
  destruct (step cfg a s); [apply IH | reflexivity].
Qed.

Lemma updFirst_twice {A : Type} (p : A -> bool) (f1 f2 : A -> A) (l : list A) :
  (forall x, p (f1 x) = p x) -> (forall x, f2 (f1 x) = f2 x) ->
  (updFirst p f2 (updFirst p f1 l).2).2 = (updFirst p f2 l).2.
Proof.
  intros Hp Hf. induction l as [|x t IH]; [reflexivity|].
  unfold updFirst; fold (updFirst p f1 t); fold (updFirst p f2 t).
  destruct (p x) eqn:E.
  - simpl. unfold updFirst; fold (updFirst p f2 t). rewrite Hp, E. simpl. rewrite Hf. reflexivity.
  - destruct (updFirst p f1 t) as [b1 t1] eqn:E1. simpl in *.
    unfold updFirst; fold (updFirst p f2 t1); fold (updFirst p f2 t). rewrite E.
    destruct (updFirst p f2 t1) as [b2 t2] eqn:E2.
    destruct (updFirst p f2 t) as [b3 t3] eqn:E3. simpl in *. congruence.
Qed.

Lemma elem_of_updFirst {A : Type} (p : A -> bool) (f : A -> A) (l : list A) (x : A) :
  x ∈ (updFirst p f l).2 -> x ∈ l \/ exists x0, x0 ∈ l /\ x = f x0.
Proof.
  destruct (updFirst p f l).1 eqn:E.
  - destruct (updFirst_some p f l E) as (i & y & Hi & _ & _ & ->).
    intros Hx. apply list_elem_of_lookup in Hx. destruct Hx as [j Hj].
    destruct (decide (i = j)) as [->|Hne].
    + rewrite list_lookup_insert_eq in Hj by (eapply lookup_lt_Some; eassumption).
      simplify_eq. right. exists y. split; [|reflexivity].
      apply list_elem_of_lookup. eauto.
    + rewrite list_lookup_insert_ne in Hj by assumption.
      left. apply list_elem_of_lookup. eauto.
  - rewrite (updFirst_none p f l E). auto.
Qed.

Lemma noneOwnAlive_set_y (id y : Z) (p : Enemy -> bool) (es : list Enemy) :
  (forall ge, ge ∈ es -> ownAlive id ge = false) ->
  forall ge, ge ∈ (updFirst p (e_set_y y) es).2 -> ownAlive id ge = false.
Proof.
  intros Hno ge Hge. apply elem_of_updFirst in Hge.
  destruct Hge as [Hge | (g0 & Hg0 & ->)]; [apply Hno, Hge|].
  specialize (Hno g0 Hg0). destruct g0. exact Hno.
Qed.

Lemma groundCheck_cleared (id : Z) (es : list Enemy) :
  (forall ge, ge ∈ es -> ownAlive id ge = false) -> groundCheck id es = (false, es).
Proof.
  intros Hno. unfold groundCheck.
  assert (E : (updFirst (ownAlive id) (e_set_alive false) es).1 = false).
  { rewrite updFirst_found. destruct (existsb (ownAlive id) es) eqn:Ex; [|reflexivity].
    apply existsb_exists in Ex. destruct Ex as (ge & Hge & Hown).
    apply list_elem_of_In in Hge. rewrite (Hno ge Hge) in Hown. discriminate. }
  pose proof (updFirst_none _ _ _ E) as E2.
  destruct (updFirst (ownAlive id) (e_set_alive false) es). simpl in *. congruence.
Qed.

(** One iteration of the loop of enemy thread [t], started at its head
    with the thread's record already cleared in the vector. *)
Lemma enemy_iteration cfg (s : State) (t : nat) (e : Enemy) :
  SCREEN_H cfg <= INT_MAX ->
  enemyThreads s !! t = Some (MkEnemyThread e EnTest) ->
  gameRunning s = true ->
  enemyListLocked s = false ->
  e_alive e = true ->
  1 <= e_y e < SCREEN_H cfg - 2 ->
  (forall ge, ge ∈ enemies s -> ownAlive (e_id e) ge = false) ->
  exists s1,
    run cfg [AEnemy t; AEnemy t; AEnemy t] s = Some s1
    /\ enemyThreads s1 !! t
       = Some (MkEnemyThread (e_set_y (e_y e + 1) e)
                 (if SCREEN_H cfg - 2 <=? e_y e + 1 then EnDone else EnTest))
    /\ enemies s1
       = (updFirst (fun ge => e_id ge =? e_id e) (e_set_y (e_y e + 1)) (enemies s)).2
    /\ gameRunning s1 = true
    /\ enemyListLocked s1 = false
    /\ groundHits s1 = groundHits s
    /\ destroyedEnemies s1 = destroyedEnemies s.
Proof.
  intros HH Hth Hg Hlock Ha Hy Hno.
  pose proof (lookup_lt_Some _ _ _ Hth) as Hlt.
  assert (Hw : wrap32 (e_y e + 1) = e_y e + 1).
  { apply wrap32_id. unfold INT_MAX in HH. lia. }
  unfold enemyListLocked in Hlock.
  unfold run, step. unfold enemyThreadFn at 1. rewrite Hth. simpl et_pc. simpl et_e.
  rewrite Hg, Ha. simpl andb. cbv iota.
  unfold enemyThreadFn at 1. unfold setEnemyThread at 1. simpl enemyThreads.
  rewrite list_lookup_insert_eq by assumption. simpl et_pc. simpl et_e. cbv iota.
  unfold enemyListLocked at 1. simpl controller. rewrite Hlock.
  rewrite Hw.
  unfold enemyThreadFn at 1. unfold setEnemyThread at 1. simpl enemyThreads.
  rewrite list_lookup_insert_eq by (rewrite length_insert; assumption).
  simpl et_pc. simpl et_e. cbv iota. simpl e_y. simpl e_id.
  destruct (SCREEN_H cfg - 2 <=? e_y e + 1) eqn:Hground.
  - unfold enemyListLocked at 1. simpl controller. rewrite Hlock.
    rewrite groundCheck_cleared by (simpl; apply noneOwnAlive_set_y, Hno).
    eexists. split; [reflexivity|].
    unfold setEnemyThread, enemyListLocked. simpl.
    rewrite list_lookup_insert_eq by (rewrite !length_insert; assumption).
    split_and!; try reflexivity; assumption.
  - eexists. split; [reflexivity|].
    unfold setEnemyThread, enemyListLocked. simpl.
    rewrite list_lookup_insert_eq by (rewrite !length_insert; assumption).
    split_and!; try reflexivity; assumption.
Qed.

Lemma enemy_descends cfg (t k : nat) :
  forall (s : State) (e : Enemy),
    SCREEN_H cfg <= INT_MAX ->
    enemyThreads s !! t = Some (MkEnemyThread e EnTest) ->
    gameRunning s = true ->
    enemyListLocked s = false ->
    e_alive e = true ->
    1 <= e_y e ->
    (forall ge, ge ∈ enemies s -> ownAlive (e_id e) ge = false) ->
    e_y e + Z.of_nat (S k) <= SCREEN_H cfg - 2 ->
    exists sk,
      run cfg (descend t (S k)) s = Some sk
      /\ enemyThreads sk !! t
         = Some (MkEnemyThread (e_set_y (e_y e + Z.of_nat (S k)) e)
                   (if SCREEN_H cfg - 2 <=? e_y e + Z.of_nat (S k) then EnDone else EnTest))
      /\ enemies sk
         = (updFirst (fun ge => e_id ge =? e_id e) (e_set_y (e_y e + Z.of_nat (S k)))
              (enemies s)).2
      /\ groundHits sk = groundHits s
      /\ destroyedEnemies sk = destroyedEnemies s.
Proof.
  induction k as [|k IH]; intros s e HH Hth Hg Hlock Ha Hy Hno Hk.
  - destruct (enemy_iteration cfg s t e) as (s1 & Hrun & Hth1 & Hes1 & _ & _ & Hgh & Hde);
      try assumption; [lia|].
    exists s1. change (descend t 1) with [AEnemy t; AEnemy t; AEnemy t].
    change (Z.of_nat 1) with 1. split_and!; assumption.
  - destruct (enemy_iteration cfg s t e)
      as (s1 & Hrun & Hth1 & Hes1 & Hg1 & Hlock1 & Hgh & Hde);
      try assumption; [lia|].
    replace (SCREEN_H cfg - 2 <=? e_y e + 1) with false in Hth1
      by (symmetry; apply Z.leb_gt; lia).
    destruct (IH s1 (e_set_y (e_y e + 1) e)) as (sk & Hrunk & Hthk & Hesk & Hghk & Hdek);
      try assumption.
    + simpl. lia.
    + rewrite Hes1. simpl e_id. apply noneOwnAlive_set_y, Hno.
    + simpl e_y. lia.
    + exists sk. simpl e_y in *. simpl e_id in *.
      replace (e_y e + 1 + Z.of_nat (S k)) with (e_y e + Z.of_nat (S (S k))) in * by lia.
      split_and!.
      * change (descend t (S (S k)))
          with ([AEnemy t; AEnemy t; AEnemy t] ++ descend t (S k)).
        rewrite run_app, Hrun. exact Hrunk.
      * rewrite Hthk. destruct e; reflexivity.
      * rewrite Hesk, Hes1. apply updFirst_twice; intros []; reflexivity.
      * congruence.
      * congruence.
Qed.

Lemma rocket_keeps_enemy_threads cfg r s s1 :
  step cfg (ARocket r) s = Some s1 -> enemyThreads s1 = enemyThreads s.
Proof.
  intros H. destruct s; step_cases H; reflexivity.
Qed.

(** C9.  The private copy of an enemy thread always says [alive], and no
    transition of a rocket thread touches it.  So enemy thread [t] at the
    head of its loop, with its record (index [t] of the vector) already
    cleared, is above the ground row and, while the match runs, keeps
    going: after [k] iterations, [k] at least 1 and at most the rows left
    to the ground row, its row and the row of its record in the vector
    are [k] lower, neither counter has moved, and the thread has ended
    exactly if that row is the ground row [SCREEN_H - 2]. *)
Theorem C9_killed_enemy_keeps_descending (cfg : Config) (s : State) (t k : nat)
    (e : Enemy) :
  valid_cfg cfg = true ->
  reachable cfg s ->
  enemyThreads s !! t = Some (MkEnemyThread e EnTest) ->
  aliveAt t s = Some false ->
  gameRunning s = true ->
  (1 <= k)%nat ->
  e_y e + Z.of_nat k <= SCREEN_H cfg - 2 ->
  e_alive e = true
  /\ e_y e < SCREEN_H cfg - 2
  /\ (forall r s1, step cfg (ARocket r) s = Some s1 -> enemyThreads s1 = enemyThreads s)
  /\ exists sk,
       run cfg (descend t k) s = Some sk
       /\ enemyThreads sk !! t
          = Some (MkEnemyThread (e_set_y (e_y e + Z.of_nat k) e)
                    (if e_y e + Z.of_nat k =? SCREEN_H cfg - 2 then EnDone else EnTest))
       /\ enemies sk
          = (updFirst (fun ge => e_id ge =? e_id e) (e_set_y (e_y e + Z.of_nat k))
               (enemies s)).2
       /\ groundHits sk = groundHits s
       /\ destroyedEnemies sk = destroyedEnemies s.
Proof.
  intros Hc Hr Hth Hdead Hg Hk1 Hk.
  pose proof (cleared_record _ _ _ _ Hc Hr Hth Hdead) as Hno. simpl in Hno.
  pose proof (running_unlocked _ _ Hr Hg) as [Hlock _].
  pose proof (reachable_Inv _ _ Hc Hr) as (_ & _ & _ & _ & _ & (Hpriv & _)).
  destruct (Hpriv _ _ Hth) as (Ha & Hy & Hpc). simpl in Ha, Hy, Hpc.
  apply valid_cfg_bounds in Hc. destruct Hc as (_ & _ & (_ & HH) & _).
  split_and!;
    [exact Ha | exact Hpc | intros r s1; apply rocket_keeps_enemy_threads |].
  destruct k as [|k]; [lia|].
  destruct (enemy_descends cfg t k s e) as (sk & Hrun & Hthk & Hes & Hgh & Hde);
    try assumption; [lia|].
  exists sk. split_and!; try assumption.
  rewrite Hthk. f_equal. f_equal.
  destruct (Z.leb_spec (SCREEN_H cfg - 2) (e_y e + Z.of_nat (S k)));
    destruct (Z.eqb_spec (e_y e + Z.of_nat (S k)) (SCREEN_H cfg - 2)); try reflexivity; lia.
Qed.

(** The enemy of the race, cleared on row 16 by rocket 0: its thread goes
    down the two rows that are left and ends on the ground row 18 with
    [groundHits] still 0. *)
Lemma C9_witness :
  exists sk,
    run cfgEasy (descend 0 2) (runOr cfgEasy raceSchedule (initState cfgEasy)) = Some sk
    /\ enemyThreads sk !! 0%nat = Some (MkEnemyThread (MkEnemy 1 30 18 true None) EnDone)
    /\ groundHits sk = 0
    /\ destroyedEnemies sk = 1.
Proof.
  destruct (C9_killed_enemy_keeps_descending cfgEasy
              (runOr cfgEasy raceSchedule (initState cfgEasy)) 0 2
              (MkEnemy 1 30 16 true None))
    as (_ & _ & _ & sk & Hrun & Hth & _ & Hgh & Hde).
  - reflexivity.
  - apply runOr_reachable, reachable_init.
  - vm_compute. reflexivity.
  - vm_compute. reflexivity.
  - vm_compute. reflexivity.
  - lia.
  - vm_compute. discriminate.
  - exists sk. split_and!; [exact Hrun | exact Hth | |].
    + rewrite Hgh. vm_compute. reflexivity.
    + rewrite Hde. vm_compute. reflexivity.
Defined.

(** ** The rocket vector *)

Lemma step_keeps_rockets cfg a s s' :
  step cfg a s = Some s' -> keeps r_id (rockets s) (rockets s').
Proof.
  intros H. destruct s; destruct a; step_cases H; simpl.
  all: first [ apply keeps_refl
             | apply keeps_updFirst; intros []; reflexivity
             | apply keeps_updAll; intros []; reflexivity
             | apply keeps_app ].
Qed.

Lemma run_keeps_rockets cfg sched s s' :
  run cfg sched s = Some s' -> keeps r_id (rockets s) (rockets s').
Proof.
  revert s. induction sched as [|a rest IH]; simpl; intros s H.
  - simplify_eq. apply keeps_refl.
  - destruct (step cfg a s) as [s1|] eqn:E; [|discriminate].
    eapply keeps_trans; [eapply step_keeps_rockets; eassumption | apply IH, H].
Qed.

Lemma filter_length_all {A : Type} (f : A -> bool) (l : list A) :
  (length (List.filter f l) <= length l)%nat
  /\ (length (List.filter f l) = length l -> forall x, In x l -> f x = true).
Proof.
  induction l as [|y t [IH1 IH2]]; simpl; [split; [lia | intros _ x []]|].
  destruct (f y) eqn:E; simpl; split; try lia.
  intros Hlen x [<- | Hx]; [exact E | apply IH2; [lia | exact Hx]].
Qed.

(** [removeRocketById] takes the records with the id out of the vector. *)
Lemma removeRocketById_removes (id : Z) (rs : list Rocket) :
  ~ In id (map r_id (removeRocketById id rs)).
Proof.
  unfold removeRocketById. rewrite in_map_iff. intros (r & Hid & Hr).
  apply filter_In in Hr. destruct Hr as [_ Hr].
  apply negb_true_iff, Z.eqb_neq in Hr. congruence.
Qed.

(** C10, as stated, fails between the battery section and the push: after
    the first fire key has been handled up to line 386, one launcher is
    consumed and the rocket vector is still empty. *)
Lemma C10_counterexample :
  ~ (forall s, reachable cfgEasy s -> length (rockets s) = firedCount s).
Proof.
  intros H.
  specialize (H (runOr cfgEasy [APlayer KeyFire] (initState cfgEasy))
                (runOr_reachable _ _ _ (reachable_init _))).
  vm_compute in H. discriminate.
Qed.

(** C10, amended.  Along any run every rocket record stays at its index of the
    vector with its id, so the length of the vector never goes down.  The
    last transition of a rocket thread only clears [active] in the first
    record with its id.  No transition has the effect of
    [removeRocketById] on a vector that holds the id.  The length of the
    vector is the number of rockets launched by fire keys; that number
    is the number of launchers consumed by fire keys, less the one whose
    rocket the player controller has not pushed yet when it is between
    the two (line 386 to line 401). *)
Theorem C10_rockets_never_removed (cfg : Config) (s s' : State) (sched : list Action) :
  valid_cfg cfg = true ->
  reachable cfg s ->
  run cfg sched s = Some s' ->
  keeps r_id (rockets s) (rockets s')
  /\ (length (rockets s) <= length (rockets s'))%nat
  /\ (forall t th s1,
        rocketThreads s !! t = Some th -> rt_pc th = RkFinish ->
        step cfg (ARocket t) s = Some s1 ->
        rockets s1 = (updFirst (fun gr => r_id gr =? r_id (rt_r th)) (r_set_active false)
                        (rockets s)).2
        /\ length (rockets s1) = length (rockets s))
  /\ (forall a s1 id,
        step cfg a s = Some s1 -> rockets s1 = removeRocketById id (rockets s) ->
        ~ In id (map r_id (rockets s)))
  /\ length (rockets s) = launchedCount s
  /\ (launchedCount s + firePending s)%nat = firedCount s.
Proof.
  intros Hc Hr Hrun.
  pose proof (reachable_Inv _ _ Hc Hr) as (_ & _ & _ & (Hlen & Hfired) & _).
  pose proof (run_keeps_rockets _ _ _ _ Hrun) as Hkeep.
  split_and!; try assumption.
  - eapply keeps_length, Hkeep.
  - intros t th s1 Hth Hpc H. unfold step, rocketThreadFn in H. rewrite Hth, Hpc in H.
    destruct (rocketListLocked s); [discriminate|].
    simplify_eq. unfold signalBattery, setRocketThread. simpl.
    destruct (reloader s); simpl; rewrite updFirst_length; split; reflexivity.
  - intros a s1 id H Heq Hin.
    pose proof (keeps_length _ _ _ (step_keeps_rockets _ _ _ _ H)) as Hle.
    rewrite Heq in Hle. unfold removeRocketById in Hle.
    destruct (filter_length_all (fun r => negb (r_id r =? id)) (rockets s)) as [Hle' Hall].
    apply in_map_iff in Hin. destruct Hin as (r & Hid & Hin).
    specialize (Hall ltac:(lia) r Hin).
    apply negb_true_iff, Z.eqb_neq in Hall. congruence.
Qed.

(** The won match from its start to its last join: six rockets were
    launched, all six records are still in the vector. *)
Lemma C10_witness :
  (length (rockets (initState cfgEasy))
   <= length (rockets (runOr cfgEasy winMatch (initState cfgEasy))))%nat
  /\ length (rockets (runOr cfgEasy winMatch (initState cfgEasy))) = 6%nat
  /\ firedCount (runOr cfgEasy winMatch (initState cfgEasy)) = 6%nat.
Proof.
  split.
  - destruct (C10_rockets_never_removed cfgEasy (initState cfgEasy)
                (runOr cfgEasy winMatch (initState cfgEasy)) winMatch)
      as (_ & Hle & _).
    + reflexivity.
    + apply reachable_init.
    + vm_compute. reflexivity.
    + exact Hle.
  - destruct (C10_rockets_never_removed cfgEasy
                (runOr cfgEasy winMatch (initState cfgEasy))
                (runOr cfgEasy winMatch (initState cfgEasy)) [])
      as (_ & _ & _ & _ & Hlen & Hfired).
    + reflexivity.
    + apply runOr_reachable, reachable_init.
    + reflexivity.
    + split.
      * rewrite Hlen. vm_compute. reflexivity.
      * rewrite <- Hfired. vm_compute. reflexivity.
Defined.

(** ** The battery under any schedule *)

Lemma loadedCount_le (ls : list bool) : (loadedCount ls <= length ls)%nat.
Proof.
  unfold loadedCount. induction ls as [|b t IH]; simpl; [lia|].
  destruct b; simpl; lia.
Qed.

Lemma loadedCount_insert (ls : list bool) (i : nat) (b : bool) :
  ls !! i = Some (negb b) ->
  (loadedCount (<[i := b]> ls) + (if b then 0 else 1)
   = loadedCount ls + (if b then 1 else 0))%nat.
Proof.
  unfold loadedCount. revert i. induction ls as [|c t IH]; intros i Hi; [discriminate|].
  destruct i as [|i]; simpl in *.
  - injection Hi as ->. destruct b; simpl; lia.
  - specialize (IH i Hi). destruct c; simpl; lia.
Qed.

Lemma step_launchers cfg a s s' :
  step cfg a s = Some s' -> launcherEffect a (launchers s) (launchers s').
Proof.
  intros H. unfold launcherEffect.
  destruct s; destruct a; step_cases H; simpl; auto.
  (* the reloader loads the slot it slept for *)
  all: try match goal with
           | E : _ !! ?i = Some false |- _ =>
               right; right; exists i; split_and!; auto;
               pose proof (loadedCount_insert _ i true E); simpl in *; lia
           end.
  (* a fire that finds a loaded launcher *)
  all: unfold tryFire in *;
    match goal with
    | E : context [firstLoaded ?ls _ ?k] |- _ =>
        destruct (firstLoaded ls 0 k) as [chosen|] eqn:Hf
    end; simpl in *; try discriminate.
  all: destruct (firstLoaded_some _ _ _ _ Hf) as (_ & Hl & _).
  all: right; left; exists chosen; split_and!; auto.
  all: pose proof (loadedCount_insert _ chosen false Hl); simpl in *; lia.
Qed.

Lemma step_reloaderInv cfg a s s' :
  reloaderInv s -> step cfg a s = Some s' -> reloaderInv s'.
Proof.
  intros Hi H.
  destruct s; destruct a; step_cases H; unfold reloaderInv in *; simpl in *; auto.
  all: match goal with |- match ?r with _ => _ end => destruct r; auto end.
Qed.

Lemma reachable_reloaderInv cfg s : reachable cfg s -> reloaderInv s.
Proof.
  intros Hr. induction Hr as [|a s s' _ IH H]; [exact I|].
  eapply step_reloaderInv; eassumption.
Qed.

Lemma allFull_spec (ls : list bool) :
  allFull ls = true <-> forall i, (i < length ls)%nat -> ls !! i = Some true.
Proof.
  unfold allFull. induction ls as [|b t IH]; simpl.
  - split; [intros _ i Hi; lia | reflexivity].
  - rewrite andb_true_iff, IH. split.
    + intros [-> Ht] [|i] Hi; [reflexivity | apply Ht; lia].
    + intros Hall. split.
      * specialize (Hall O ltac:(lia)). simpl in Hall. congruence.
      * intros i Hi. apply (Hall (S i)). lia.
Qed.

(** X1.  The launcher vector always has exactly [k] slots, so every
    [launchers[i]] with [i < k_launchers_global] is in range, and between
    0 and [k] of them are loaded.  A transition changes at most one slot:
    only the fire key of the player empties a loaded launcher and only
    the reloader loads an empty one, by one each time. *)
Theorem launchers_change_one_slot (cfg : Config) (s s' : State) (a : Action) :
  valid_cfg cfg = true ->
  reachable cfg s ->
  step cfg a s = Some s' ->
  length (launchers s) = k_launchers_global cfg
  /\ (forall i, (i < k_launchers_global cfg)%nat -> is_Some (launchers s !! i))
  /\ (loadedCount (launchers s) <= k_launchers_global cfg)%nat
  /\ launcherEffect a (launchers s) (launchers s').
Proof.
  intros Hc Hr H.
  pose proof (reachable_Inv _ _ Hc Hr) as (_ & _ & _ & _ & (Hlen & _) & _).
  split_and!.
  - exact Hlen.
  - intros i Hi. apply lookup_lt_is_Some. lia.
  - rewrite <- Hlen. apply loadedCount_le.
  - eapply step_launchers, H.
Qed.

Lemma launchers_change_one_slot_witness :
  launcherEffect (APlayer KeyFire) [true; true; true] [false; true; true].
Proof.
  apply (launchers_change_one_slot cfgEasy (initState cfgEasy)
           (runOr cfgEasy [APlayer KeyFire] (initState cfgEasy)) (APlayer KeyFire)).
  - reflexivity.
  - apply reachable_init.
  - vm_compute. reflexivity.
Defined.

(** X2.  The reloader is blocked on [batteryNotFull] only while every
    launcher is loaded; with the match running it has not ended.  So while
    the match runs and a launcher is empty the next transition of the
    reloader is enabled. *)
Theorem reloader_never_sleeps_on_empty (cfg : Config) (s : State) :
  valid_cfg cfg = true ->
  reachable cfg s ->
  (reloader s = RlWait ->
   forall i, (i < k_launchers_global cfg)%nat -> launchers s !! i = Some true)
  /\ (reloader s = RlDone -> gameRunning s = false)
  /\ (gameRunning s = true ->
      (exists i, launchers s !! i = Some false) ->
      exists s', step cfg AReload s = Some s').
Proof.
  intros Hc Hr.
  pose proof (reachable_Inv _ _ Hc Hr) as (_ & _ & _ & _ & (Hlen & _) & _).
  pose proof (reachable_reloaderInv _ _ Hr) as Hrl. unfold reloaderInv in Hrl.
  split_and!.
  - intros Hw i Hi. rewrite Hw in Hrl. apply allFull_spec; [exact Hrl | lia].
  - intros Hd. rewrite Hd in Hrl. exact Hrl.
  - intros Hg [i Hi]. unfold step, reloadThreadFn.
    destruct (reloader s) eqn:E.
    + rewrite Hg. eauto.
    + destruct (allFull (launchers s)); eauto.
    + exfalso. pose proof (proj1 (allFull_spec _) Hrl i (lookup_lt_Some _ _ _ Hi)).
      congruence.
    + destruct ((i0 <? k_launchers_global cfg)%nat && gameRunning s); eauto.
      destruct (launchers s !! i0) as [[|]|]; eauto.
    + destruct (launchers s !! i0) as [[|]|]; eauto.
    + congruence.
Qed.

Lemma reloader_never_sleeps_on_empty_witness :
  exists s', step cfgEasy AReload (runOr cfgEasy fireKeys (initState cfgEasy)) = Some s'.
Proof.
  destruct (reloader_never_sleeps_on_empty cfgEasy (runOr cfgEasy fireKeys (initState cfgEasy)))
    as (_ & _ & H).
  - reflexivity.
  - apply runOr_reachable, reachable_init.
  - apply H; [vm_compute; reflexivity | exists 0%nat; vm_compute; reflexivity].
Defined.

(** ** The end of spawning *)

Lemma step_spawnDoneInv cfg a s s' :
  spawnInv cfg s -> spawnDoneInv cfg s -> step cfg a s = Some s' -> spawnDoneInv cfg s'.
Proof.
  intros Hs Hi H.
  destruct s; destruct a; step_cases H; unfold spawnDoneInv, spawnInv in *; simpl in *;
    auto.
  all: try (split; [reflexivity|];
            match goal with
            | |- _ \/ ?g = false => destruct g; [left; lia | right; reflexivity]
            end).
  all: match goal with |- match ?r with _ => _ end => destruct r; intuition auto end.
Qed.

Lemma reachable_spawnDoneInv cfg s :
  valid_cfg cfg = true -> reachable cfg s -> spawnDoneInv cfg s.
Proof.
  intros Hc Hr. induction Hr as [|a s s' Hr IH H]; [reflexivity|].
  eapply step_spawnDoneInv; try eassumption. apply (reachable_Inv _ _ Hc Hr).
Qed.

Lemma anyAlive_false_countDead (es : list Enemy) :
  anyAlive es = false -> countDead es = length es.
Proof.
  unfold anyAlive. induction es as [|e t IH]; [reflexivity|].
  simpl existsb. intros H. apply orb_false_elim in H as [He Ht].
  change (countDead (e :: t)) with ((if e_alive e then 0 else 1) + countDead t)%nat.
  rewrite He, (IH Ht). reflexivity.
Qed.

(** X3.  Spawning is complete with the match still running only after all
    [m] enemies were spawned.  If then no enemy is alive (and no thread is
    inside a check-and-clear loop), the two counters add up to [m] and the
    threshold tests of the main loop, made on the counters as they are,
    give a result. *)
Theorem spawn_complete_all_spawned (cfg : Config) (s : State) :
  valid_cfg cfg = true ->
  reachable cfg s ->
  spawnDone s = true ->
  gameRunning s = true ->
  let m := m_enemies (settings cfg) in
  spawnedEnemies s = m
  /\ Z.of_nat (length (enemies s)) = m
  /\ (anyAlive (enemies s) = false ->
      destroyedEnemies s + groundHits s = m
      /\ exists o, thresholdCheck m (destroyedEnemies s) (groundHits s) = Some o).
Proof.
  intros Hc Hr Hsd Hg m.
  pose proof (reachable_Inv _ _ Hc Hr) as (Hs & (_ & _ & Hsum) & _).
  pose proof (reachable_spawnDoneInv _ _ Hc Hr) as Hi.
  apply valid_cfg_bounds in Hc. destruct Hc as (Hm & _). fold m in Hm.
  unfold spawnDoneInv, spawnInv in *. fold m in Hs, Hi.
  destruct (spawner s); try congruence.
  destruct Hi as [_ [Hsp | Hst]]; [|congruence].
  split_and!; [exact Hsp | lia |].
  intros Hal. rewrite (anyAlive_false_countDead _ Hal) in Hsum.
  split; [lia|].
  pose proof (thresholds_of m ltac:(lia)) as (Hw & Hl).
  unfold thresholdCheck.
  destruct (Z.leb_spec (winThreshold m) (destroyedEnemies s)); [eauto|].
  destruct (Z.ltb_spec (loseThreshold m) (groundHits s)); [eauto | lia].
Qed.

(** Twelve enemies destroyed before the main loop reads the counters. *)
Lemma spawn_complete_all_spawned_witness :
  let s := runOr cfgEasy allDestroyed (initState cfgEasy) in
  spawnedEnemies s = 12
  /\ exists o, thresholdCheck 12 (destroyedEnemies s) (groundHits s) = Some o.
Proof.
  intros s.
  destruct (spawn_complete_all_spawned cfgEasy s) as (H1 & _ & H3).
  - reflexivity.
  - apply runOr_reachable, reachable_init.
  - vm_compute. reflexivity.
  - vm_compute. reflexivity.
  - split; [exact H1|]. apply H3. vm_compute. reflexivity.
Defined.

(** ** A stopped match stays stopped *)

Lemma step_stopped cfg a s s' :
  step cfg a s = Some s' ->
  (gameRunning s' = true -> gameRunning s = true)
  /\ (spawnDone s = true -> spawnDone s' = true).
Proof.
  intros H.
  destruct s; destruct a; step_cases H; simpl; split; auto; discriminate.
Qed.

(** X4.  No thread ever sets [gameRunning] again once it is cleared, and
    none clears [spawnDone] once it is set: along any run a stopped match
    stays stopped and a completed spawn stays completed. *)
Theorem stopped_match_stays_stopped (cfg : Config) (s s' : State) (sched : list Action) :
  run cfg sched s = Some s' ->
  (gameRunning s' = true -> gameRunning s = true)
  /\ (spawnDone s = true -> spawnDone s' = true).
Proof.
  revert s. induction sched as [|a rest IH]; simpl; intros s H.
  - simplify_eq. auto.
  - destruct (step cfg a s) as [s1|] eqn:E; [|discriminate].
    destruct (step_stopped _ _ _ _ E) as (H1 & H2).
    destruct (IH _ H) as (H1' & H2').
    split; auto.
Qed.

(** The easy match quit at once, then run by the threads that are left:
    the match is still stopped. *)
Lemma stopped_match_stays_stopped_witness :
  gameRunning (runOr cfgEasy quitAtOnce (initState cfgEasy)) = false.
Proof.
  destruct (stopped_match_stays_stopped cfgEasy
              (runOr cfgEasy [APlayer KeyQuit] (initState cfgEasy))
              (runOr cfgEasy quitAtOnce (initState cfgEasy))
              (skipn 1 quitAtOnce)) as (H1 & _).
  - vm_compute. reflexivity.
  - destruct (gameRunning (runOr cfgEasy quitAtOnce (initState cfgEasy))) eqn:E;
      [|reflexivity].
    specialize (H1 eq_refl). vm_compute in H1. discriminate.
Defined.

(** ** Rocket and enemy threads end *)

Lemma step_rocketInv cfg a s s' :
  valid_cfg cfg = true -> rocketInv cfg s -> step cfg a s = Some s' -> rocketInv cfg s'.
Proof.
  intros Hc [Ht Hp] H. apply valid_cfg_bounds in Hc.
  destruct Hc as (_ & _ & (HH & HH') & (HW & HW')). unfold INT_MAX in *.
  destruct s; destruct a; step_cases H; unfold rocketInv in *; simpl in *.
  all: split; try exact I; try assumption; try (split; reflexivity).
  all: intros t' th' Hl.
  all: try (eapply Ht; eassumption).
  all: try (apply lookup_app_Some in Hl; destruct Hl as [Hl | [_ Hl]];
            [ eapply Ht; eassumption
            | apply list_lookup_singleton_Some in Hl; destruct Hl as [_ <-];
              unfold rocketOk; simpl; destruct Hp as [-> ->];
              split; [match goal with |- context [aimToStep ?a] => destruct (aimToStep a) end;
                     reflexivity|];
              rewrite Z.quot_div_nonneg by lia;
              pose proof (Z.div_mod (SCREEN_W cfg) 2 ltac:(lia));
              pose proof (Z.mod_pos_bound (SCREEN_W cfg) 2 ltac:(lia)); lia ]).
  all: destruct (decide (t' = t)) as [->|Hne];
    [ rewrite list_lookup_insert_eq in Hl by (eapply lookup_lt_Some; eassumption);
      simplify_eq;
      match goal with
      | E : _ !! _ = Some ?th |- _ => specialize (Ht _ _ E); unfold rocketOk in *; simpl in *
      end
    | rewrite list_lookup_insert_ne in Hl by congruence; eapply Ht; eassumption ].
  all: match goal with E : rt_pc ?th = _ |- _ => rewrite E in Ht end.
  all: destruct Ht as (Hd & Hx & Hy); split; [exact Hd|].
  all: try lia.
  - (* the move *)
    match type of Hd with _ = aimToStep ?a => destruct a end;
      simpl in Hd; injection Hd as -> ->; rewrite !wrap32_id by lia; lia.
  - (* back to the head of the loop: not off the screen *)
    unfold offscreen in *. lia.
Qed.

Lemma rocketInv_init cfg : rocketInv cfg (initState cfg).
Proof. split; [intros t th Hl; discriminate | exact I]. Qed.

Lemma reachable_rocketInv cfg s :
  valid_cfg cfg = true -> reachable cfg s -> rocketInv cfg s.
Proof.
  intros Hc Hr. induction Hr as [|a s s' _ IH H]; [apply rocketInv_init|].
  eapply step_rocketInv; eassumption.
Qed.

(** A transition of rocket thread [t] uses up fuel; any other transition
    leaves the thread as it is. *)
Lemma step_rocket_thread cfg a s s' t th :
  valid_cfg cfg = true -> rocketOk cfg th ->
  step cfg a s = Some s' -> rocketThreads s !! t = Some th ->
  exists th', rocketThreads s' !! t = Some th'
              /\ (if isRocketStep t a then (rocketFuel cfg th' < rocketFuel cfg th)%nat
                  else th' = th).
Proof.
  intros Hc (Hd & Hpos) H Hth. apply valid_cfg_bounds in Hc.
  destruct Hc as (_ & _ & (HH & HH') & (HW & HW')). unfold INT_MAX in *.
  pose proof (lookup_lt_Some _ _ _ Hth) as Hlt.
  destruct s; destruct a; step_cases H; simpl in *.
  all: try (exists th; split; [assumption | reflexivity]).
  all: try (exists th; split; [apply lookup_app_l_Some; assumption | reflexivity]).
  all: destruct (Nat.eqb_spec t0 t) as [->|Hne];
    [ rewrite list_lookup_insert_eq by assumption; simplify_eq; eexists; split; [reflexivity|]
    | rewrite list_lookup_insert_ne by assumption; exists th; split; [assumption|reflexivity] ].
  all: unfold rocketFuel; simpl;
    match goal with E : rt_pc ?k = _ |- _ => rewrite E in *; simpl in * end.
  all: try lia.
  all: unfold cellsAhead; simpl;
    match type of Hd with _ = aimToStep ?a => destruct a end;
    simpl in Hd; injection Hd as Hdx Hdy; rewrite ?Hdx, ?Hdy, ?wrap32_id by lia; lia.
Qed.

Lemma rocketFuel_bound cfg th :
  valid_cfg cfg = true -> rocketOk cfg th ->
  (rocketFuel cfg th <= 3 * Z.to_nat (Z.max (SCREEN_H cfg) (SCREEN_W cfg)))%nat.
Proof.
  intros Hc (_ & Hpos). apply valid_cfg_bounds in Hc.
  destruct Hc as (_ & _ & (HH & _) & (HW & _)).
  unfold rocketFuel, cellsAhead.
  destruct (rt_pc th), (r_aim (rt_r th)); lia.
Qed.

Lemma run_rocket_thread cfg sched :
  forall s s' t th,
    valid_cfg cfg = true -> rocketInv cfg s ->
    run cfg sched s = Some s' -> rocketThreads s !! t = Some th ->
    exists th', rocketThreads s' !! t = Some th'
                /\ (rocketSteps t sched + rocketFuel cfg th' <= rocketFuel cfg th)%nat.
Proof.
  induction sched as [|a rest IH]; simpl; intros s s' t th Hc Hinv H Hth.
  - simplify_eq. exists th. split; [assumption | unfold rocketSteps; simpl; lia].
  - destruct (step cfg a s) as [s1|] eqn:E; [|discriminate].
    destruct (step_rocket_thread _ _ _ _ _ _ Hc (proj1 Hinv _ _ Hth) E Hth)
      as (th1 & Hth1 & Hfuel).
    destruct (IH s1 s' t th1 Hc (step_rocketInv _ _ _ _ Hc Hinv E) H Hth1)
      as (th' & Hth' & Hrest).
    exists th'. split; [assumption|].
    unfold rocketSteps in *. simpl.
    destruct (isRocketStep t a); simpl; [lia | subst; lia].
Qed.

(** X5.  In any run the transitions of a rocket thread are at most three
    for every cell ahead of it on the screen (to the top for the three
    upward headings, to the side for the two others), whatever the other
    threads do, which is at most three times the larger side of the
    screen.  Its next transition is disabled exactly if it has ended or
    [main] holds, in the joins of the cleanup, the list mutex that
    transition takes; while the match runs it is never blocked. *)
Theorem rocket_flight_is_bounded (cfg : Config) (s s' : State) (sched : list Action)
    (t : nat) (th : RocketThread) :
  valid_cfg cfg = true ->
  reachable cfg s ->
  run cfg sched s = Some s' ->
  rocketThreads s !! t = Some th ->
  exists th',
    rocketThreads s' !! t = Some th'
    /\ (rocketSteps t sched + rocketFuel cfg th' <= rocketFuel cfg th)%nat
    /\ (rocketFuel cfg th <= 3 * Z.to_nat (Z.max (SCREEN_H cfg) (SCREEN_W cfg)))%nat
    /\ (step cfg (ARocket t) s' = None <-> rt_pc th' = RkDone \/ rocketBlocked s' th' = true)
    /\ (gameRunning s' = true -> rocketBlocked s' th' = false).
Proof.
  intros Hc Hr Hrun Hth.
  pose proof (reachable_rocketInv _ _ Hc Hr) as Hinv.
  destruct (run_rocket_thread _ _ _ _ _ _ Hc Hinv Hrun Hth) as (th' & Hth' & Hfuel).
  exists th'. split_and!; try assumption.
  - apply rocketFuel_bound; [assumption | apply (proj1 Hinv _ _ Hth)].
  - unfold step, rocketThreadFn, rocketBlocked. rewrite Hth'.
    destruct (rt_pc th');
      repeat match goal with |- context [if ?b then _ else _] => destruct b end;
      split; intros H; try discriminate; auto; destruct H; congruence.
  - intros Hg.
    destruct (running_unlocked _ _ (run_reachable _ _ _ _ Hr Hrun) Hg) as [He Hk].
    unfold rocketBlocked. destruct (rt_pc th'); auto.
Qed.

(** Rocket 0 of the won match, fired to the left from (30, 17): its four
    transitions are within the 91 it has at the start. *)
Lemma rocket_flight_is_bounded_witness :
  exists th',
    rocketThreads (runOr cfgEasy (destroyOne 0) (initState cfgEasy)) !! 0%nat = Some th'
    /\ rt_pc th' = RkDone
    /\ (4 + rocketFuel cfgEasy th' <= 91)%nat.
Proof.
  destruct (rocket_flight_is_bounded cfgEasy
              (runOr cfgEasy (firstn 55 (destroyOne 0)) (initState cfgEasy))
              (runOr cfgEasy (destroyOne 0) (initState cfgEasy))
              (skipn 55 (destroyOne 0)) 0
              {| rt_r := MkRocket 1 30 17 AIM_LEFT None true; rt_dx := -1; rt_dy := 0;
                 rt_pc := RkTest |})
    as (th' & Hth' & Hfuel & _).
  - reflexivity.
  - apply runOr_reachable, reachable_init.
  - vm_compute. reflexivity.
  - vm_compute. reflexivity.
  - exists th'. split_and!; [exact Hth' | | exact Hfuel].
    vm_compute in Hth'. injection Hth' as <-. reflexivity.
Defined.

(** A transition of enemy thread [t] uses up fuel; any other transition
    leaves the thread as it is. *)
Lemma step_enemy_thread cfg a s s' t th :
  valid_cfg cfg = true -> privateOk cfg th ->
  step cfg a s = Some s' -> enemyThreads s !! t = Some th ->
  exists th', enemyThreads s' !! t = Some th'
              /\ (if isEnemyStep t a then (enemyFuel cfg th' < enemyFuel cfg th)%nat
                  else th' = th).
Proof.
  intros Hc (_ & Hy & Hpc) H Hth. apply valid_cfg_bounds in Hc.
  destruct Hc as (_ & _ & (HH & HH') & _). unfold INT_MAX in *.
  pose proof (lookup_lt_Some _ _ _ Hth) as Hlt.
  destruct s; destruct a; step_cases H; simpl in *.
  all: try (exists th; split; [assumption | reflexivity]).
  all: try (exists th; split; [apply lookup_app_l_Some; assumption | reflexivity]).
  all: destruct (Nat.eqb_spec t0 t) as [->|Hne];
    [ rewrite list_lookup_insert_eq by assumption; simplify_eq; eexists; split; [reflexivity|]
    | rewrite list_lookup_insert_ne by assumption; exists th; split; [assumption|reflexivity] ].
  all: unfold enemyFuel; simpl;
    match goal with E : et_pc ?k = _ |- _ => rewrite E in *; simpl in * end.
  all: rewrite ?wrap32_id by lia; lia.
Qed.

Lemma enemyFuel_bound cfg th :
  privateOk cfg th -> (enemyFuel cfg th <= 3 * Z.to_nat (SCREEN_H cfg - 3) + 1)%nat.
Proof.
  intros (_ & Hy & Hpc). unfold enemyFuel. destruct (et_pc th); lia.
Qed.

Lemma run_enemy_thread cfg sched :
  forall s s' t th,
    valid_cfg cfg = true -> Inv cfg s ->
    run cfg sched s = Some s' -> enemyThreads s !! t = Some th ->
    exists th', enemyThreads s' !! t = Some th'
                /\ (enemySteps t sched + enemyFuel cfg th' <= enemyFuel cfg th)%nat.
Proof.
  induction sched as [|a rest IH]; simpl; intros s s' t th Hc Hinv H Hth.
  - simplify_eq. exists th. split; [assumption | unfold enemySteps; simpl; lia].
  - destruct (step cfg a s) as [s1|] eqn:E; [|discriminate].
    assert (Hok : privateOk cfg th).
    { destruct Hinv as (_ & _ & _ & _ & _ & (Hp & _)). apply (Hp _ _ Hth). }
    destruct (step_enemy_thread _ _ _ _ _ _ Hc Hok E Hth) as (th1 & Hth1 & Hfuel).
    destruct (IH s1 s' t th1 Hc (Inv_step _ _ _ _ Hc Hinv E) H Hth1)
      as (th' & Hth' & Hrest).
    exists th'. split; [assumption|].
    unfold enemySteps in *. simpl.
    destruct (isEnemyStep t a); simpl; [lia | subst; lia].
Qed.

(** X6.  In any run the transitions of an enemy thread are at most three
    for every row between it and the ground row, whatever the other
    threads do, which is at most [3 * (SCREEN_H - 3) + 1].  Its next
    transition is disabled exactly if it has ended or [main] holds
    [enemyListMutex], in the joins of the cleanup, and that transition
    is one of the two critical sections; while the match runs it is
    never blocked. *)
Theorem enemy_descent_is_bounded (cfg : Config) (s s' : State) (sched : list Action)
    (t : nat) (th : EnemyThread) :
  valid_cfg cfg = true ->
  reachable cfg s ->
  run cfg sched s = Some s' ->
  enemyThreads s !! t = Some th ->
  exists th',
    enemyThreads s' !! t = Some th'
    /\ (enemySteps t sched + enemyFuel cfg th' <= enemyFuel cfg th)%nat
    /\ (enemyFuel cfg th <= 3 * Z.to_nat (SCREEN_H cfg - 3) + 1)%nat
    /\ (step cfg (AEnemy t) s' = None
        <-> et_pc th' = EnDone \/ enemyBlocked cfg s' th' = true)
    /\ (gameRunning s' = true -> enemyBlocked cfg s' th' = false).
Proof.
  intros Hc Hr Hrun Hth.
  pose proof (reachable_Inv _ _ Hc Hr) as Hinv.
  destruct (run_enemy_thread _ _ _ _ _ _ Hc Hinv Hrun Hth) as (th' & Hth' & Hfuel).
  exists th'. split_and!; try assumption.
  - apply enemyFuel_bound. destruct Hinv as (_ & _ & _ & _ & _ & (Hp & _)).
    apply (Hp _ _ Hth).
  - unfold step, enemyThreadFn, enemyBlocked. rewrite Hth'.
    destruct (et_pc th');
      repeat match goal with |- context [if ?b then _ else _] => destruct b end;
      split; intros H; try discriminate; auto; destruct H; simpl in *; congruence.
  - intros Hg.
    destruct (running_unlocked _ _ (run_reachable _ _ _ _ Hr Hrun) Hg) as [He Hk].
    unfold enemyBlocked. rewrite He. destruct (et_pc th'); auto using andb_false_r.
Qed.

(** The grounded enemy of the easy match, from its start on row 1 to the
    ground row: 51 transitions, all it had. *)
Lemma enemy_descent_is_bounded_witness :
  exists th',
    enemyThreads (runOr cfgEasy (groundOne 0) (initState cfgEasy)) !! 0%nat = Some th'
    /\ et_pc th' = EnDone
    /\ (51 + enemyFuel cfgEasy th' <= 51)%nat.
Proof.
  destruct (enemy_descent_is_bounded cfgEasy
              (runOr cfgEasy (spawnAt 2) (initState cfgEasy))
              (runOr cfgEasy (groundOne 0) (initState cfgEasy))
              (descend 0 17) 0
              {| et_e := MkEnemy 1 2 1 true None; et_pc := EnTest |})
    as (th' & Hth' & Hfuel & _).
  - reflexivity.
  - apply runOr_reachable, reachable_init.
  - vm_compute. reflexivity.
  - vm_compute. reflexivity.
  - exists th'. split_and!; [exact Hth' | | exact Hfuel].
    vm_compute in Hth'. injection Hth' as <-. reflexivity.
Defined.

(** ** The enemy vector against the threads *)

Lemma updFirst_by_id (es : list Enemy) (t : nat) (e : Enemy) (f : Enemy -> Enemy) :
  idsInOrder es -> es !! t = Some e ->
  (updFirst (fun ge => e_id ge =? Z.of_nat t + 1) f es).2 = <[t := f e]> es.
Proof.
  intros Hid Ht.
  assert (Hfound : (updFirst (fun ge => e_id ge =? Z.of_nat t + 1) f es).1 = true).
  { rewrite updFirst_found. apply existsb_exists. exists e. split.
    - apply list_elem_of_In, list_elem_of_lookup. eauto.
    - apply Z.eqb_eq, (Hid t e Ht). }
  destruct (updFirst_some _ _ _ Hfound) as (i & x & Hi & Hx & _ & ->).
  apply Z.eqb_eq in Hx. rewrite (Hid i x Hi) in Hx.
  assert (i = t) as -> by lia. congruence.
Qed.

Lemma updAll_by_id (es : list Enemy) (t : nat) (e : Enemy) (f : Enemy -> Enemy) :
  idsInOrder es -> es !! t = Some e ->
  updAll (fun ge => e_id ge =? Z.of_nat t + 1) f es = <[t := f e]> es.
Proof.
  intros Hid Ht. apply list_eq. intros j. unfold updAll. rewrite list_lookup_fmap.
  destruct (decide (t = j)) as [->|Hne].
  - rewrite list_lookup_insert_eq by (eapply lookup_lt_Some; eassumption).
    rewrite Ht. simpl. rewrite (Hid j e Ht), Z.eqb_refl. reflexivity.
  - rewrite list_lookup_insert_ne by assumption.
    destruct (es !! j) as [x|] eqn:Hj; [|reflexivity]. simpl.
    rewrite (Hid j x Hj).
    destruct (Z.eqb_spec (Z.of_nat j + 1) (Z.of_nat t + 1)); [lia | reflexivity].
Qed.

(** The invariant reads the vector only through [cellOf]. *)
Lemma registryOk_cells cfg (es es' : list Enemy) ths sp :
  (forall j, cellOf <$> es' !! j = cellOf <$> es !! j) ->
  registryOk cfg es ths sp -> registryOk cfg es' ths sp.
Proof.
  intros Hcells [H1 H2]. unfold registryOk.
  assert (Hback : forall j e', es' !! j = Some e' ->
                    exists e, es !! j = Some e /\ cellOf e = cellOf e').
  { intros j e' Hj. specialize (Hcells j). rewrite Hj in Hcells. simpl in Hcells.
    destruct (es !! j) as [e|]; [|discriminate].
    simpl in Hcells. exists e. split; [reflexivity | congruence]. }
  split.
  - intros j e' th Hj Hthj. destruct (Hback j e' Hj) as (e & He & Hc).
    destruct (H1 j e th He Hthj) as [Ha Hb]. rewrite <- Hc.
    split; [exact Ha|]. unfold cellOf in Hc. assert (e_x e = e_x e') by congruence. lia.
  - destruct sp; try exact I.
    intros e' Hj. destruct (Hback _ e' Hj) as (e0 & He0 & Hc).
    rewrite <- Hc. apply (H2 e0 He0).
Qed.

(** A thread moves to another place of its code. *)
Lemma registryOk_pc cfg es ths sp t th pc :
  ths !! t = Some th ->
  registryOk cfg es ths sp ->
  registryOk cfg es (<[t := MkEnemyThread (et_e th) pc]> ths) sp.
Proof.
  intros Ht [H1 H2]. split.
  - intros j e th' Hj Hthj. destruct (decide (t = j)) as [->|Hne].
    + rewrite list_lookup_insert_eq in Hthj by (eapply lookup_lt_Some; eassumption).
      injection Hthj as <-. simpl. apply (H1 j e th Hj Ht).
    + rewrite list_lookup_insert_ne in Hthj by assumption. apply (H1 j e th' Hj Hthj).
  - rewrite length_insert. exact H2.
Qed.

(** A thread moves its private copy and its record one row down. *)
Lemma registryOk_move cfg es ths sp t th ge y pc :
  ths !! t = Some th -> es !! t = Some ge ->
  registryOk cfg es ths sp ->
  registryOk cfg (<[t := e_set_y y ge]> es)
    (<[t := MkEnemyThread (e_set_y y (et_e th)) pc]> ths) sp.
Proof.
  intros Ht Hg [H1 H2].
  pose proof (lookup_lt_Some _ _ _ Ht) as Hlt.
  pose proof (lookup_lt_Some _ _ _ Hg) as Hlg.
  split.
  - intros j e th' Hj Hthj. destruct (decide (t = j)) as [->|Hne].
    + rewrite list_lookup_insert_eq in Hthj by assumption.
      rewrite list_lookup_insert_eq in Hj by assumption.
      injection Hthj as <-. injection Hj as <-. simpl.
      destruct (H1 j ge th Hg Ht) as [Ha Hb]. unfold cellOf in *. simpl.
      split; [congruence | exact Hb].
    + rewrite list_lookup_insert_ne in Hthj by assumption.
      rewrite list_lookup_insert_ne in Hj by assumption.
      apply (H1 j e th' Hj Hthj).
  - rewrite length_insert. destruct sp; try exact I.
    intros e' Hj. rewrite list_lookup_insert_ne in Hj by lia. apply (H2 e' Hj).
Qed.

(** The spawner pushes a record. *)
Lemma registryOk_push cfg es ths sp i e0 :
  length ths = length es -> e_y e0 = 1 -> e_tid e0 = None ->
  2 <= e_x e0 <= SCREEN_W cfg - 4 ->
  registryOk cfg es ths sp -> registryOk cfg (es ++ [e0]) ths (SpPushed i e0).
Proof.
  intros Hlen Hy Htid Hx [H1 _]. split.
  - intros j e th Hj Hthj. pose proof (lookup_lt_Some _ _ _ Hthj) as Hlt.
    rewrite lookup_app_l in Hj by lia. apply (H1 j e th Hj Hthj).
  - intros e Hj. rewrite Hlen in Hj. rewrite list_lookup_middle in Hj by reflexivity.
    injection Hj as <-. unfold cellOf. rewrite Hy, Htid. auto.
Qed.

(** The spawner starts the thread of the record it pushed and stores the
    handle. *)
Lemma registryOk_start cfg es ths i e0 ge :
  es !! length ths = Some ge -> S (length ths) = length es ->
  registryOk cfg es ths (SpPushed i e0) ->
  registryOk cfg (<[length ths := e_set_tid (Some (length ths)) ge]> es)
    (ths ++ [MkEnemyThread e0 EnTest]) (SpStarted i).
Proof.
  intros Hg Hlen [H1 H2]. destruct (H2 ge Hg) as (Hc & Hy & Hx).
  split; [|exact I].
  intros j e th Hj Hthj. apply lookup_app_Some in Hthj.
  destruct Hthj as [Hthj | [Hge Hthj]].
  - pose proof (lookup_lt_Some _ _ _ Hthj) as Hlt.
    rewrite list_lookup_insert_ne in Hj by lia. apply (H1 j e th Hj Hthj).
  - apply list_lookup_singleton_Some in Hthj. destruct Hthj as [Hz <-].
    assert (j = length ths) as -> by lia.
    rewrite list_lookup_insert_eq in Hj by lia. injection Hj as <-.
    unfold cellOf in *. simpl. split; [congruence|].
    assert (e_x ge = e_x e0) by congruence. lia.
Qed.

Lemma step_registryInv cfg a s s' :
  valid_cfg cfg = true -> Inv cfg s -> idInv s -> registryInv cfg s ->
  step cfg a s = Some s' -> registryInv cfg s'.
Proof.
  intros Hc Hinv (Hids & Htids & Hnext & Hlens) Hreg H.
  destruct Hinv as (_ & _ & _ & _ & _ & (Hpriv & Hpushed)).
  apply valid_cfg_bounds in Hc. destruct Hc as (_ & _ & (HH & HH') & _).
  unfold INT_MAX in *. unfold registryInv in *.
  destruct s; destruct a; step_cases H; simpl in *.
  all: try assumption.
  all: try (eapply registryOk_cells; [|eassumption]; intros j;
            apply fmap_lookup_updFirst; intros []; reflexivity).
  all: try (apply registryOk_pc; assumption).
  (* the ground check: a thread ends, a flag may be cleared *)
  all: try (eapply registryOk_cells;
            [ intros j; apply fmap_lookup_updFirst; intros []; reflexivity
            | apply registryOk_pc; assumption ]).
  (* the push *)
  all: try (eapply registryOk_push;
            [assumption | reflexivity | reflexivity | simpl; lia | eassumption ]).
  (* the start of the thread *)
  all: try match goal with
           | Hl : _ /\ S (length ?ths) = length ?es |- registryOk _ (updAll _ _ ?es) _ _ =>
               destruct Hl as [Hid Hl];
               destruct (lookup_lt_is_Some_2 es (length ths) ltac:(lia)) as [ge Hge];
               rewrite Hid, <- Hl, Nat2Z.inj_succ, <- Z.add_1_r;
               rewrite (updAll_by_id es (length ths) ge) by assumption;
               apply registryOk_start; assumption
           end.
  (* the move *)
  all: match goal with
       | Ht : ?ths !! ?t = Some ?th |- registryOk _ (updFirst _ _ ?es).2 _ _ =>
           assert (Hidt : e_id (et_e th) = Z.of_nat t + 1)
             by (apply (Htids t); rewrite list_lookup_fmap, Ht; reflexivity);
           pose proof (lookup_lt_Some _ _ _ Ht) as Hlt;
           assert (Hlt' : (t < length es)%nat)
             by (match type of Hlens with
                 | match ?sp with _ => _ end => destruct sp
                 end; lia);
           destruct (lookup_lt_is_Some_2 es t Hlt') as [ge Hge];
           simpl e_id; rewrite Hidt;
           rewrite (updFirst_by_id es t ge) by assumption;
           apply registryOk_move; assumption
       end.
Qed.

Lemma registryInv_init cfg : registryInv cfg (initState cfg).
Proof. split; [intros j e th Hj; discriminate | exact I]. Qed.

Lemma reachable_registryInv cfg s :
  valid_cfg cfg = true -> reachable cfg s -> registryInv cfg s.
Proof.
  intros Hc Hr. induction Hr as [|a s s' Hr IH H]; [apply registryInv_init|].
  eapply step_registryInv; try eassumption.
  - apply (reachable_Inv _ _ Hc Hr).
  - apply (reachable_idInv _ _ Hc Hr).
Qed.

Lemma enemy_record_bounds cfg s j e :
  valid_cfg cfg = true -> reachable cfg s -> enemies s !! j = Some e ->
  2 <= e_x e <= SCREEN_W cfg - 4 /\ 1 <= e_y e <= SCREEN_H cfg - 2.
Proof.
  intros Hc Hr Hj.
  pose proof (reachable_Inv _ _ Hc Hr) as (_ & _ & _ & _ & _ & (Hpriv & _)).
  pose proof (reachable_idInv _ _ Hc Hr) as (_ & _ & _ & Hlens).
  pose proof (reachable_registryInv _ _ Hc Hr) as [H1 H2].
  pose proof (lookup_lt_Some _ _ _ Hj) as Hlt.
  apply valid_cfg_bounds in Hc. destruct Hc as (_ & _ & (HH & _) & _).
  destruct (enemyThreads s !! j) as [th|] eqn:Hth.
  - destruct (H1 j e th Hj Hth) as [Hcell Hx].
    destruct (Hpriv _ _ Hth) as (_ & Hy & _).
    unfold cellOf in Hcell. assert (e_y e = e_y (et_e th)) by congruence. lia.
  - apply lookup_ge_None in Hth.
    destruct (spawner s) as [i|i e0|i|] eqn:Hsp; try lia.
    destruct Hlens as [_ Hlens].
    assert (j = length (enemyThreads s)) as -> by lia.
    destruct (H2 e Hj) as (Hcell & _ & Hx). unfold cellOf in Hcell.
    assert (e_x e = e_x e0) by congruence.
    assert (e_y e = 1) by congruence. lia.
Qed.



Lemma enemy_tid_of cfg s j e :
  valid_cfg cfg = true -> reachable cfg s -> enemies s !! j = Some e ->
  e_tid e = Some j \/ (length (enemyThreads s) <= j)%nat.
Proof.
  intros Hc Hr Hj.
  pose proof (reachable_registryInv _ _ Hc Hr) as [H1 _].
  destruct (enemyThreads s !! j) as [th|] eqn:Hth.
  - left. destruct (H1 j e th Hj Hth) as [Hcell _]. unfold cellOf in Hcell. congruence.
  - right. apply lookup_ge_None. exact Hth.
Qed.

(** A transition of another thread leaves an ended enemy thread ended
    and the enemy threads in place. *)
Lemma step_joinedInv_other cfg a s s' :
  valid_cfg cfg = true -> Inv cfg s -> joinedInv s ->
  step cfg a s = Some s' -> a <> AMain -> joinedInv s'.
Proof.
  intros Hc Hinv Hj H Ha.
  destruct (step_controller_other _ _ _ _ H Ha) as [Hctl _].
  unfold joinedInv in *. rewrite Hctl.
  destruct (controller s) as [| | | | | | | | | |j| | |]; try exact I.
  destruct Hj as [Hle Hdone].
  assert (Hkeep : forall i th, enemyThreads s !! i = Some th -> et_pc th = EnDone ->
                               enemyThreads s' !! i = Some th).
  { intros i th Hth Hpc.
    assert (Hok : privateOk cfg th).
    { destruct Hinv as (_ & _ & _ & _ & _ & (Hp & _)). apply (Hp _ _ Hth). }
    destruct (step_enemy_thread _ _ _ _ i th Hc Hok H Hth) as (th' & Hth' & Hcase).
    destruct (isEnemyStep i a); [|congruence].
    unfold enemyFuel in Hcase at 2. rewrite Hpc in Hcase. lia. }
  assert (Hlen : (length (enemyThreads s) <= length (enemyThreads s'))%nat).
  { destruct (decide (length (enemyThreads s) = O)) as [|Hne]; [lia|].
    destruct (lookup_lt_is_Some_2 (enemyThreads s) (length (enemyThreads s) - 1)) as [th Hth];
      [lia|].
    assert (Hok : privateOk cfg th).
    { destruct Hinv as (_ & _ & _ & _ & _ & (Hp & _)). apply (Hp _ _ Hth). }
    destruct (step_enemy_thread _ _ _ _ _ th Hc Hok H Hth) as (th' & Hth' & _).
    apply lookup_lt_Some in Hth'. lia. }
  split; [lia|].
  intros i th Hi Hth.
  destruct (lookup_lt_is_Some_2 (enemyThreads s) i) as [th0 Hth0]; [lia|].
  pose proof (Hdone i th0 Hi Hth0) as Hpc0.
  pose proof (Hkeep i th0 Hth0 Hpc0). congruence.
Qed.

(** In the enemy joins every record holds the handle of its thread, and
    thread [j] is the one the join at record [j] waits for. *)
Lemma join_handles cfg s j :
  valid_cfg cfg = true -> reachable cfg s -> controller s = MnJoinEnemies j ->
  length (enemyThreads s) = length (enemies s)
  /\ forall i e, enemies s !! i = Some e -> e_tid e = Some i.
Proof.
  intros Hc Hr Hctl.
  pose proof (reachable_shutdownInv _ _ Hr) as Hsh.
  unfold shutdownInv in Hsh. rewrite Hctl in Hsh. destruct Hsh as (_ & Hsp & _).
  pose proof (reachable_idInv _ _ Hc Hr) as (_ & _ & _ & Hlens).
  rewrite Hsp in Hlens. split; [exact Hlens|].
  intros i e Hi. destruct (enemy_tid_of cfg s i e Hc Hr Hi) as [Ht | Ht]; [exact Ht|].
  apply lookup_lt_Some in Hi. lia.
Qed.

Lemma reachable_joinedInv cfg s :
  valid_cfg cfg = true -> reachable cfg s -> joinedInv s.
Proof.
  intros Hc Hr. induction Hr as [|a s s' Hr IH H]; [exact I|].
  assert (Hother : a <> AMain -> joinedInv s').
  { apply (step_joinedInv_other cfg a s s' Hc (reachable_Inv _ _ Hc Hr) IH H). }
  destruct a; try (apply Hother; discriminate). clear Hother.
  unfold step, mainLoop in H. unfold joinedInv in *.
  destruct (controller s) as [| | | | | | | | | |j| | |] eqn:Hctl;
    destruct_in H; simplify_eq; simpl; try exact I.
  - split; [lia|]. intros i th Hi. lia.
  - (* the join at record [j] has returned *)
    destruct (join_handles cfg s j Hc Hr Hctl) as [Hlen Hh].
    destruct IH as [Hle Hdone].
    match goal with E : enemies s !! j = Some ?e |- _ =>
      pose proof (Hh _ _ E) as Htid; pose proof (lookup_lt_Some _ _ _ E) as Hlt end.
    assert (n = j) as -> by congruence.
    match goal with E : enemyReturned j s = true |- _ => unfold enemyReturned in E;
      rename E into Eret end.
    split; [lia|]. intros i th Hi Hth.
    destruct (decide (i = j)) as [->|Hne]; [|apply (Hdone i th); [lia | exact Hth]].
    rewrite Hth in Eret. unfold enemyDone in Eret. destruct (et_pc th); congruence.
  - (* no record is without a handle *)
    destruct (join_handles cfg s j Hc Hr Hctl) as [Hlen Hh].
    match goal with E : enemies s !! j = Some ?e |- _ => pose proof (Hh _ _ E) end.
    congruence.
Qed.

Lemma enemyBlocked_controller cfg s s1 th :
  controller s1 = controller s -> enemyBlocked cfg s1 th = enemyBlocked cfg s th.
Proof. unfold enemyBlocked, enemyListLocked. intros ->. reflexivity. Qed.

(** An enemy thread that waits for [enemyListMutex] while [main] waits for
    that thread in the enemy joins: neither moves again. *)
Lemma blocked_for_ever cfg sched :
  forall s s' j th,
    valid_cfg cfg = true -> reachable cfg s ->
    controller s = MnJoinEnemies j ->
    enemyThreads s !! j = Some th ->
    enemyBlocked cfg s th = true ->
    run cfg sched s = Some s' ->
    controller s' = MnJoinEnemies j /\ enemyThreads s' !! j = Some th.
Proof.
  induction sched as [|a rest IH]; simpl; intros s s' j th Hc Hr Hctl Hth Hb Hrun.
  - simplify_eq. auto.
  - destruct (step cfg a s) as [s1|] eqn:E; [|discriminate].
    assert (Hpc : et_pc th <> EnDone).
    { unfold enemyBlocked in Hb. destruct (et_pc th); congruence. }
    assert (Hmain : a <> AMain).
    { intros ->. destruct (join_handles cfg s j Hc Hr Hctl) as [Hlen Hh].
      destruct (lookup_lt_is_Some_2 (enemies s) j) as [e He];
        [rewrite <- Hlen; eapply lookup_lt_Some; eassumption|].
      unfold step, mainLoop in E. rewrite Hctl, He, (Hh _ _ He) in E.
      unfold enemyReturned in E. rewrite Hth in E. unfold enemyDone in E.
      destruct (et_pc th); congruence. }
    assert (Hown : isEnemyStep j a = false).
    { destruct a; try reflexivity. simpl. destruct (Nat.eqb_spec t j) as [->|]; [|reflexivity].
      exfalso. unfold step, enemyThreadFn in E. rewrite Hth in E.
      unfold enemyBlocked in Hb.
      destruct (et_pc th); try discriminate.
      - rewrite Hb in E. discriminate.
      - apply andb_prop in Hb. destruct Hb as [Hy Hl]. rewrite Hy, Hl in E. discriminate. }
    destruct (step_controller_other _ _ _ _ E Hmain) as [Hctl1 _].
    assert (Hok : privateOk cfg th).
    { pose proof (reachable_Inv _ _ Hc Hr) as (_ & _ & _ & _ & _ & (Hp & _)).
      apply (Hp _ _ Hth). }
    destruct (step_enemy_thread _ _ _ _ j th Hc Hok E Hth) as (th1 & Hth1 & Hcase).
    rewrite Hown in Hcase. subst th1.
    apply (IH s1 s' j th); try assumption.
    + eapply reachable_step; eassumption.
    + congruence.
    + rewrite (enemyBlocked_controller cfg s s1 th Hctl1). exact Hb.
Qed.

(** X8.  The enemy joins of [waitForAllThreadsAndCleanup] run with the
    match stopped and the three fixed threads joined.  Every enemy record
    holds the handle of its own thread, so the loop waits for the enemy
    threads one by one in the order of the vector: at record [j] the
    threads before [j] have ended, the join returns exactly if thread [j]
    has ended, and after the last record the mutex is released.  The loop
    keeps [enemyListMutex] locked: a thread [j] that still has to take
    that mutex never ends, and [main] never gets past record [j]. *)
Theorem cleanup_joins_enemies_in_order (cfg : Config) (s : State) (j : nat) :
  valid_cfg cfg = true ->
  reachable cfg s ->
  controller s = MnJoinEnemies j ->
  (gameRunning s = false /\ spawner s = SpDone /\ reloader s = RlDone /\ player s = PlDone)
  /\ length (enemyThreads s) = length (enemies s)
  /\ (j <= length (enemies s))%nat
  /\ (forall i e, enemies s !! i = Some e -> e_tid e = Some i)
  /\ (forall i th, (i < j)%nat -> enemyThreads s !! i = Some th -> et_pc th = EnDone)
  /\ (forall th, enemyThreads s !! j = Some th ->
        step cfg AMain s
        = (if enemyDone th then Some (set_controller (MnJoinEnemies (S j)) s) else None))
  /\ (j = length (enemies s) -> step cfg AMain s = Some (set_controller MnRockets s))
  /\ (forall th sched s',
        enemyThreads s !! j = Some th -> enemyBlocked cfg s th = true ->
        run cfg sched s = Some s' ->
        controller s' = MnJoinEnemies j /\ enemyThreads s' !! j = Some th
        /\ step cfg AMain s' = None /\ step cfg (AEnemy j) s' = None).
Proof.
  intros Hc Hr Hctl.
  pose proof (reachable_shutdownInv _ _ Hr) as Hsh.
  unfold shutdownInv in Hsh. rewrite Hctl in Hsh.
  destruct (join_handles cfg s j Hc Hr Hctl) as [Hlen Hh].
  pose proof (reachable_joinedInv _ _ Hc Hr) as Hj.
  unfold joinedInv in Hj. rewrite Hctl in Hj. destruct Hj as [Hle Hdone].
  assert (Hjoin : forall s1 th, controller s1 = MnJoinEnemies j ->
            enemies s1 !! j = None \/ (exists e, enemies s1 !! j = Some e /\ e_tid e = Some j) ->
            enemyThreads s1 !! j = Some th ->
            step cfg AMain s1
            = (if enemyDone th then Some (set_controller (MnJoinEnemies (S j)) s1) else None)
              \/ enemies s1 !! j = None).
  { intros s1 th Hctl1 [Hn | (e & He & Ht)] Hth; [right; exact Hn|]. left.
    unfold step, mainLoop. rewrite Hctl1, He, Ht. unfold enemyReturned. rewrite Hth.
    reflexivity. }
  split_and!; try assumption; try tauto; try lia.
  - intros th Hth.
    destruct (lookup_lt_is_Some_2 (enemies s) j) as [e He];
      [rewrite <- Hlen; eapply lookup_lt_Some; eassumption|].
    destruct (Hjoin s th Hctl (or_intror (ex_intro _ e (conj He (Hh _ _ He)))) Hth)
      as [H | H]; [exact H | congruence].
  - intros ->. unfold step, mainLoop. rewrite Hctl.
    rewrite (proj2 (lookup_ge_None (enemies s) (length (enemies s))) (Nat.le_refl _)).
    reflexivity.
  - intros th sched s' Hth Hb Hrun.
    destruct (blocked_for_ever cfg sched s s' j th Hc Hr Hctl Hth Hb Hrun) as [Hctl' Hth'].
    pose proof (run_reachable _ _ _ _ Hr Hrun) as Hr'.
    destruct (join_handles cfg s' j Hc Hr' Hctl') as [Hlen' Hh'].
    assert (Hpc : enemyDone th = false).
    { unfold enemyBlocked in Hb. unfold enemyDone. destruct (et_pc th); congruence. }
    assert (Hb' : enemyBlocked cfg s' th = true).
    { rewrite (enemyBlocked_controller cfg s s' th); [exact Hb | congruence]. }
    split_and!; try assumption.
    + destruct (lookup_lt_is_Some_2 (enemies s') j) as [e He];
        [rewrite <- Hlen'; eapply lookup_lt_Some; eassumption|].
      unfold step, mainLoop. rewrite Hctl', He, (Hh' _ _ He).
      unfold enemyReturned. rewrite Hth', Hpc. reflexivity.
    + unfold step, enemyThreadFn. rewrite Hth'. unfold enemyBlocked in Hb'.
      destruct (et_pc th); try discriminate.
      * rewrite Hb'. reflexivity.
      * apply andb_prop in Hb'. destruct Hb' as [Hy Hl]. rewrite Hy, Hl. reflexivity.
Qed.

(** The player quits while the first enemy is between its loop condition
    and its row update: [main] takes the mutex for the joins, the thread
    waits for the mutex, [main] waits for the thread. *)
Lemma cleanup_joins_enemies_in_order_witness :
  controller hungState = MnJoinEnemies 0
  /\ (forall i e, enemies hungState !! i = Some e -> e_tid e = Some i)
  /\ step cfgEasy AMain hungState = None
  /\ step cfgEasy (AEnemy 0) hungState = None.
Proof.
  assert (Hctl : controller hungState = MnJoinEnemies 0) by (vm_compute; reflexivity).
  destruct (cleanup_joins_enemies_in_order cfgEasy hungState 0)
    as (_ & _ & _ & Hh & _ & _ & _ & Hhung).
  - reflexivity.
  - apply runOr_reachable, reachable_init.
  - exact Hctl.
  - destruct (Hhung (MkEnemyThread (MkEnemy 1 2 1 true None) EnMove) [] hungState)
      as (_ & _ & Hm & He); try (vm_compute; reflexivity).
    split_and!; assumption.
Defined.

(** X9.  [drawScreen] paints the enemy glyph for every record that is alive
    and above the ground row, on the record's cell, and paints it
    nowhere else: always on a cell of a live record, in rows 1 to
    [SCREEN_H - 3] and columns 2 to [SCREEN_W - 4], so never on the ground
    line, the footer or the frame. *)
Theorem live_enemies_are_drawn (cfg : Config) (s : State) :
  valid_cfg cfg = true ->
  reachable cfg s ->
  (forall j e, enemies s !! j = Some e -> e_alive e = true ->
               e_y e <> SCREEN_H cfg - 2 ->
               In (e_y e, e_x e) (drawnEnemies cfg (enemies s)))
  /\ (forall row col, In (row, col) (drawnEnemies cfg (enemies s)) ->
        1 <= row <= SCREEN_H cfg - 3 /\ 2 <= col <= SCREEN_W cfg - 4
        /\ exists e, In e (enemies s) /\ e_alive e = true /\ e_y e = row /\ e_x e = col).
Proof.
  intros Hc Hr. split.
  - intros j e Hj Ha Hy.
    destruct (enemy_record_bounds cfg s j e Hc Hr Hj) as (Hx & Hy').
    unfold drawnEnemies. apply in_map_iff. exists e. split; [reflexivity|].
    apply filter_In. split; [apply list_elem_of_In, list_elem_of_lookup; eauto|].
    rewrite Ha. unfold inWindow. lia.
  - intros row col Hin. unfold drawnEnemies in Hin. apply in_map_iff in Hin.
    destruct Hin as (e & Hcell & Hin). apply filter_In in Hin. destruct Hin as [Hin Hf].
    injection Hcell as <- <-.
    apply andb_prop in Hf. destruct Hf as [Ha Hw].
    pose proof Hin as Hin'. apply list_elem_of_In, list_elem_of_lookup in Hin'.
    destruct Hin' as [j Hj].
    destruct (enemy_record_bounds cfg s j e Hc Hr Hj) as (Hx & Hy').
    unfold inWindow in Hw. split_and!; try lia. eauto.
Qed.

(** The enemy of the race, alive on (30, 16), is drawn on row 16,
    column 30. *)
Lemma live_enemies_are_drawn_witness :
  In (16, 30) (drawnEnemies cfgEasy (enemies raceState)).
Proof.
  destruct (live_enemies_are_drawn cfgEasy raceState) as [H _].
  - reflexivity.
  - apply runOr_reachable, reachable_init.
  - apply (H 0%nat (MkEnemy 1 30 16 true (Some 0%nat))).
    + vm_compute. reflexivity.
    + reflexivity.
    + vm_compute. discriminate.
Defined.

Lemma groundCheck_own (es : list Enemy) (t : nat) (e : Enemy) :
  idsInOrder es -> es !! t = Some e -> e_alive e = true ->
  groundCheck (Z.of_nat t + 1) es = (true, <[t := e_set_alive false e]> es).
Proof.
  intros Hid Ht Ha. unfold groundCheck.
  assert (Hfound : (updFirst (ownAlive (Z.of_nat t + 1)) (e_set_alive false) es).1 = true).
  { rewrite updFirst_found. apply existsb_exists. exists e. split.
    - apply list_elem_of_In, list_elem_of_lookup. eauto.
    - unfold ownAlive. rewrite Ha, (Hid t e Ht), Z.eqb_refl. reflexivity. }
  destruct (updFirst_some _ _ _ Hfound) as (i & x & Hi & Hx & _ & Heq).
  unfold ownAlive in Hx. apply andb_prop in Hx. destruct Hx as [Hx _].
  apply Z.eqb_eq in Hx. rewrite (Hid i x Hi) in Hx.
  assert (i = t) by lia. subst i. assert (x = e) by congruence. subst x.
  destruct (updFirst (ownAlive (Z.of_nat t + 1)) (e_set_alive false) es).
  simpl in *. congruence.
Qed.

(** X10.  The ground check of enemy thread [t], on the ground row, waits
    for [enemyListMutex]: it is blocked while [main] holds the mutex in
    the joins of the cleanup.  Otherwise it is an enabled transition that
    ends the thread.  If the thread's own record is still alive it clears
    that record, and no other, and adds exactly one to [groundHits]; if
    the record was already cleared it changes neither the vector nor the
    counter.  [destroyedEnemies] is never touched. *)
Theorem ground_hit_clears_own_record (cfg : Config) (s : State) (t : nat)
    (th : EnemyThread) (e : Enemy) :
  valid_cfg cfg = true ->
  reachable cfg s ->
  enemyThreads s !! t = Some th ->
  et_pc th = EnGround ->
  SCREEN_H cfg - 2 <= e_y (et_e th) ->
  enemies s !! t = Some e ->
  (enemyListLocked s = true -> step cfg (AEnemy t) s = None)
  /\ (enemyListLocked s = false ->
      exists s',
        step cfg (AEnemy t) s = Some s'
        /\ enemyThreads s' !! t = Some (MkEnemyThread (et_e th) EnDone)
        /\ enemies s' = (if e_alive e then <[t := e_set_alive false e]> (enemies s)
                         else enemies s)
        /\ groundHits s' = groundHits s + (if e_alive e then 1 else 0)
        /\ destroyedEnemies s' = destroyedEnemies s).
Proof.
  intros Hc Hr Hth Hpc Hy Hj.
  pose proof (reachable_Inv _ _ Hc Hr) as (Hs & (Hd & Hg & Hsum) & _).
  pose proof (reachable_idInv _ _ Hc Hr) as (Hids & Htids & _).
  pose proof (lookup_lt_Some _ _ _ Hth) as Hlt.
  assert (Hidt : e_id (et_e th) = Z.of_nat t + 1)
    by (apply (Htids t); rewrite list_lookup_fmap, Hth; reflexivity).
  assert (Hlen : Z.of_nat (length (enemies s)) <= m_enemies (settings cfg)).
  { unfold spawnInv in Hs. destruct (spawner s); lia. }
  pose proof (countDead_le (enemies s)) as Hle.
  pose proof (valid_cfg_bounds _ Hc) as (Hm & _).
  unfold step, enemyThreadFn. rewrite Hth, Hpc.
  replace (SCREEN_H cfg - 2 <=? e_y (et_e th)) with true by (symmetry; apply Z.leb_le; lia).
  split; intros ->; [reflexivity|].
  rewrite Hidt.
  destruct (e_alive e) eqn:Ha.
  - rewrite (groundCheck_own _ _ _ Hids Hj Ha). simpl.
    eexists. split; [reflexivity|]. unfold setEnemyThread. simpl.
    rewrite list_lookup_insert_eq by assumption.
    rewrite wrap32_id by lia. split_and!; reflexivity.
  - rewrite groundCheck_cleared.
    + simpl. eexists. split; [reflexivity|]. unfold setEnemyThread. simpl.
      rewrite list_lookup_insert_eq by assumption. split_and!; try reflexivity. lia.
    + rewrite <- Hidt. apply (cleared_record cfg s t th Hc Hr Hth).
      unfold aliveAt. rewrite Hj. simpl. rewrite Ha. reflexivity.
Qed.

(** The first grounded enemy of the easy match, at its ground check. *)
Lemma ground_hit_clears_own_record_witness :
  exists s',
    step cfgEasy (AEnemy 0) (runOr cfgEasy (spawnAt 2 ++ removelast (descend 0 17))
                               (initState cfgEasy)) = Some s'
    /\ groundHits s' = 1.
Proof.
  destruct (ground_hit_clears_own_record cfgEasy
              (runOr cfgEasy (spawnAt 2 ++ removelast (descend 0 17)) (initState cfgEasy))
              0 (MkEnemyThread (MkEnemy 1 2 18 true None) EnGround)
              (MkEnemy 1 2 18 true (Some 0%nat)))
    as [_ Hrun].
  - reflexivity.
  - apply runOr_reachable, reachable_init.
  - vm_compute. reflexivity.
  - reflexivity.
  - vm_compute. discriminate.
  - vm_compute. reflexivity.
  - destruct Hrun as (s' & Hstep & _ & _ & Hg & _); [vm_compute; reflexivity|].
    exists s'. split; [exact Hstep|]. rewrite Hg. vm_compute. reflexivity.
Defined.

(** ** A rocket destroys at most one enemy *)

Lemma filter_length_insert {A : Type} (f : A -> bool) (l : list A) (t : nat) (x y : A) :
  l !! t = Some x ->
  (length (List.filter f (<[t := y]> l)) + (if f x then 1 else 0)
   = length (List.filter f l) + (if f y then 1 else 0))%nat.
Proof.
  revert t. induction l as [|z l IH]; intros t Ht; [discriminate|].
  destruct t as [|t]; simpl in *.
  - injection Ht as ->. destruct (f x), (f y); simpl; lia.
  - specialize (IH t Ht). destruct (f z); simpl; lia.
Qed.

Lemma step_hitInv cfg a s s' :
  valid_cfg cfg = true -> Inv cfg s -> hitInv s -> step cfg a s = Some s' -> hitInv s'.
Proof.
  intros Hc (Hs & (Hd & Hg & Hsum) & _) [Hhit Hlen] H. apply valid_cfg_bounds in Hc.
  assert (Hm : Z.of_nat (length (enemies s)) <= m_enemies (settings cfg)).
  { unfold spawnInv in Hs. destruct (spawner s); lia. }
  pose proof (countDead_le (enemies s)) as Hle. clear Hs.
  destruct s; destruct a; step_cases H; unfold hitInv, endedRockets in *; simpl in *.
  all: rewrite ?List.filter_app, ?updFirst_length, ?updAll_length, ?length_insert,
         ?length_app; simpl; try (split; [assumption | lia]).
  all: try (split; lia).
  all: match goal with
       | E : ?ths !! ?t = Some ?th |- context [<[?t := ?th']> ?ths] =>
           pose proof (filter_length_insert rocketEnded ths t th th' E) as Hf;
           unfold rocketEnded in Hf at 2 4; simpl in Hf
       end.
  all: match goal with E : rt_pc _ = _ |- _ => rewrite E in Hf end.
  all: rewrite ?wrap32_id by lia; split; lia.
Qed.

Lemma reachable_hitInv cfg s : valid_cfg cfg = true -> reachable cfg s -> hitInv s.
Proof.
  intros Hc Hr. induction Hr as [|a s s' Hr IH H].
  - split; [simpl; lia | reflexivity].
  - eapply step_hitInv; try eassumption. apply (reachable_Inv _ _ Hc Hr).
Qed.

Lemma filter_length_le {A : Type} (f : A -> bool) (l : list A) :
  (length (List.filter f l) <= length l)%nat.
Proof. induction l as [|x l IH]; simpl; [lia|]. destruct (f x); simpl; lia. Qed.

(** X11.  A rocket destroys at most one enemy: the number of enemies
    destroyed never exceeds the number of rocket threads that have left
    their loop, hence neither the number of rockets launched nor the
    number of launchers consumed. *)
Theorem destroyed_at_most_rockets_fired (cfg : Config) (s : State) :
  valid_cfg cfg = true ->
  reachable cfg s ->
  destroyedEnemies s <= Z.of_nat (endedRockets (rocketThreads s))
  /\ (endedRockets (rocketThreads s) <= length (rocketThreads s))%nat
  /\ (length (rocketThreads s) <= launchedCount s)%nat
  /\ (launchedCount s <= firedCount s)%nat.
Proof.
  intros Hc Hr.
  pose proof (reachable_Inv _ _ Hc Hr) as (_ & _ & _ & (Hl & Hf) & _).
  destruct (reachable_hitInv _ _ Hc Hr) as [Hhit Hlen].
  split_and!; [exact Hhit | apply filter_length_le | lia | lia].
Qed.

(** The match of the stale read at the scan: six enemies destroyed by six
    rockets. *)
Lemma destroyed_at_most_rockets_fired_witness :
  destroyedEnemies staleState <= 6 /\ (6 <= firedCount staleState)%nat.
Proof.
  destruct (destroyed_at_most_rockets_fired cfgEasy staleState) as (H1 & H2 & H3 & H4).
  - reflexivity.
  - apply runOr_reachable, reachable_init.
  - assert (Hn : length (rocketThreads staleState) = 6%nat) by (vm_compute; reflexivity).
    split; lia.
Defined.

(** ** The configurations of the menu *)

Lemma menuLoop_choice keys choice :
  menuLoop keys = Some choice -> choice = 1 \/ choice = 2 \/ choice = 3.
Proof.
  induction keys as [|c rest IH]; simpl; [discriminate|].
  repeat case_match; intros; simplify_eq; auto.
Qed.

Lemma menuLoop_skips pre keys :
  Forall (fun c => menuKey c = false) pre -> menuLoop (pre ++ keys) = menuLoop keys.
Proof.
  intros Hpre. induction Hpre as [|c pre Hc _ IH]; [reflexivity|].
  simpl. unfold menuKey in Hc.
  destruct (c =? 49), (c =? 50), (c =? 51), (c =? 10); try discriminate. exact IH.
Qed.

Lemma settings_eqb_eq a b : settings_eqb a b = true -> a = b.
Proof.
  unfold settings_eqb. intros H.
  repeat (apply andb_prop in H; destruct H as [H ?]).
  destruct a, b; simpl in *. f_equal; lia.
Qed.

(** X12.  The configurations the development quantifies over are exactly
    those [main] sets up: whatever keys the menu reads and whatever size
    the terminal reports, the preset is one of the three, the screen is
    at least 20 by 60 and the battery has between 3 and 8 launchers; keys
    other than 1, 2, 3 and Enter are read past; and every such
    configuration is produced by one deciding key. *)
Theorem menu_yields_valid_config (pre keys : list Z) (choice maxy maxx : Z) :
  Forall (fun c => menuKey c = false) pre ->
  menuLoop keys = Some choice ->
  maxy <= INT_MAX -> maxx <= INT_MAX ->
  let cfg := configure choice maxy maxx in
  menuLoop (pre ++ keys) = Some choice
  /\ valid_cfg cfg = true
  /\ (3 <= k_launchers_global cfg <= 8)%nat
  /\ (forall cfg', valid_cfg cfg' = true ->
        exists key, menuKey key = true
          /\ option_map (fun ch => configure ch (SCREEN_H cfg') (SCREEN_W cfg'))
               (menuLoop [key]) = Some cfg').
Proof.
  intros Hpre Hk Hy Hx cfg.
  assert (Hv : valid_cfg cfg = true).
  { apply menuLoop_choice in Hk. unfold cfg, valid_cfg, configure, INT_MAX in *. simpl.
    assert (Hs : settings_eqb (chooseSettings choice) EASY
                 || settings_eqb (chooseSettings choice) MEDIUM
                 || settings_eqb (chooseSettings choice) HARD = true)
      by (destruct Hk as [-> | [-> | ->]]; reflexivity).
    rewrite Hs. simpl.
    destruct (Z.ltb_spec maxy 20), (Z.ltb_spec maxx 60); simpl;
      repeat (apply andb_true_intro; split); lia. }
  split_and!.
  - rewrite menuLoop_skips; assumption.
  - exact Hv.
  - apply valid_cfg_bounds in Hv. unfold k_launchers_global. lia.
  - apply valid_cfg_bounds in Hv. unfold k_launchers_global. lia.
  - intros cfg' Hv'. pose proof Hv' as Hb. apply valid_cfg_bounds in Hb.
    unfold valid_cfg in Hv'.
    repeat (apply andb_prop in Hv'; destruct Hv' as [Hv' ?]).
    assert (Hsz : forall ch, chooseSettings ch = settings cfg' ->
              configure ch (SCREEN_H cfg') (SCREEN_W cfg') = cfg').
    { intros ch Hch. unfold configure. rewrite Hch.
      destruct (Z.ltb_spec (SCREEN_H cfg') 20), (Z.ltb_spec (SCREEN_W cfg') 60); try lia.
      destruct cfg'; reflexivity. }
    apply orb_prop in Hv'. destruct Hv' as [Hv' | Hv'];
      [apply orb_prop in Hv'; destruct Hv' as [Hv' | Hv'] |];
      apply settings_eqb_eq in Hv'.
    + exists 49. split; [reflexivity|]. simpl. f_equal. apply Hsz. symmetry. exact Hv'.
    + exists 50. split; [reflexivity|]. simpl. f_equal. apply Hsz. symmetry. exact Hv'.
    + exists 51. split; [reflexivity|]. simpl. f_equal. apply Hsz. symmetry. exact Hv'.
Qed.

(** The player types q and x, then 1, on an 18 by 200 terminal. *)
Lemma menu_yields_valid_config_witness :
  menuLoop ([113; 120] ++ [49; 10]) = Some 1
  /\ valid_cfg (configure 1 18 200) = true.
Proof.
  destruct (menu_yields_valid_config [113; 120] [49; 10] 1 18 200) as (H1 & H2 & _).
  - repeat constructor.
  - reflexivity.
  - vm_compute; discriminate.
  - vm_compute; discriminate.
  - split; assumption.
Defined.
